(** * EQNet post-processing: peak detection, pick extraction, pick merging

    A shallow embedding of [eqnet/utils/postprocess.py] and the properties
    its specification states about it.

    Conventions of the embedding.
    - A score is a rational number ([Q]).  Every float is a rational, and
      the operations [detect_peaks] performs on scores (equality, maximum,
      multiplication by a 0/1 mask) are exact on floats, so no rounding is
      lost; NaN and the infinities are outside the model.
    - Where the code rounds, the model rounds: the comparison of a score
      with [vmin] is made in the element type of the score tensor, and the
      quotient [window_amp / dt] is a quotient of doubles ([round_to]).
      The product [index * dt] is taken exactly, where the code multiplies
      two doubles: the printed millisecond is the same when [dt] is a whole
      number of microseconds and the record is shorter than 2e9 seconds.
    - A 4-D tensor is its shape together with an indexing function.
    - A Python exception is [None].
    - [torch.topk] does not fix which of several equal values it returns,
      so [detect_peaks] is parameterised by the row-level selection and the
      theorems hold for every selection that meets [topk_contract].
    - A directory is the list of its files, each with the lines that
      [readlines] returns.  The merge functions return the strings they
      pass to [writelines]; [file_lines] gives the lines of the file that
      results. *)

From Stdlib Require Import String Ascii.
From Stdlib Require Import List Arith ZArith QArith Qround Qabs Qpower Lia Lqa Bool.
From Stdlib Require Import Permutation Sorted.
Import ListNotations.

Open Scope nat_scope.

(** ** Error monad *)

Definition bind {A B : Type} (m : option A) (k : A -> option B) : option B :=
  match m with
  | Some a => k a
  | None => None
  end.

Notation "x <- m ;; k" := (bind m (fun x => k))
  (at level 61, m at next level, right associativity).
Notation "' p <- m ;; k" := (bind m (fun p => k))
  (at level 61, p pattern, m at next level, right associativity).

Definition guard (b : bool) : option unit := if b then Some tt else None.

Fixpoint mapM {A B : Type} (f : A -> option B) (l : list A) : option (list B) :=
  match l with
  | [] => Some []
  | a :: r =>
      b <- f a ;;
      bs <- mapM f r ;;
      Some (b :: bs)
  end.

(** [range n] is Python's [range(n)]. *)
Definition range (n : nat) : list nat := seq 0 n.

(** ** Tensors *)

Record tensor4 (A : Type) : Type := Tensor4 {
  dim0 : nat;
  dim1 : nat;
  dim2 : nat;
  dim3 : nat;
  at4 : nat -> nat -> nat -> nat -> A
}.

Arguments Tensor4 {A} _ _ _ _ _.
Arguments dim0 {A} _.
Arguments dim1 {A} _.
Arguments dim2 {A} _.
Arguments dim3 {A} _.
Arguments at4 {A} _ _ _ _ _.

(** [torch.transpose(x, 2, 3)] *)
Definition transpose23 {A : Type} (x : tensor4 A) : tensor4 A :=
  Tensor4 (dim0 x) (dim1 x) (dim3 x) (dim2 x)
          (fun b c s t => at4 x b c t s).

(** [x[:, 1:, :, :]] on a tensor with at least one channel. *)
Definition drop_channel0 {A : Type} (x : tensor4 A) : tensor4 A :=
  Tensor4 (dim0 x) (dim1 x - 1) (dim2 x) (dim3 x)
          (fun b c u v => at4 x b (S c) u v).

(** [x[:, :, :n, :]] *)
Definition take_dim2 {A : Type} (n : nat) (x : tensor4 A) : tensor4 A :=
  Tensor4 (dim0 x) (dim1 x) (Nat.min n (dim2 x)) (dim3 x) (at4 x).

(** The last-dimension row [x[b, c, u]] as a list. *)
Definition row {A : Type} (x : tensor4 A) (b c u : nat) : list A :=
  map (at4 x b c u) (range (dim3 x)).

(** ** Scores *)

Definition qmax (a b : Q) : Q := if Qle_bool a b then b else a.

(** Values of a pooled tensor: max-pooling pads with negative infinity. *)
Inductive xreal : Type :=
| NegInf
| Fin (q : Q).

Definition xmax (a : xreal) (q : Q) : xreal :=
  match a with
  | NegInf => Fin q
  | Fin p => Fin (qmax p q)
  end.

(** [smax == scores], elementwise. *)
Definition xeqb (m : xreal) (q : Q) : bool :=
  match m with
  | NegInf => false
  | Fin p => Qeq_bool p q
  end.

(** ** max_pool2d along the time axis

    [F.max_pool2d(x, (kernel, 1), stride=(stride, 1), padding=(pad, 0))]:
    output sample [o] is the maximum of the padded input over the padded
    positions [o*stride .. o*stride + kernel - 1]; padded position [q] is
    input position [q - pad], and positions outside [0, nt) hold negative
    infinity. *)

Definition window_positions (nt kernel pad start : nat) : list nat :=
  filter (fun u => u <? nt)
         (map (fun d => start + d - pad)
              (filter (fun d => pad <=? start + d) (range kernel))).

Definition pool_at (f : nat -> Q) (nt kernel pad start : nat) : xreal :=
  fold_left (fun acc u => xmax acc (f u)) (window_positions nt kernel pad start) NegInf.

Definition max_pool2d_time (x : tensor4 Q) (kernel stride pad : nat)
  : option (tensor4 xreal) :=
  _ <- guard (0 <? kernel) ;;
  _ <- guard (0 <? stride) ;;
  _ <- guard (pad <=? kernel / 2) ;;
  _ <- guard ((0 <? dim1 x) && (0 <? dim2 x) && (0 <? dim3 x)) ;;
  _ <- guard (kernel <=? dim2 x + 2 * pad) ;;
  Some (Tensor4 (dim0 x) (dim1 x)
                ((dim2 x + 2 * pad - kernel) / stride + 1)
                (dim3 x)
                (fun b c o s =>
                   pool_at (fun t => at4 x b c t s) (dim2 x) kernel pad (o * stride))).

(** [smax == scores] with broadcasting along the time axis: the two time
    lengths must agree unless one of them is 1. *)
Definition eq_broadcast (smax : tensor4 xreal) (scores : tensor4 Q)
  : option (tensor4 bool) :=
  if dim2 smax =? dim2 scores then
    Some (Tensor4 (dim0 scores) (dim1 scores) (dim2 scores) (dim3 scores)
                  (fun b c t s => xeqb (at4 smax b c t s) (at4 scores b c t s)))
  else if dim2 smax =? 1 then
    Some (Tensor4 (dim0 scores) (dim1 scores) (dim2 scores) (dim3 scores)
                  (fun b c t s => xeqb (at4 smax b c 0 s) (at4 scores b c t s)))
  else None.

(** [scores * keep.float()]: a score times 1.0 is the score, times 0.0 is 0. *)
Definition mask (scores : tensor4 Q) (keep : tensor4 bool) : tensor4 Q :=
  Tensor4 (dim0 scores) (dim1 scores) (dim2 scores) (dim3 scores)
          (fun b c t s => if at4 keep b c t s then at4 scores b c t s else 0%Q).

(** Lines 19-22 of [detect_peaks]: the keep mask. *)
Definition nms_keep (scores : tensor4 Q) (kernel stride : nat)
  : option (tensor4 bool) :=
  let nt := dim2 scores in
  let pad := kernel / 2 in
  smax <- max_pool2d_time scores kernel stride pad ;;
  eq_broadcast (take_dim2 nt smax) scores.

(** Lines 19-23 of [detect_peaks]: the suppressed scores. *)
Definition nms (scores : tensor4 Q) (kernel stride : nat) : option (tensor4 Q) :=
  keep <- nms_keep scores kernel stride ;;
  Some (mask scores keep).

(** ** torch.topk

    [torch.topk(x, K)] returns, for every row of the last dimension, the [K]
    largest values in descending order together with their positions.  Which
    of several equal values is returned, and in which order, is left open by
    the library, so the model of [detect_peaks] takes the row-level selection
    as a parameter [tk] that is only required to meet [topk_contract];
    [topk_lowest] is one such selection (ties go to the lowest position). *)

Definition topk_fn : Type := list Q -> nat -> list Q * list nat.

Fixpoint descending (l : list Q) : Prop :=
  match l with
  | [] => True
  | a :: r => Forall (fun b => (b <= a)%Q) r /\ descending r
  end.

Record topk_contract (tk : topk_fn) : Prop := {
  topk_length : forall xs k, k <= length xs -> length (snd (tk xs k)) = k;
  topk_range : forall xs k, k <= length xs ->
      Forall (fun i => i < length xs) (snd (tk xs k));
  topk_nodup : forall xs k, k <= length xs -> NoDup (snd (tk xs k));
  topk_values : forall xs k, k <= length xs ->
      fst (tk xs k) = map (fun i => nth i xs 0%Q) (snd (tk xs k));
  topk_sorted : forall xs k, k <= length xs -> descending (fst (tk xs k));
  topk_largest : forall xs k i j, k <= length xs ->
      In i (snd (tk xs k)) -> j < length xs -> ~ In j (snd (tk xs k)) ->
      (nth j xs 0 <= nth i xs 0)%Q
}.

Fixpoint insert_desc (p : nat * Q) (l : list (nat * Q)) : list (nat * Q) :=
  match l with
  | [] => [p]
  | h :: r => if Qle_bool (snd h) (snd p) then p :: l else h :: insert_desc p r
  end.

Definition sort_desc (l : list (nat * Q)) : list (nat * Q) :=
  fold_right insert_desc [] l.

Definition topk_lowest : topk_fn :=
  fun xs k =>
    let s := firstn k (sort_desc (combine (range (length xs)) xs)) in
    (map snd s, map fst s).

(** Another selection that meets the contract: ties go to the highest
    position. *)
Definition topk_highest : topk_fn :=
  fun xs k =>
    let s := firstn k (sort_desc (rev (combine (range (length xs)) xs))) in
    (map snd s, map fst s).

(** Python's [round] on a float: to the nearest integer, halves to even. *)
Definition round_half_even (q : Q) : Z :=
  let f := Qfloor q in
  let r := (q - inject_Z f)%Q in
  match (r ?= 1 # 2)%Q with
  | Lt => f
  | Gt => (f + 1)%Z
  | Eq => if Z.even f then f else (f + 1)%Z
  end.

(** [max(round(nt * 10.0 / 3000.0), 3)] *)
Definition default_K (nt : nat) : nat :=
  Nat.max (Z.to_nat (round_half_even (inject_Z (Z.of_nat nt) * 10 / 3000))) 3.

Section Detect.

Variable tk : topk_fn.

(** [torch.topk(x, K)] over the last dimension; [K] larger than that
    dimension is an error. *)
Definition torch_topk (x : tensor4 Q) (K : nat)
  : option (tensor4 Q * tensor4 nat) :=
  _ <- guard (K <=? dim3 x) ;;
  Some (Tensor4 (dim0 x) (dim1 x) (dim2 x) K
                (fun b c u n => nth n (fst (tk (row x b c u) K)) 0%Q),
        Tensor4 (dim0 x) (dim1 x) (dim2 x) K
                (fun b c u n => nth n (snd (tk (row x b c u) K)) 0)).

(** [x.view(d0, d1, d2, -1)] for a tensor [x] with these first three
    sizes: the shape is unchanged.  torch cannot infer the size behind
    [-1] when the product of the given sizes is 0 (RuntimeError). *)
Definition view_infer_last {A : Type} (x : tensor4 A) : option (tensor4 A) :=
  _ <- guard (0 <? dim0 x * dim1 x * dim2 x) ;;
  Some x.

(** [detect_peaks(scores, vmin, kernel, stride, K)].  The result is the
    pair [(topk_scores, topk_inds)], both of shape
    (batch, channels, stations, K).  [vmin] is unused by the source as
    well. *)
Definition detect_peaks (scores : tensor4 Q) (vmin : Q)
           (kernel stride K : nat) : option (tensor4 Q * tensor4 nat) :=
  scores <- nms scores kernel stride ;;
  let chn := dim1 scores in
  let nt := dim2 scores in
  let scores := transpose23 scores in
  let K := if K =? 0 then default_K nt else K in
  '(topk_scores, topk_inds) <-
    (if chn =? 1 then torch_topk scores K
     else
       x <- view_infer_last (drop_channel0 scores) ;;
       torch_topk x K) ;;
  let topk_inds :=
    Tensor4 (dim0 topk_inds) (dim1 topk_inds) (dim2 topk_inds) (dim3 topk_inds)
            (fun b c s n => at4 topk_inds b c s n mod nt) in
  Some (topk_scores, topk_inds).

End Detect.

(** ** Number formatting *)

Definition digit (n : Z) : ascii := ascii_of_nat (48 + Z.to_nat (n mod 10)).

(** The [w] low decimal digits of [n], most significant first. *)
Fixpoint low_digits (w : nat) (n : Z) (acc : string) : string :=
  match w with
  | 0 => acc
  | S w' => low_digits w' (n / 10) (String (digit n) acc)
  end.

(** Number of decimal digits of a non-negative integer (1 for zero). *)
Fixpoint count_digits (fuel : nat) (n : Z) : nat :=
  match fuel with
  | 0 => 1
  | S fuel' => if (n <? 10)%Z then 1 else S (count_digits fuel' (n / 10))
  end.

Definition num_digits (n : Z) : nat := count_digits (Z.to_nat (Z.log2 n)) n.

Definition decimal (n : Z) : string := low_digits (num_digits n) n EmptyString.

(** [f"{n:0{w}d}"] *)
Definition format_0d (w : nat) (n : Z) : string :=
  if (n <? 0)%Z
  then String "-"%char (low_digits (Nat.max (w - 1) (num_digits (- n))) (- n) EmptyString)
  else low_digits (Nat.max w (num_digits n)) n EmptyString.

(** [f"{x:.3f}"] *)
Definition format_3f (x : Q) : string :=
  let m := round_half_even (Qabs x * 1000) in
  ((if Qlt_le_dec x 0 then "-" else EmptyString) ++
   decimal (m / 1000) ++ "." ++ low_digits 3 (m mod 1000) EmptyString)%string.

(** The decimal exponent [e] with [10^e <= x < 10^(e+1)], for [x > 0]. *)
Fixpoint exponent10_up (fuel : nat) (x : Q) (e : Z) : Z :=
  match fuel with
  | 0 => e
  | S fuel' => if Qle_bool 10 x then exponent10_up fuel' (x / 10) (e + 1) else e
  end.

Fixpoint exponent10_down (fuel : nat) (x : Q) (e : Z) : Z :=
  match fuel with
  | 0 => e
  | S fuel' => if Qle_bool 1 x then e else exponent10_down fuel' (x * 10) (e - 1)
  end.

Definition exponent10 (x : Q) : Z :=
  let fuel := S (Z.to_nat (Z.log2 (Z.abs (Qnum x))) + Pos.to_nat (Pos.size (Qden x))) in
  if Qle_bool 1 x then exponent10_up fuel x 0 else exponent10_down fuel x 0.

Definition qpow10 (e : Z) : Q :=
  if (e <? 0)%Z then 1 / inject_Z (10 ^ (- e)) else inject_Z (10 ^ e).

(** [f"{x:.3e}"] *)
Definition format_3e (x : Q) : string :=
  let a := Qabs x in
  let sign := (if Qlt_le_dec x 0 then "-" else EmptyString)%string in
  if Qeq_bool a 0 then (sign ++ "0.000e+00")%string
  else
    let e0 := exponent10 a in
    let m0 := round_half_even (a / qpow10 e0 * 1000) in
    let '(m, e) := if (10000 <=? m0)%Z then (m0 / 10, e0 + 1)%Z else (m0, e0) in
    (sign ++ low_digits 1 (m / 1000) EmptyString ++ "." ++
     low_digits 3 (m mod 1000) EmptyString ++
     "e" ++ (if (e <? 0)%Z then "-" else "+") ++ format_0d 2 (Z.abs e))%string.

(** ** Calendar time

    The part of Python's [datetime] that [extract_picks] uses: parsing an
    ISO-8601 string, adding a number of seconds, and printing with
    millisecond precision.  The proleptic Gregorian ordinal arithmetic
    follows [datetime.py] ([_ymd2ord], [_ord2ymd]). *)

Module Datetime.

Open Scope Z_scope.

Record datetime : Type := Build {
  year : Z;
  month : Z;
  day : Z;
  hour : Z;
  minute : Z;
  second : Z;
  microsecond : Z
}.

Definition is_leap (y : Z) : bool :=
  (y mod 4 =? 0) && (negb (y mod 100 =? 0) || (y mod 400 =? 0)).

Definition days_in_month (y m : Z) : Z :=
  if (m =? 2) && is_leap y then 29
  else nth (Z.to_nat m) [0; 31; 28; 31; 30; 31; 30; 31; 31; 30; 31; 30; 31] 0.

Definition days_before_year (y : Z) : Z :=
  let y := y - 1 in
  y * 365 + y / 4 - y / 100 + y / 400.

Definition days_before_month_table : list Z :=
  [0; 0; 31; 59; 90; 120; 151; 181; 212; 243; 273; 304; 334].

Definition days_before_month (y m : Z) : Z :=
  nth (Z.to_nat m) days_before_month_table 0 +
  (if (2 <? m) && is_leap y then 1 else 0).

Definition ymd2ord (y m d : Z) : Z :=
  days_before_year y + days_before_month y m + d.

Definition ord2ymd (n : Z) : Z * Z * Z :=
  let n := n - 1 in
  let n400 := n / 146097 in
  let n := n mod 146097 in
  let y := n400 * 400 + 1 in
  let n100 := n / 36524 in
  let n := n mod 36524 in
  let n4 := n / 1461 in
  let n := n mod 1461 in
  let n1 := n / 365 in
  let n := n mod 365 in
  let y := y + n100 * 100 + n4 * 4 + n1 in
  if (n1 =? 4) || (n100 =? 4) then (y - 1, 12, 31)
  else
    let leapyear := (n1 =? 3) && (negb (n4 =? 24) || (n100 =? 3)) in
    let m := Z.shiftr (n + 50) 5 in
    let preceding :=
      nth (Z.to_nat m) days_before_month_table 0 +
      (if (2 <? m) && leapyear then 1 else 0) in
    if n <? preceding then
      let m := m - 1 in
      let preceding :=
        preceding -
        (nth (Z.to_nat m) [0; 31; 28; 31; 30; 31; 30; 31; 31; 30; 31; 30; 31] 0 +
         (if (m =? 2) && leapyear then 1 else 0)) in
      (y, m, n - preceding + 1)
    else (y, m, n - preceding + 1).

Definition max_ordinal : Z := 3652059.

Definition valid (d : datetime) : bool :=
  (1 <=? year d) && (year d <=? 9999) &&
  (1 <=? month d) && (month d <=? 12) &&
  (1 <=? day d) && (day d <=? days_in_month (year d) (month d)) &&
  (0 <=? hour d) && (hour d <? 24) &&
  (0 <=? minute d) && (minute d <? 60) &&
  (0 <=? second d) && (second d <? 60) &&
  (0 <=? microsecond d) && (microsecond d <? 1000000).

(** *** Parsing *)

Definition digit_value (c : ascii) : option Z :=
  let n := nat_of_ascii c in
  if ((48 <=? n) && (n <=? 57))%nat then Some (Z.of_nat (n - 48)) else None.

Fixpoint digits_value (acc : Z) (l : list ascii) : option Z :=
  match l with
  | [] => Some acc
  | c :: r => d <- digit_value c ;; digits_value (acc * 10 + d) r
  end.

(** A non-empty run of decimal digits. *)
Definition number (l : list ascii) : option Z :=
  match l with
  | [] => None
  | _ => digits_value 0 l
  end.

Definition is_char (c : ascii) (l : list ascii) : option unit :=
  match l with
  | [c'] => guard (Ascii.eqb c c')
  | _ => None
  end.

(** [YYYY-MM-DD] *)
Definition parse_date (l : list ascii) : option (Z * Z * Z) :=
  _ <- guard (List.length l =? 10)%nat ;;
  y <- number (firstn 4 l) ;;
  _ <- is_char "-" (firstn 1 (skipn 4 l)) ;;
  m <- number (firstn 2 (skipn 5 l)) ;;
  _ <- is_char "-" (firstn 1 (skipn 7 l)) ;;
  d <- number (firstn 2 (skipn 8 l)) ;;
  Some (y, m, d).

(** [HH[:MM[:SS[.fff[fff]]]]], the time forms without a UTC offset. *)
Definition parse_time (l : list ascii) : option (Z * Z * Z * Z) :=
  h <- number (firstn 2 l) ;;
  _ <- guard (List.length (firstn 2 l) =? 2)%nat ;;
  match skipn 2 l with
  | [] => Some (h, 0, 0, 0)
  | l =>
      _ <- is_char ":" (firstn 1 l) ;;
      _ <- guard (List.length (firstn 2 (skipn 1 l)) =? 2)%nat ;;
      mi <- number (firstn 2 (skipn 1 l)) ;;
      match skipn 3 l with
      | [] => Some (h, mi, 0, 0)
      | l =>
          _ <- is_char ":" (firstn 1 l) ;;
          _ <- guard (List.length (firstn 2 (skipn 1 l)) =? 2)%nat ;;
          s <- number (firstn 2 (skipn 1 l)) ;;
          match skipn 3 l with
          | [] => Some (h, mi, s, 0)
          | l =>
              _ <- is_char "." (firstn 1 l) ;;
              f <- number (skipn 1 l) ;;
              match List.length (skipn 1 l) with
              | 3%nat => Some (h, mi, s, f * 1000)
              | 6%nat => Some (h, mi, s, f)
              | _ => None
              end
          end
      end
  end.

(** [datetime.fromisoformat]: a date, optionally followed by one
    separator character and a time with no, three or six fractional
    digits.  Strings with a UTC offset are not covered by the model and are
    rejected like malformed ones. *)
Definition fromisoformat (s : string) : option datetime :=
  let l := list_ascii_of_string s in
  '(y, m, d) <- parse_date (firstn 10 l) ;;
  '(h, mi, sec, us) <-
    match skipn 10 l with
    | [] => Some (0, 0, 0, 0)
    | _ :: t => parse_time t
    end ;;
  let r := Build y m d h mi sec us in
  _ <- guard (valid r) ;;
  Some r.

(** [timedelta(seconds=x)] in microseconds: the constructor rounds to the
    nearest microsecond, halves to even. *)
Definition timedelta_seconds (x : Q) : Z := round_half_even (x * 1000000)%Q.

(** [d + timedelta], the timedelta given in microseconds; a result
    outside the years 1..9999 is an OverflowError. *)
Definition add (d : datetime) (us : Z) : option datetime :=
  let day_us := 86400 * 1000000 in
  let total :=
    ((ymd2ord (year d) (month d) (day d) * 86400
      + hour d * 3600 + minute d * 60 + second d) * 1000000
     + microsecond d) + us in
  let days := total / day_us in
  let rest := total mod day_us in
  _ <- guard ((0 <? days) && (days <=? max_ordinal)) ;;
  let '(y, m, dd) := ord2ymd days in
  let secs := rest / 1000000 in
  Some (Build y m dd (secs / 3600) (secs mod 3600 / 60) (secs mod 60)
              (rest mod 1000000)).

(** [d.isoformat(timespec="milliseconds")] *)
Definition isoformat_ms (d : datetime) : string :=
  (format_0d 4 (year d) ++ "-" ++ format_0d 2 (month d) ++ "-" ++
   format_0d 2 (day d) ++ "T" ++ format_0d 2 (hour d) ++ ":" ++
   format_0d 2 (minute d) ++ ":" ++ format_0d 2 (second d) ++ "." ++
   format_0d 3 (microsecond d / 1000))%string.

End Datetime.

(** [s.rstrip("Z")] *)
Fixpoint rstrip_Z (s : string) : string :=
  match s with
  | EmptyString => EmptyString
  | String c r =>
      match rstrip_Z r with
      | EmptyString => if Ascii.eqb c "Z" then EmptyString else String c EmptyString
      | r' => String c r'
      end
  end.

(** ** torch.sort, slices, maxima *)

Fixpoint insert_asc (p : nat * nat) (l : list (nat * nat)) : list (nat * nat) :=
  match l with
  | [] => [p]
  | h :: r => if fst p <=? fst h then p :: l else h :: insert_asc p r
  end.

(** [torch.sort(v)]: the sorted values and, for each, its position in [v].
    Equal values keep their order here; torch does not promise an order
    among them.  The time indices of a group returned by [detect_peaks] are
    pairwise distinct. *)
Definition torch_sort (v : list nat) : list nat * list nat :=
  let s := fold_right insert_asc [] (combine v (range (List.length v))) in
  (map fst s, map snd s).

(** [l[lo:hi]] with Python's treatment of negative and oversized bounds. *)
Definition slice_bound (n : nat) (x : Z) : nat :=
  if (x <? 0)%Z then Z.to_nat (Z.max (x + Z.of_nat n) 0)
  else Nat.min (Z.to_nat x) n.

Definition py_slice {A : Type} (l : list A) (lo hi : Z) : list A :=
  let a := slice_bound (List.length l) lo in
  let b := slice_bound (List.length l) hi in
  firstn (b - a) (skipn a l).

(** [torch.max] of a 1-D tensor; an empty tensor is an error. *)
Definition max_list (l : list Q) : option Q :=
  match l with
  | [] => None
  | a :: r => Some (fold_left qmax r a)
  end.

(** [a < b] on scores. *)
Definition Qltb (a b : Q) : bool := negb (Qle_bool b a).

(** [int(x)] of a float: truncation toward zero. *)
Definition int_of_float (x : Q) : Z :=
  if Qlt_le_dec x 0 then Qceiling x else Qfloor x.

(** ** Floating-point formats

    The numbers of a binary floating-point format with [prec] significant
    bits and least exponent [emin] are the multiples of 2^(e - prec + 1)
    in every binade [2^e, 2^(e+1)), [e >= emin], and the multiples of
    2^(emin - prec + 1) below.  [round_to] rounds a rational to the
    nearest of them, halves to even (the rounding of IEEE 754 that Python
    and torch use).  The largest exponent is not modelled: a value beyond
    the range of the format rounds to a power of two that no finite number
    of the format reaches, so it compares with the finite numbers of the
    format as the infinity does that IEEE 754 rounds it to. *)

Definition pow2 (e : Z) : Q := Qpower 2 e.

(** The exponent of a positive rational: the [e] with 2^e <= q < 2^(e+1). *)
Definition Qlog2 (q : Q) : Z :=
  let e := (Z.log2 (Qnum q) - Z.log2 (Zpos (Qden q)))%Z in
  if Qle_bool (pow2 e) q then e else (e - 1)%Z.

(** The exponent of the binade of [q] in a format with least exponent
    [emin]. *)
Definition exponent (emin : Z) (q : Q) : Z := Z.max (Qlog2 (Qabs q)) emin.

Definition round_to (prec emin : Z) (q : Q) : Q :=
  let ulp := pow2 (exponent emin q - prec + 1) in
  (inject_Z (round_half_even (q / ulp)) * ulp)%Q.

(** A Python float is a double.  The model has no largest exponent: a
    rational beyond the range of the doubles stands for no finite float,
    and [int_of_double] below treats it as an infinity. *)
Definition float64 (q : Q) : Q := round_to 53 (-1022) q.

(** The floating-point element types of a torch tensor. *)
Inductive dtype : Type := Float16 | BFloat16 | Float32 | Float64.

Definition to_dtype (d : dtype) (q : Q) : Q :=
  match d with
  | Float16 => round_to 11 (-14) q
  | BFloat16 => round_to 8 (-126) q
  | Float32 => round_to 24 (-126) q
  | Float64 => round_to 53 (-1022) q
  end.

(** A Python float, a double, converted to the element type [d]. *)
Definition scalar_to (d : dtype) (x : Q) : Q := to_dtype d (float64 x).

(** [score > vmin] for an element [score] of a tensor of element type [d]
    and a Python float [vmin]: torch makes the comparison in the element
    type of the tensor, so [vmin] is converted to it first.  An element of
    the tensor is a number of that type already, and a double:
    [scalar_to d score] is [score] for every value the tensor can hold, and
    a rational that is no such value stands for the one nearest to it. *)
Definition tensor_gt (d : dtype) (score vmin : Q) : bool :=
  Qltb (scalar_to d vmin) (scalar_to d score).

(** [a / b] on Python floats: a zero divisor is a ZeroDivisionError,
    otherwise the result is the quotient of the two doubles rounded to
    the nearest double. *)
Definition float_div (a b : Q) : option Q :=
  _ <- guard (negb (Qeq_bool (float64 b) 0)) ;;
  Some (float64 (float64 a / float64 b)).

(** [int(x)] of a Python float: an infinite [x] (here: a quotient beyond
    the range of the doubles) is an OverflowError. *)
Definition int_of_double (x : Q) : option Z :=
  _ <- guard (Qltb (Qabs x) (pow2 1024)) ;;
  Some (int_of_float x).

(** ** extract_picks *)

Record tensor3 (A : Type) : Type := Tensor3 {
  len0 : nat;
  len1 : nat;
  len2 : nat;
  at3 : nat -> nat -> nat -> A
}.

Arguments Tensor3 {A} _ _ _ _.
Arguments len0 {A} _.
Arguments len1 {A} _.
Arguments len2 {A} _.
Arguments at3 {A} _ _ _ _.

(** [torch.max(torch.abs(waveform), dim=1)[0]] *)
Definition max_abs_dim1 (w : tensor4 Q) : option (tensor3 Q) :=
  _ <- guard (0 <? dim1 w) ;;
  Some (Tensor3 (dim0 w) (dim2 w) (dim3 w)
                (fun b t x =>
                   fold_left qmax
                             (map (fun c => Qabs (at4 w b c t x)) (seq 1 (dim1 w - 1)))
                             (Qabs (at4 w b 0 t x)))).

(** [a[i, lo:hi, k]] *)
Definition slice3 (a : tensor3 Q) (i : nat) (lo hi : Z) (k : nat)
  : option (list Q) :=
  _ <- guard ((i <? len0 a) && (k <? len2 a)) ;;
  Some (py_slice (map (fun t => at3 a i t k) (range (len1 a))) lo hi).

(** One pick: the dictionary built at lines 123-139. *)
Record pick : Type := Pick {
  station_id : string;
  phase_index : Z;
  phase_time : string;
  phase_score : string;
  phase_type : string;
  phase_polarity : option string;
  phase_amplitude : option string
}.

(** [dt] is either one float or a tensor with one entry per batch element. *)
Inductive dt_arg : Type :=
| DtFloat (x : Q)
| DtTensor (l : list Q).

(** The keyword arguments of [extract_picks], and with them the element
    type of [topk_score]: torch keeps it in the tensor, the tensors of the
    model hold only shape and values. *)
Record kwargs : Type := Kwargs {
  kw_file_name : option (list string);
  kw_begin_time : option (list string);
  kw_station_id : option (list (list string));
  kw_phases : list string;
  kw_vmin : Q;
  kw_dt : dt_arg;
  kw_polarity_score : option (tensor4 Q);
  kw_waveform : option (tensor4 Q);
  kw_window_amp : list Q;
  kw_begin_channel_index : option (list Z);
  kw_begin_time_index : option (list Z);
  kw_dtype : dtype
}.

Definition default_kwargs : kwargs :=
  Kwargs None None None ["P"; "S"]%string (3 # 10) (DtFloat (1 # 100))
         None None [10; 5]%Q None None Float32.

Definition epoch : string := "1970-01-01T00:00:00.000".

(** [[x for i in range(n)]] *)
Definition replicate {A : Type} (n : nat) (x : A) : list A :=
  map (fun _ => x) (range n).

(** [enumerate(l)] *)
Definition enumerate {A : Type} (l : list A) : list (nat * A) :=
  combine (range (List.length l)) l.

Section ExtractPicks.

Variable topk_index : tensor4 nat.
Variable topk_score : tensor4 Q.
Variable kw : kwargs.

(** The state shared by the loops: lines 64-86. *)
Variable dt : list Q.
Variable begin_channel_index : list Z.
Variable begin_time_index : list Z.
Variable waveform_amp : option (tensor3 Q).
Variable window_amp : list Q.

(** Lines 119-141: the pick of entry [ii] of a sorted group, for a score
    above [vmin]. *)
Definition make_pick (i j k : nat) (begin_i : Datetime.datetime)
           (station_i : string) (window_amp_i : Z)
           (topk_index_ijk : list nat) (ii index : nat) (score : Q)
  : option pick :=
  bti <- nth_error begin_time_index i ;;
  let pick_index := (Z.of_nat index + bti)%Z in
  dti <- nth_error dt i ;;
  t <- Datetime.add begin_i
         (Datetime.timedelta_seconds (inject_Z (Z.of_nat index) * dti)) ;;
  let pick_time := Datetime.isoformat_ms t in
  phase <- nth_error (kw_phases kw) j ;;
  polarity <-
    match kw_polarity_score kw with
    | None => Some None
    | Some p =>
        _ <- guard ((i <? dim0 p) && (0 <? dim1 p) && (index <? dim2 p)
                    && (k <? dim3 p)) ;;
        Some (Some (format_3f (at4 p i 0 index k)))
    end ;;
  amplitude <-
    match waveform_amp with
    | None => Some None
    | Some a =>
        let j1 := Z.of_nat (nth ii topk_index_ijk 0) in
        let j2 :=
          if ii <? List.length topk_index_ijk - 1
          then Z.min (j1 + window_amp_i) (Z.of_nat (nth (ii + 1) topk_index_ijk 0))
          else (j1 + window_amp_i)%Z in
        w <- slice3 a i j1 j2 k ;;
        m <- max_list w ;;
        Some (Some (format_3e m))
    end ;;
  Some (Pick station_i pick_index pick_time (format_3f score) phase
             polarity amplitude).

(** Lines 108-141: the picks of the group (i, j, k). *)
Definition group_picks (i j k : nat) (begin_i : Datetime.datetime)
           (window_amp_i : Z) : option (list pick) :=
  station_i <-
    match kw_station_id kw with
    | None =>
        bci <- nth_error begin_channel_index i ;;
        Some (format_0d 4 (Z.of_nat k + bci))
    | Some names =>
        names_k <- nth_error names k ;;
        nth_error names_k i
    end ;;
  _ <- guard ((i <? dim0 topk_index) && (j <? dim1 topk_index)
              && (k <? dim2 topk_index)) ;;
  let '(topk_index_ijk, ii) := torch_sort (row topk_index i j k) in
  topk_score_ijk <- mapM (nth_error (row topk_score i j k)) ii ;;
  picks <-
    mapM (fun '(ii, (index, score)) =>
            if tensor_gt (kw_dtype kw) score (kw_vmin kw)
            then
              p <- make_pick i j k begin_i station_i window_amp_i
                             topk_index_ijk ii index score ;;
              Some [p]
            else Some [])
         (enumerate (combine topk_index_ijk topk_score_ijk)) ;;
  Some (concat picks).

(** Lines 103-141: the picks of class-channel [j] of batch element [i]. *)
Definition channel_picks (i : nat) (begin_i : Datetime.datetime) (j : nat)
  : option (list pick) :=
  window_amp_i <-
    match waveform_amp with
    | None => Some 0%Z
    | Some _ =>
        wa <- nth_error window_amp j ;;
        dti <- nth_error dt i ;;
        q <- float_div wa dti ;;
        int_of_double q
    end ;;
  groups <- mapM (fun k => group_picks i j k begin_i window_amp_i)
                 (range (dim2 topk_score)) ;;
  Some (concat groups).

(** Lines 89-143: [picks_per_file] of batch element [i]. *)
Definition file_picks (i : nat) : option (list pick) :=
  _ <-
    match kw_file_name kw with
    | None => Some (format_0d 4 (Z.of_nat i))
    | Some names => nth_error names i
    end ;;
  begin_i <-
    match kw_begin_time kw with
    | None => Some epoch
    | Some times =>
        b <- nth_error times i ;;
        Some (if String.length b =? 0 then epoch else b)
    end ;;
  begin_i <- Datetime.fromisoformat (rstrip_Z begin_i) ;;
  channels <- mapM (channel_picks i begin_i) (range (dim1 topk_score)) ;;
  Some (concat channels).

End ExtractPicks.

(** [extract_picks(topk_index, topk_score, **kw)] *)
Definition extract_picks (topk_index : tensor4 nat) (topk_score : tensor4 Q)
           (kw : kwargs) : option (list (list pick)) :=
  let batch := dim0 topk_score in
  dt <-
    match kw_dt kw with
    | DtFloat x => Some (replicate batch x)
    | DtTensor l => mapM (nth_error l) (range batch)
    end ;;
  let begin_channel_index :=
    match kw_begin_channel_index kw with
    | Some l => l
    | None => replicate batch 0%Z
    end in
  let begin_time_index :=
    match kw_begin_time_index kw with
    | Some l => l
    | None => replicate batch 0%Z
    end in
  waveform_amp <-
    match kw_waveform kw with
    | None => Some None
    | Some w => a <- max_abs_dim1 w ;; Some (Some a)
    end ;;
  let window_amp :=
    match kw_waveform kw with
    | None => kw_window_amp kw
    | Some _ =>
        if List.length (kw_window_amp kw) =? 1
        then replicate (List.length (kw_phases kw)) (nth 0 (kw_window_amp kw) 0%Q)
        else kw_window_amp kw
    end in
  mapM (file_picks topk_index topk_score kw dt begin_channel_index
                   begin_time_index waveform_amp window_amp)
       (range batch).

(** ** Merging pick files

    A directory is the list of its files in listing order, each a name and
    the lines [readlines] returns for it.  The functions below return the
    strings the source passes to [writelines] (and the counter it prints)
    instead of writing them; the content of the file written is their
    concatenation, and [file_lines] gives the lines [readlines] returns for
    it. *)

Definition file : Type := string * list string.

Definition ends_with_csv (name : string) : bool :=
  let n := String.length name in
  (4 <=? n) && String.eqb (substring (n - 4) 4 name) ".csv".

Fixpoint count_char (c : ascii) (s : string) : nat :=
  match s with
  | EmptyString => 0
  | String c' r => (if Ascii.eqb c c' then 1 else 0) + count_char c r
  end.

(** [Path.stem] of a name that ends in [.csv]. *)
Definition stem (name : string) : string :=
  substring 0 (String.length name - 4) name.

(** The pattern [*_*_*.csv] of [Path.glob]. *)
Definition glob_das (name : string) : bool :=
  ends_with_csv name && (2 <=? count_char "_" (stem name)).

(** The pattern [*.csv] of [glob.glob], which skips names with a leading dot. *)
Definition glob_csv (name : string) : bool :=
  ends_with_csv name &&
  match name with
  | String c _ => negb (Ascii.eqb c ".")
  | EmptyString => false
  end.

(** [s.split("_")[0]] *)
Fixpoint split_first (s : string) : string :=
  match s with
  | EmptyString => EmptyString
  | String c r => if Ascii.eqb c "_" then EmptyString else String c (split_first r)
  end.

Fixpoint insert_file (f : file) (l : list file) : list file :=
  match l with
  | [] => [f]
  | h :: r => if String.leb (fst f) (fst h) then f :: l else h :: insert_file f r
  end.

(** [sorted(files)]: by name. *)
Definition sorted_files (l : list file) : list file :=
  fold_right insert_file [] l.

(** [file_group[key].append(f)] on an insertion-ordered dictionary. *)
Fixpoint group_append (key : string) (f : file) (g : list (string * list file))
  : list (string * list file) :=
  match g with
  | [] => [(key, [f])]
  | (key', fs) :: r =>
      if String.eqb key key' then (key', fs ++ [f]) :: r
      else (key', fs) :: group_append key f r
  end.

(** Lines 159-163. *)
Definition file_group (dir : list file) : list (string * list file) :=
  fold_left (fun g f => group_append (split_first (stem (fst f))) f g)
            (filter (fun f => glob_das (fst f)) dir) [].

(** Lines 170-175: one file read into the state [(picks, header)]. *)
Definition read_into (st : list string * option string) (f : file)
  : list string * option string :=
  let '(picks, header) := st in
  let tmp := snd f in
  let '(picks, header) :=
    match tmp, header with
    | h :: _, None => (picks ++ [h], Some h)
    | _, _ => (picks, header)
    end in
  (picks ++ tl tmp, header).

(** Lines 167-175: the merged lines of one group. *)
Definition merge_group (files : list file) : list string :=
  fst (fold_left read_into (sorted_files files) ([], None)).

(** [merge_das_picks]: the files written, each as its name and the strings
    passed to [writelines], and the counter [num_picks]. *)
Definition merge_das_picks (dir : list file) (min_picks : Z)
  : list file * nat :=
  fold_left
    (fun '(written, num_picks) '(k, files) =>
       let picks := merge_group files in
       ((if (min_picks <? Z.of_nat (List.length picks))%Z
         then written ++ [((k ++ ".csv")%string, picks)]
         else written),
        num_picks + List.length picks))
    (file_group dir) ([], 0).

(** Lines 192-199: one file copied to the output; the state is the strings
    written so far, [first_non_empty] and [num_picks]. *)
Definition copy_into (st : list string * bool * nat) (f : file)
  : list string * bool * nat :=
  let '(out, first_non_empty, num_picks) := st in
  let lines := snd f in
  let '(out, first_non_empty) :=
    match lines with
    | h :: _ => if first_non_empty then (out ++ [h], false) else (out, first_non_empty)
    | [] => (out, first_non_empty)
    end in
  (out ++ tl lines, first_non_empty, num_picks + (List.length lines - 1)).

(** [merge_seismic_picks]: the strings written to the merged file, in
    order, and the counter. *)
Definition merge_seismic_picks (dir : list file) : list string * nat :=
  let csv_files := sorted_files (filter (fun f => glob_csv (fst f)) dir) in
  let '(out, _, num_picks) := fold_left copy_into csv_files ([], true, 0) in
  (out, num_picks).

(** Files are opened in text mode: on reading, a carriage return, alone or
    followed by a newline, becomes a newline. *)
Definition newline : ascii := "010"%char.

Definition carriage_return : ascii := "013"%char.

Fixpoint translate_newlines (content : string) : string :=
  match content with
  | EmptyString => EmptyString
  | String c r =>
      if Ascii.eqb c carriage_return
      then match r with
           | String c' r' =>
               if Ascii.eqb c' newline
               then String newline (translate_newlines r')
               else String newline (translate_newlines r)
           | EmptyString => String newline EmptyString
           end
      else String c (translate_newlines r)
  end.

(** [readlines]: the content cut after every newline. *)
Fixpoint readlines (content : string) : list string :=
  match content with
  | EmptyString => []
  | String c r =>
      if Ascii.eqb c newline then String c EmptyString :: readlines r
      else
        match readlines r with
        | [] => [String c EmptyString]
        | l :: ls => String c l :: ls
        end
  end.

(** A complete line: it ends with a newline and holds no other newline and
    no carriage return. *)
Fixpoint terminated (l : string) : bool :=
  match l with
  | EmptyString => false
  | String c r =>
      if Ascii.eqb c newline
      then match r with EmptyString => true | String _ _ => false end
      else if Ascii.eqb c carriage_return then false else terminated r
  end.

(** The lines that a later [readlines] finds in the file that
    [writelines(written)] leaves. *)
Definition file_lines (written : list string) : list string :=
  readlines (translate_newlines (String.concat EmptyString written)).

(** * Vocabulary of the specification *)

(** The positions of the window of output sample [t] for an odd kernel
    [2*pad + 1] and stride 1: the in-range part of [t - pad, t + pad]. *)
Definition in_window (nt pad t u : nat) : Prop :=
  t <= u + pad /\ u <= t + pad /\ u < nt.

(** [m] is the maximum of [f] over the window of [t]. *)
Definition window_max (f : nat -> Q) (nt pad t : nat) (m : Q) : Prop :=
  (exists u, in_window nt pad t u /\ (f u == m)%Q) /\
  (forall u, in_window nt pad t u -> (f u <= m)%Q).

(** The number of peaks [detect_peaks] asks for. *)
Definition effective_K (nt K : nat) : nat :=
  if K =? 0 then default_K nt else K.

(** The input channel behind output channel [c] of [detect_peaks]. *)
Definition source_channel (chn c : nat) : nat :=
  if chn =? 1 then c else S c.

(** The time series of one (batch, class, station) slice. *)
Definition series (x : tensor4 Q) (b c s : nat) : list Q :=
  map (fun t => at4 x b c t s) (range (dim2 x)).


(** The entries of the group (i, j, k) in the order [extract_picks] visits
    them: position in the sorted group, time index, score. *)
Definition sorted_group (topk_index : tensor4 nat) (topk_score : tensor4 Q)
           (i j k : nat) : list (nat * (nat * Q)) :=
  enumerate (map (fun n => (at4 topk_index i j k n, at4 topk_score i j k n))
                 (snd (torch_sort (row topk_index i j k)))).

(** The test [score > vmin] of line 118 for the arguments [kw]. *)
Definition above_vmin (kw : kwargs) (score : Q) : bool :=
  tensor_gt (kw_dtype kw) score (kw_vmin kw).

(** The entries of a group that pass it. *)
Definition above (kw : kwargs) (e : nat * (nat * Q)) : bool :=
  above_vmin kw (snd (snd e)).

(** The per-batch-element metadata of [extract_picks] as the specification
    names it: sample interval, time-index offset, channel-index offset,
    anchor timestamp, station identifier, nominal amplitude window. *)
Definition dt_of (kw : kwargs) (i : nat) : option Q :=
  match kw_dt kw with
  | DtFloat x => Some x
  | DtTensor l => nth_error l i
  end.

Definition begin_time_index_of (kw : kwargs) (i : nat) : option Z :=
  match kw_begin_time_index kw with
  | Some l => nth_error l i
  | None => Some 0%Z
  end.

Definition begin_channel_index_of (kw : kwargs) (i : nat) : option Z :=
  match kw_begin_channel_index kw with
  | Some l => nth_error l i
  | None => Some 0%Z
  end.

Definition anchor_of (kw : kwargs) (i : nat) : option Datetime.datetime :=
  b <- match kw_begin_time kw with
       | None => Some epoch
       | Some times =>
           b <- nth_error times i ;;
           Some (if String.length b =? 0 then epoch else b)
       end ;;
  Datetime.fromisoformat (rstrip_Z b).

Definition station_of (kw : kwargs) (i k : nat) : option string :=
  match kw_station_id kw with
  | None =>
      bci <- begin_channel_index_of kw i ;;
      Some (format_0d 4 (Z.of_nat k + bci))
  | Some names =>
      names_k <- nth_error names k ;;
      nth_error names_k i
  end.

(** The nominal length of the amplitude window, in samples. *)
Definition window_samples_of (kw : kwargs) (i j : nat) : option Z :=
  wa <- (if List.length (kw_window_amp kw) =? 1
         then (if j <? List.length (kw_phases kw)
               then nth_error (kw_window_amp kw) 0 else None)
         else nth_error (kw_window_amp kw) j) ;;
  dti <- dt_of kw i ;;
  q <- float_div wa dti ;;
  int_of_double q.

(** The amplitude window: from the peak's own index up to the nominal
    length, cut at the time index [next] if there is one. *)
Definition spec_window (index : nat) (samples : Z) (next : option nat) : Z * Z :=
  (Z.of_nat index,
   match next with
   | Some nx => Z.min (Z.of_nat index + samples) (Z.of_nat nx)
   | None => (Z.of_nat index + samples)%Z
   end).

(** The time index of the entry that follows position [ii] in a group. *)
Definition next_index (group : list (nat * (nat * Q))) (ii : nat) : option nat :=
  option_map (fun e => fst (snd e)) (nth_error group (S ii)).

(** The time index of the next peak after position [ii] in a group, as the
    specification reads it: the next entry whose score passes the test
    against [vmin]. *)
Definition next_peak (kw : kwargs) (group : list (nat * (nat * Q))) (ii : nat)
  : option nat :=
  option_map (fun e => fst (snd e)) (find (above kw) (skipn (S ii) group)).

(** The amplitude that the specification ascribes to the peak at position
    [ii] of a group: the maximum of the envelope over the window cut at the
    next peak. *)
Definition claimed_amplitude (kw : kwargs) (w : tensor4 Q)
           (group : list (nat * (nat * Q))) (i j k ii index : nat)
  : option string :=
  amp <- max_abs_dim1 w ;;
  samples <- window_samples_of kw i j ;;
  win <- slice3 amp i
                (fst (spec_window index samples (next_peak kw group ii)))
                (snd (spec_window index samples (next_peak kw group ii))) k ;;
  m <- max_list win ;;
  Some (format_3e m).

(** [pick_of kw group i j k e p]: [p] is the pick that the code produces
    for entry [e] of the sorted group (i, j, k). *)
Record pick_of (kw : kwargs) (group : list (nat * (nat * Q))) (i j k : nat)
       (e : nat * (nat * Q)) (p : pick) : Prop := PickOf {
  po_index :
    exists bti, begin_time_index_of kw i = Some bti /\
                phase_index p = (Z.of_nat (fst (snd e)) + bti)%Z;
  po_time :
    exists anchor dti t,
      anchor_of kw i = Some anchor /\ dt_of kw i = Some dti /\
      Datetime.add anchor
        (Datetime.timedelta_seconds (inject_Z (Z.of_nat (fst (snd e))) * dti))
        = Some t /\
      phase_time p = Datetime.isoformat_ms t;
  po_score : phase_score p = format_3f (snd (snd e));
  po_type : nth_error (kw_phases kw) j = Some (phase_type p);
  po_station : station_of kw i k = Some (station_id p);
  po_polarity :
    match kw_polarity_score kw with
    | None => phase_polarity p = None
    | Some pol =>
        phase_polarity p = Some (format_3f (at4 pol i 0 (fst (snd e)) k))
    end;
  po_amplitude :
    match kw_waveform kw with
    | None => phase_amplitude p = None
    | Some w =>
        exists amp samples win m,
          max_abs_dim1 w = Some amp /\
          window_samples_of kw i j = Some samples /\
          slice3 amp i
                 (fst (spec_window (fst (snd e)) samples (next_index group (fst e))))
                 (snd (spec_window (fst (snd e)) samples (next_index group (fst e))))
                 k = Some win /\
          max_list win = Some m /\
          phase_amplitude p = Some (format_3e m)
    end
}.

(** The picks [gs] of the stations of class-channel [j] of batch element
    [i]: one list per station, holding in the order of the sorted group one
    pick for each entry whose score passes the test against [vmin]. *)
Definition groups_ok (topk_index : tensor4 nat) (topk_score : tensor4 Q)
           (kw : kwargs) (i j : nat) (gs : list (list pick)) : Prop :=
  List.length gs = dim2 topk_score /\
  forall k g, nth_error gs k = Some g ->
    k < dim2 topk_score /\
    Forall2 (pick_of kw (sorted_group topk_index topk_score i j k) i j k)
            (filter (above kw) (sorted_group topk_index topk_score i j k))
            g.

(** The number of peaks of batch element [i] whose score passes the test
    [score > vmin] of line 118. *)
Definition peaks_above (kw : kwargs) (topk_index : tensor4 nat)
           (topk_score : tensor4 Q) (i : nat) : nat :=
  list_sum
    (map (fun j =>
            list_sum
              (map (fun k =>
                      List.length
                        (filter (fun n => above_vmin kw (at4 topk_score i j k n))
                                (range (dim3 topk_index))))
                   (range (dim2 topk_score))))
         (range (dim1 topk_score))).

(** The number of peaks of batch element [i] whose score is greater than
    [vmin] as a number. *)
Definition peaks_exceeding (vmin : Q) (topk_index : tensor4 nat)
           (topk_score : tensor4 Q) (i : nat) : nat :=
  list_sum
    (map (fun j =>
            list_sum
              (map (fun k =>
                      List.length
                        (filter (fun n => Qltb vmin (at4 topk_score i j k n))
                                (range (dim3 topk_index))))
                   (range (dim2 topk_score))))
         (range (dim1 topk_score))).

(** The header of a merge: the first line of the first file, in the given
    order, that has at least one line. *)
Definition header_of (files : list file) : list string :=
  match find (fun f => match snd f with [] => false | _ :: _ => true end) files with
  | Some f => firstn 1 (snd f)
  | None => []
  end.

(** The data rows of a merge: the lines after the first of every file. *)
Definition data_rows (files : list file) : list string :=
  concat (map (fun f => tl (snd f)) files).

(** Files in ascending order of their names. *)
Definition name_sorted (files : list file) : Prop :=
  Sorted (fun a b => String.leb (fst a) (fst b) = true) files.

(** What [merge_das_picks] writes for a group. *)
Definition merged_file (g : string * list file) : file :=
  ((fst g ++ ".csv")%string, merge_group (snd g)).

(** The header as the claim about header selection words it: the first
    line of the first file that has at least one data row. *)
Definition header_of_first_with_data (files : list file) : list string :=
  match find (fun f => 2 <=? List.length (snd f)) files with
  | Some f => firstn 1 (snd f)
  | None => []
  end.

(** * Concrete inputs used by the examples *)

(** One slice with a three-sample plateau: 0.2, 0.9, 0.9, 0.9, 0.1. *)
Definition plateau5 : tensor4 Q :=
  Tensor4 1 1 5 1
          (fun _ _ t _ => nth t [2 # 10; 9 # 10; 9 # 10; 9 # 10; 1 # 10]%Q 0%Q).

(** One slice: 0.5, 0.9, 0.5. *)
Definition spike3 : tensor4 Q :=
  Tensor4 1 1 3 1 (fun _ _ t _ => nth t [1 # 2; 9 # 10; 1 # 2]%Q 0%Q).

(** The end-to-end scenario: shape (1, 2, 300, 1), zero except for 0.95 at
    time index 150 of channel 1. *)
Definition impulse300 : tensor4 Q :=
  Tensor4 1 2 300 1
          (fun _ c t _ => if (c =? 1) && (t =? 150) then 95 # 100 else 0)%Q.

(** Two stations with one peak each: time index 50 at station 0 and time
    index 10 at station 1, both with score 0.9. *)
Definition two_stations_index : tensor4 nat :=
  Tensor4 1 1 2 1 (fun _ _ k _ => if k =? 0 then 50 else 10).

Definition two_stations_score : tensor4 Q :=
  Tensor4 1 1 2 1 (fun _ _ _ _ => 9 # 10).

(** One peak at time index 7 whose score is the float32 number nearest to
    0.3, which is slightly greater than 0.3. *)
Definition boundary_index : tensor4 nat :=
  Tensor4 1 1 1 1 (fun _ _ _ _ => 7).

Definition boundary_score : tensor4 Q :=
  Tensor4 1 1 1 1 (fun _ _ _ _ => 5033165 # 16777216).

(** One group with two peaks 8 samples apart, at time indices 100 and 108
    (returned in the order 108, 100), and a waveform whose envelope is 1
    before sample 108 and 5 from there on; 0.1 s at 0.01 s per sample is a
    nominal amplitude window of 10 samples. *)
Definition close_pair_index : tensor4 nat :=
  Tensor4 1 1 1 2 (fun _ _ _ n => if n =? 0 then 108 else 100).

Definition close_pair_score : tensor4 Q :=
  Tensor4 1 1 1 2 (fun _ _ _ n => if n =? 0 then 8 # 10 else 9 # 10).

(** The same two entries when only the one at 100 is a peak: the entry at
    108 is one of the zero-score entries that fill a group of [detect_peaks]
    with fewer than [K] peaks. *)
Definition filler_score : tensor4 Q :=
  Tensor4 1 1 1 2 (fun _ _ _ n => if n =? 0 then 0%Q else 9 # 10).

Definition step_waveform : tensor4 Q :=
  Tensor4 1 1 200 1 (fun _ _ t _ => if t <? 108 then 1 else 5)%Q.

Definition close_pair_kwargs : kwargs :=
  Kwargs None None None ["P"; "S"]%string (3 # 10) (DtFloat (1 # 100))
         None (Some step_waveform) [1 # 10; 1 # 20]%Q None None Float32.

(** A group of one file with a header and ten data rows, and one with a
    header and nine data rows. *)
Definition ten_rows : list file :=
  [("ev_0_0.csv", "header" :: map (fun n => format_0d 2 (Z.of_nat n)) (range 10))]%string.

Definition nine_rows : list file :=
  [("ev_0_0.csv", "header" :: map (fun n => format_0d 2 (Z.of_nat n)) (range 9))]%string.

(** A header-only file that sorts before a file with a different header and
    one data row. *)
Definition header_only_first : list file :=
  [("ev_0_1.csv", ["h2"; "row"]); ("ev_0_0.csv", ["h1"])]%string.

(** The keyword arguments of the end-to-end scenario and its pick. *)
Definition impulse_kwargs_of (d : dtype) : kwargs :=
  Kwargs None (Some ["2024-01-01T00:00:00.000"%string]) None
         ["P"; "S"]%string (1 # 2) (DtFloat (1 # 100)) None None
         [10; 5]%Q None None d.

Definition impulse_kwargs : kwargs := impulse_kwargs_of Float32.

Definition impulse_pick : pick :=
  Pick "0000" 150 "2024-01-01T00:00:01.500" "0.950" "P" None None.



(** * The callers of the post-processing functions

    [app.predict], [pred_phasenet], [pred_phasenet_das]: the scores are
    passed to [detect_peaks] with kernel 21 and the default stride and K,
    and its result to [extract_picks] with the same [vmin]. *)

Section Predict.

Variable tk : topk_fn.

Definition predict_picks (scores : tensor4 Q) (kw : kwargs)
  : option (list (list pick)) :=
  '(topk_scores, topk_inds) <- detect_peaks tk scores (kw_vmin kw) 21 1 0 ;;
  extract_picks topk_inds topk_scores kw.

End Predict.

(** The two components of a result of [detect_peaks]. *)
Definition peaks_scores (r : option (tensor4 Q * tensor4 nat)) : tensor4 Q :=
  match r with
  | Some (topk_scores, _) => topk_scores
  | None => Tensor4 0 0 0 0 (fun _ _ _ _ => 0%Q)
  end.

Definition peaks_inds (r : option (tensor4 Q * tensor4 nat)) : tensor4 nat :=
  match r with
  | Some (_, topk_inds) => topk_inds
  | None => Tensor4 0 0 0 0 (fun _ _ _ _ => 0)
  end.

(** The number of samples of a slice whose score passes the test
    [score > vmin] of [extract_picks]. *)
Definition slice_above (kw : kwargs) (x : tensor4 Q) (b c s : nat) : nat :=
  List.length (filter (fun t => above_vmin kw (at4 x b c t s)) (range (dim2 x))).

(** The number of class-channels of the result of [detect_peaks]. *)
Definition peak_channels (chn : nat) : nat := if chn =? 1 then 1 else chn - 1.


(** Three class channels with one peak each, at time index 5 with score
    0.9: one channel more than the default phase labels. *)
Definition three_class_index : tensor4 nat :=
  Tensor4 1 3 1 1 (fun _ _ _ _ => 5).

Definition three_class_score : tensor4 Q :=
  Tensor4 1 3 1 1 (fun _ _ _ _ => 9 # 10).

(** The files that [merge_das_picks] and [merge_seismic_picks] read. *)
Definition das_inputs (dir : list file) : list file :=
  filter (fun f => glob_das (fst f)) dir.

Definition csv_inputs (dir : list file) : list file :=
  filter (fun f => glob_csv (fst f)) dir.

(** Two station files whose lines all end with a newline, and the same two
    when the last line of the first lacks it. *)
Definition line (s : string) : string := (s ++ String newline EmptyString)%string.

Definition station_files : list file :=
  [("a.csv", [line "h"; line "a1"; line "a2"]);
   ("b.csv", [line "h"; line "b1"])]%string.

Definition unterminated_files : list file :=
  [("a.csv", [line "h"; line "a1"; "a2"]);
   ("b.csv", [line "h"; line "b1"])]%string.

(** A file with at least one line. *)
Definition non_empty (f : file) : bool :=
  match snd f with [] => false | _ :: _ => true end.

(** The key under which [merge_das_picks] groups a file. *)
Definition event_id (f : file) : string := split_first (stem (fst f)).

(** The files of a listing that belong to event [k], in listing order. *)
Definition event_files (k : string) (l : list file) : list file :=
  filter (fun f => String.eqb (event_id f) k) l.

(** Two listings of the same directory. *)
Definition listing_a : list file :=
  [("ev1_0_0.csv", ["h"; "a"]); ("ev2_0_0.csv", ["h"; "b"]);
   ("ev1_0_1.csv", ["h"; "c"]); ("notes.csv", ["h"; "d"])]%string.

Definition listing_b : list file :=
  [("notes.csv", ["h"; "d"]); ("ev1_0_1.csv", ["h"; "c"]);
   ("ev2_0_0.csv", ["h"; "b"]); ("ev1_0_0.csv", ["h"; "a"])]%string.

(** Lines 161-163 on the files that matched the pattern. *)
Definition group_files (l : list file) : list (string * list file) :=
  fold_left (fun g f => group_append (event_id f) f g) l [].

(** The keys of an insertion-ordered dictionary after one more key. *)
Definition keys_add (key : string) (ks : list string) : list string :=
  if existsb (String.eqb key) ks then ks else ks ++ [key].

(** The event ids of a directory, in the order [merge_das_picks] visits
    them, and the merged lines of one event. *)
Definition event_keys (dir : list file) : list string :=
  map fst (file_group dir).

Definition merged_event (k : string) (dir : list file) : list string :=
  merge_group (event_files k (das_inputs dir)).

(** A call that passes only the phase labels, the threshold, a float
    sample interval and the amplitude windows. *)
Definition plain_kwargs (phases : list string) (vmin dt : Q) (window_amp : list Q)
  : kwargs :=
  Kwargs None None None phases vmin (DtFloat dt) None None window_amp None None
         Float32.

(** The anchor of a call without [begin_time]. *)
Definition epoch_datetime : Datetime.datetime :=
  Datetime.Build 1970 1 1 0 0 0 0.

(** The pick of an entry at time index [index] with score [score], for a
    call without optional arguments. *)
Definition plain_pick (phases : list string) (dt : Q) (j k : nat)
           (e : nat * (nat * Q)) : pick :=
  let t :=
    match Datetime.add epoch_datetime
            (Datetime.timedelta_seconds (inject_Z (Z.of_nat (fst (snd e))) * dt)) with
    | Some t => t
    | None => epoch_datetime
    end in
  Pick (format_0d 4 (Z.of_nat k + 0)) (Z.of_nat (fst (snd e)) + 0)
       (Datetime.isoformat_ms t) (format_3f (snd (snd e)))
       (nth j phases EmptyString) None None.

(** The scores after the suppression step of the callers (kernel 21). *)
Definition suppressed (scores : tensor4 Q) : tensor4 Q :=
  match nms scores 21 1 with
  | Some out => out
  | None => scores
  end.

(** * Properties *)

(** ** The error monad *)

Lemma bind_Some {A B : Type} (m : option A) (k : A -> option B) (b : B) :
  bind m k = Some b -> exists a, m = Some a /\ k a = Some b.
Proof.
  destruct m as [a|]; simpl; intros H; [exists a; auto | discriminate].
Qed.

Lemma guard_Some (b : bool) (u : unit) : guard b = Some u -> b = true.
Proof. destruct b; simpl; [reflexivity | discriminate]. Qed.

Ltac inv_bind H :=
  repeat match type of H with
         | bind (guard _) _ = Some _ =>
             let u := fresh "u" in
             let G := fresh "G" in
             let H' := fresh "H" in
             apply bind_Some in H; destruct H as (u & G & H');
             apply guard_Some in G; clear u; rename H' into H
         | bind _ _ = Some _ =>
             let a := fresh "a" in
             let E := fresh "E" in
             let H' := fresh "H" in
             apply bind_Some in H; destruct H as (a & E & H'); rename H' into H
         end.

Lemma mapM_Forall2 {A B : Type} (f : A -> option B) (l : list A) (r : list B) :
  mapM f l = Some r -> Forall2 (fun a b => f a = Some b) l r.
Proof.
  revert r; induction l as [|a l IH]; simpl; intros r H.
  - injection H as <-; constructor.
  - inv_bind H. injection H as <-. constructor; auto.
Qed.

Lemma mapM_length {A B : Type} (f : A -> option B) (l : list A) (r : list B) :
  mapM f l = Some r -> List.length r = List.length l.
Proof.
  intros H; apply mapM_Forall2 in H. symmetry; eapply Forall2_length; eauto.
Qed.

Lemma mapM_total {A B : Type} (f : A -> option B) (l : list A) :
  (forall a, In a l -> exists b, f a = Some b) -> exists r, mapM f l = Some r.
Proof.
  induction l as [|a l IH]; simpl; intros H.
  - eexists; reflexivity.
  - destruct (H a (or_introl eq_refl)) as (b & Hb).
    destruct IH as (r & Hr); [intros; apply H; auto|].
    rewrite Hb, Hr; simpl. eexists; reflexivity.
Qed.

(** ** Floating-point rounding *)

Lemma round_half_even_bounds (q : Q) :
  (Qfloor q <= round_half_even q <= Qfloor q + 1)%Z.
Proof.
  unfold round_half_even.
  destruct (q - inject_Z (Qfloor q) ?= 1 # 2)%Q; [destruct (Z.even (Qfloor q))| |]; lia.
Qed.

Lemma round_half_even_mono (a b : Q) :
  (a <= b)%Q -> (round_half_even a <= round_half_even b)%Z.
Proof.
  intros Hab. pose proof (Qfloor_resp_le _ _ Hab) as Hf.
  destruct (Z.eq_dec (Qfloor a) (Qfloor b)) as [E|NE].
  - unfold round_half_even. rewrite E.
    destruct (a - inject_Z (Qfloor b) ?= 1 # 2)%Q eqn:Ca;
      destruct (b - inject_Z (Qfloor b) ?= 1 # 2)%Q eqn:Cb;
      first [apply Qeq_alt in Ca | apply Qlt_alt in Ca | apply Qgt_alt in Ca];
      first [apply Qeq_alt in Cb | apply Qlt_alt in Cb | apply Qgt_alt in Cb];
      try (destruct (Z.even (Qfloor b)); lia); try lia;
      exfalso; lra.
  - pose proof (round_half_even_bounds a). pose proof (round_half_even_bounds b). lia.
Qed.

Lemma round_half_even_Z (n : Z) : round_half_even (inject_Z n) = n.
Proof.
  unfold round_half_even. rewrite Qfloor_Z.
  assert (H : (inject_Z n - inject_Z n ?= 1 # 2)%Q = Lt)
    by (rewrite <- Qlt_alt; unfold Qlt, Qminus, Qplus, Qopp, inject_Z; simpl; lia).
  now rewrite H.
Qed.

Lemma pow2_pos (e : Z) : (0 < pow2 e)%Q.
Proof. apply Qpower_0_lt. reflexivity. Qed.

Lemma pow2_le (a b : Z) : (a <= b)%Z -> (pow2 a <= pow2 b)%Q.
Proof. intros H. apply Qpower_le_compat_l; [exact H | discriminate]. Qed.

Lemma pow2_lt_inv (a b : Z) : (pow2 a < pow2 b)%Q -> (a < b)%Z.
Proof. intros H. apply (Qpower_lt_compat_l_inv 2); [exact H | reflexivity]. Qed.

Lemma pow2_Z (n : Z) : (0 <= n)%Z -> (pow2 n == inject_Z (2 ^ n))%Q.
Proof. intros H. unfold pow2. now rewrite Zpower_Qpower. Qed.

Lemma pow2_sub (a b : Z) : (pow2 (a - b) == pow2 a / pow2 b)%Q.
Proof. unfold pow2. apply Qpower_minus. discriminate. Qed.

Lemma pow2_add (a b : Z) : (pow2 (a + b) == pow2 a * pow2 b)%Q.
Proof. unfold pow2. apply Qpower_plus. discriminate. Qed.

Lemma Qlog2_spec (q : Q) :
  (0 < q)%Q -> (pow2 (Qlog2 q) <= q)%Q /\ (q < pow2 (Qlog2 q + 1))%Q.
Proof.
  intros Hq. destruct q as [n d].
  assert (Hn : (0 < n)%Z) by (unfold Qlt in Hq; simpl in Hq; lia).
  destruct (Z.log2_spec n Hn) as (Ha1 & Ha2).
  destruct (Z.log2_spec (Zpos d) (Pos2Z.is_pos d)) as (Hb1 & Hb2).
  pose proof (Z.log2_nonneg n) as Ha0.
  pose proof (Z.log2_nonneg (Zpos d)) as Hb0.
  unfold Qlog2. cbn [Qnum Qden].
  set (a := Z.log2 n) in *. set (b := Z.log2 (Zpos d)) in *.
  assert (P1 : (0 < 2 ^ a)%Z) by (apply Z.pow_pos_nonneg; lia).
  assert (P2 : (0 < 2 ^ b)%Z) by (apply Z.pow_pos_nonneg; lia).
  rewrite !Z.pow_succ_r in * by lia.
  destruct (Qle_bool (pow2 (a - b)) (n # d)) eqn:E.
  - apply Qle_bool_iff in E. split; [exact E|].
    replace (a - b + 1)%Z with ((a + 1) - b)%Z by lia.
    rewrite pow2_sub, !pow2_Z by lia.
    apply Qlt_shift_div_l; [unfold Qlt; simpl; lia|].
    rewrite Z.pow_add_r, Z.pow_1_r by lia.
    unfold Qlt, Qmult, inject_Z. simpl. nia.
  - assert (Hlt : (n # d < pow2 (a - b))%Q).
    { apply Qnot_le_lt. intros H. apply Qle_bool_iff in H. congruence. }
    split.
    + replace (a - b - 1)%Z with (a - (b + 1))%Z by lia.
      rewrite pow2_sub, !pow2_Z by lia.
      apply Qle_shift_div_r; [unfold Qlt; simpl; lia|].
      rewrite Z.pow_add_r, Z.pow_1_r by lia.
      unfold Qle, Qmult, inject_Z. simpl. nia.
    + replace (a - b - 1 + 1)%Z with (a - b)%Z by lia. exact Hlt.
Qed.

Lemma Qlog2_mono (x y : Q) :
  (0 < x)%Q -> (x <= y)%Q -> (Qlog2 x <= Qlog2 y)%Z.
Proof.
  intros Hx Hxy.
  destruct (Qlog2_spec x Hx) as (Lx & _).
  destruct (Qlog2_spec y) as (_ & Uy); [lra|].
  assert (H : (pow2 (Qlog2 x) < pow2 (Qlog2 y + 1))%Q) by lra.
  apply pow2_lt_inv in H. lia.
Qed.

Section Rounding.

Variable prec emin : Z.
Hypothesis prec_pos : (1 <= prec)%Z.

(** Rounding on the grid of step [u] keeps the order with grid points. *)
Lemma grid_round_ge (u x : Q) (n : Z) :
  (0 < u)%Q -> (inject_Z n * u <= x)%Q ->
  (inject_Z n * u <= inject_Z (round_half_even (x / u)) * u)%Q.
Proof.
  intros Hu H. apply Qmult_le_compat_r; [|lra].
  rewrite <- Zle_Qle.
  apply Z.le_trans with (round_half_even (inject_Z n));
    [rewrite round_half_even_Z; apply Z.le_refl|].
  apply round_half_even_mono. now apply Qle_shift_div_l.
Qed.

Lemma grid_round_le (u x : Q) (n : Z) :
  (0 < u)%Q -> (x <= inject_Z n * u)%Q ->
  (inject_Z (round_half_even (x / u)) * u <= inject_Z n * u)%Q.
Proof.
  intros Hu H. apply Qmult_le_compat_r; [|lra].
  rewrite <- Zle_Qle.
  apply Z.le_trans with (round_half_even (inject_Z n));
    [|rewrite round_half_even_Z; apply Z.le_refl].
  apply round_half_even_mono. now apply Qle_shift_div_r.
Qed.

Lemma round_to_unfold (q : Q) :
  round_to prec emin q
  = (inject_Z (round_half_even (q / pow2 (exponent emin q - prec + 1)))
     * pow2 (exponent emin q - prec + 1))%Q.
Proof. reflexivity. Qed.

Lemma pow2_grid (E : Z) :
  (pow2 E == inject_Z (2 ^ (prec - 1)) * pow2 (E - prec + 1))%Q.
Proof.
  rewrite <- pow2_Z by lia. rewrite <- pow2_add. 
  replace (prec - 1 + (E - prec + 1))%Z with E by lia. reflexivity.
Qed.

Lemma pow2_grid_succ (E : Z) :
  (pow2 (E + 1) == inject_Z (2 ^ prec) * pow2 (E - prec + 1))%Q.
Proof.
  rewrite <- pow2_Z by lia. rewrite <- pow2_add.
  replace (prec + (E - prec + 1))%Z with (E + 1)%Z by lia. reflexivity.
Qed.

Lemma round_to_nonneg (q : Q) : (0 <= q)%Q -> (0 <= round_to prec emin q)%Q.
Proof.
  intros H. rewrite round_to_unfold.
  pose proof (grid_round_ge (pow2 (exponent emin q - prec + 1)) q 0 (pow2_pos _)) as G.
  change (inject_Z 0) with 0%Q in G. rewrite Qmult_0_l in G. now apply G.
Qed.

Lemma round_to_nonpos (q : Q) : (q <= 0)%Q -> (round_to prec emin q <= 0)%Q.
Proof.
  intros H. rewrite round_to_unfold.
  pose proof (grid_round_le (pow2 (exponent emin q - prec + 1)) q 0 (pow2_pos _)) as G.
  change (inject_Z 0) with 0%Q in G. rewrite Qmult_0_l in G. now apply G.
Qed.

Lemma exponent_upper (q : Q) :
  ~ (q == 0)%Q -> (Qabs q < pow2 (exponent emin q + 1))%Q.
Proof.
  intros Hq.
  assert (H0 : (0 < Qabs q)%Q).
  { destruct (Qlt_le_dec 0 q) as [H|H].
    - rewrite Qabs_pos; lra.
    - apply Qle_lteq in H as [H|H]; [|contradiction].
      rewrite Qabs_neg; lra. }
  destruct (Qlog2_spec _ H0) as (_ & U).
  eapply Qlt_le_trans; [exact U|]. apply pow2_le. unfold exponent. lia.
Qed.

Lemma exponent_lower (q : Q) :
  (0 < Qabs q)%Q -> (emin < exponent emin q)%Z -> (pow2 (exponent emin q) <= Qabs q)%Q.
Proof.
  intros H0 He. destruct (Qlog2_spec _ H0) as (L & _).
  unfold exponent in *. replace (Z.max (Qlog2 (Qabs q)) emin) with (Qlog2 (Qabs q)) by lia.
  exact L.
Qed.

Lemma exponent_mono (x y : Q) :
  (0 < Qabs x)%Q -> (Qabs x <= Qabs y)%Q -> (exponent emin x <= exponent emin y)%Z.
Proof.
  intros H0 H. pose proof (Qlog2_mono _ _ H0 H). unfold exponent. lia.
Qed.

Lemma round_to_mono_pos (a b : Q) :
  (0 < a)%Q -> (a <= b)%Q -> (round_to prec emin a <= round_to prec emin b)%Q.
Proof.
  intros Ha Hab.
  assert (Aa : (Qabs a == a)%Q) by (apply Qabs_pos; lra).
  assert (Ab : (Qabs b == b)%Q) by (apply Qabs_pos; lra).
  assert (He : (exponent emin a <= exponent emin b)%Z) by (apply exponent_mono; lra).
  rewrite !round_to_unfold.
  destruct (Z.eq_dec (exponent emin a) (exponent emin b)) as [E|NE].
  - rewrite E. apply Qmult_le_compat_r; [|pose proof (pow2_pos (exponent emin b - prec + 1)); lra].
    rewrite <- Zle_Qle. apply round_half_even_mono.
    apply Qmult_le_compat_r; [exact Hab|].
    apply Qlt_le_weak, Qinv_lt_0_compat, pow2_pos.
  - assert (Ua : (a <= pow2 (exponent emin a + 1))%Q).
    { assert (Na : ~ (a == 0)%Q) by lra.
      pose proof (exponent_upper a Na). lra. }
    assert (Lb : (pow2 (exponent emin b) <= b)%Q).
    { assert (Pb : (0 < Qabs b)%Q) by lra.
      assert (Eb : (emin < exponent emin b)%Z) by (unfold exponent in *; lia).
      pose proof (exponent_lower b Pb Eb). lra. }
    rewrite pow2_grid_succ in Ua. rewrite pow2_grid in Lb.
    pose proof (grid_round_le _ _ _ (pow2_pos _) Ua) as G1.
    pose proof (grid_round_ge _ _ _ (pow2_pos _) Lb) as G2.
    rewrite <- pow2_grid_succ in G1. rewrite <- pow2_grid in G2.
    assert (pow2 (exponent emin a + 1) <= pow2 (exponent emin b))%Q by (apply pow2_le; lia).
    lra.
Qed.

Lemma round_to_mono_neg (a b : Q) :
  (b < 0)%Q -> (a <= b)%Q -> (round_to prec emin a <= round_to prec emin b)%Q.
Proof.
  intros Hb Hab.
  assert (Aa : (Qabs a == - a)%Q) by (apply Qabs_neg; lra).
  assert (Ab : (Qabs b == - b)%Q) by (apply Qabs_neg; lra).
  assert (He : (exponent emin b <= exponent emin a)%Z) by (apply exponent_mono; lra).
  rewrite !round_to_unfold.
  destruct (Z.eq_dec (exponent emin a) (exponent emin b)) as [E|NE].
  - rewrite E. apply Qmult_le_compat_r; [|pose proof (pow2_pos (exponent emin b - prec + 1)); lra].
    rewrite <- Zle_Qle. apply round_half_even_mono.
    apply Qmult_le_compat_r; [exact Hab|].
    apply Qlt_le_weak, Qinv_lt_0_compat, pow2_pos.
  - assert (Ub : (- pow2 (exponent emin b + 1) <= b)%Q).
    { assert (Nb : ~ (b == 0)%Q) by lra.
      pose proof (exponent_upper b Nb). lra. }
    assert (La : (a <= - pow2 (exponent emin a))%Q).
    { assert (Pa : (0 < Qabs a)%Q) by lra.
      assert (Ea : (emin < exponent emin a)%Z) by (unfold exponent in *; lia).
      pose proof (exponent_lower a Pa Ea). lra. }
    assert (Ub' : (inject_Z (- 2 ^ prec) * pow2 (exponent emin b - prec + 1) <= b)%Q).
    { rewrite inject_Z_opp. pose proof (pow2_grid_succ (exponent emin b)). lra. }
    assert (La' : (a <= inject_Z (- 2 ^ (prec - 1)) * pow2 (exponent emin a - prec + 1))%Q).
    { rewrite inject_Z_opp. pose proof (pow2_grid (exponent emin a)). lra. }
    pose proof (grid_round_le _ _ _ (pow2_pos _) La') as G1.
    pose proof (grid_round_ge _ _ _ (pow2_pos _) Ub') as G2.
    rewrite inject_Z_opp in G1, G2.
    pose proof (pow2_grid_succ (exponent emin b)). pose proof (pow2_grid (exponent emin a)).
    assert (pow2 (exponent emin b + 1) <= pow2 (exponent emin a))%Q by (apply pow2_le; lia).
    lra.
Qed.

Lemma round_to_mono (a b : Q) :
  (a <= b)%Q -> (round_to prec emin a <= round_to prec emin b)%Q.
Proof.
  intros Hab.
  destruct (Qlt_le_dec 0 a) as [Ha|Ha]; [now apply round_to_mono_pos|].
  destruct (Qlt_le_dec b 0) as [Hb|Hb]; [now apply round_to_mono_neg|].
  pose proof (round_to_nonpos a Ha). pose proof (round_to_nonneg b Hb). lra.
Qed.

End Rounding.

Lemma to_dtype_mono (d : dtype) (a b : Q) :
  (a <= b)%Q -> (to_dtype d a <= to_dtype d b)%Q.
Proof. intros H. destruct d; apply round_to_mono; (lia || exact H). Qed.

Lemma scalar_to_mono (d : dtype) (a b : Q) :
  (a <= b)%Q -> (scalar_to d a <= scalar_to d b)%Q.
Proof.
  intros H. unfold scalar_to, float64.
  apply to_dtype_mono, round_to_mono; (lia || exact H).
Qed.

Lemma round_to_zero (prec emin : Z) (q : Q) :
  (q == 0)%Q -> (round_to prec emin q == 0)%Q.
Proof.
  intros Hq. apply Qle_antisym.
  - apply round_to_nonpos. lra.
  - apply round_to_nonneg. lra.
Qed.

(** A score that passes the test of line 118 exceeds [vmin]: rounding to
    the element type of the tensor keeps the order. *)
Lemma above_vmin_lt (kw : kwargs) (score : Q) :
  above_vmin kw score = true -> (kw_vmin kw < score)%Q.
Proof.
  unfold above_vmin, tensor_gt, Qltb. rewrite negb_true_iff. intros H.
  apply Qnot_le_lt. intros Hle.
  apply (scalar_to_mono (kw_dtype kw)) in Hle.
  apply Qle_bool_iff in Hle. congruence.
Qed.

(** The test is monotone in the score. *)
Lemma above_vmin_mono (kw : kwargs) (a b : Q) :
  above_vmin kw a = true -> (a <= b)%Q -> above_vmin kw b = true.
Proof.
  unfold above_vmin, tensor_gt, Qltb. rewrite !negb_true_iff. intros H Hab.
  apply (scalar_to_mono (kw_dtype kw)) in Hab.
  destruct (Qle_bool (scalar_to (kw_dtype kw) b) (scalar_to (kw_dtype kw) (kw_vmin kw))) eqn:E;
    [|reflexivity].
  apply Qle_bool_iff in E.
  assert (Hle : (scalar_to (kw_dtype kw) a <= scalar_to (kw_dtype kw) (kw_vmin kw))%Q) by lra.
  apply Qle_bool_iff in Hle. congruence.
Qed.

(** ** Suppression: the windowed maximum *)

Lemma qmax_cases (a b : Q) :
  (qmax a b = a /\ (b <= a)%Q) \/ (qmax a b = b /\ (a <= b)%Q).
Proof.
  unfold qmax. destruct (Qle_bool a b) eqn:E.
  - right; split; [reflexivity | now apply Qle_bool_iff].
  - left; split; [reflexivity|].
    destruct (Qlt_le_dec b a) as [L|L]; [now apply Qlt_le_weak|].
    apply Qle_bool_iff in L; congruence.
Qed.

(** Folding [xmax] over a non-empty list of positions yields a finite
    value that is attained on the list and bounds every value on it. *)
Lemma fold_xmax_spec (f : nat -> Q) (l : list nat) (acc : xreal) :
  (l <> [] \/ acc <> NegInf) ->
  exists m, fold_left (fun a u => xmax a (f u)) l acc = Fin m /\
            (acc = Fin m \/ exists u, In u l /\ f u = m) /\
            (forall p, acc = Fin p -> (p <= m)%Q) /\
            (forall u, In u l -> (f u <= m)%Q).
Proof.
  revert acc; induction l as [|u l IH]; intros acc Hne.
  - destruct acc as [|p]; [destruct Hne; congruence|].
    exists p; simpl; repeat split; auto.
    + intros q [= ->]; apply Qle_refl.
    + intros ? [].
  - simpl. destruct (IH (xmax acc (f u))) as (m & Hm & Hatt & Hacc & Hall).
    { right; destruct acc; simpl; discriminate. }
    exists m; split; [exact Hm|].
    assert (Hu : (f u <= m)%Q).
    { destruct acc as [|p]; simpl in *.
      - apply Hacc; reflexivity.
      - destruct (qmax_cases p (f u)) as [[E L]|[E L]].
        + eapply Qle_trans; [exact L|]. apply Hacc; congruence.
        + apply Hacc; congruence. }
    repeat split.
    + destruct Hatt as [Hatt|(v & Hv & Ev)].
      * destruct acc as [|p]; simpl in Hatt.
        -- right; exists u; split; [now left | congruence].
        -- destruct (qmax_cases p (f u)) as [[E L]|[E L]]; rewrite E in Hatt.
           ++ left; exact Hatt.
           ++ right; exists u; split; [now left | congruence].
      * right; exists v; split; [now right | exact Ev].
    + intros p ->; simpl in Hacc.
      destruct (qmax_cases p (f u)) as [[E L]|[E L]].
      * apply Hacc; congruence.
      * eapply Qle_trans; [exact L|]. apply Hacc; congruence.
    + intros v [<-|Hv]; auto.
Qed.

Lemma window_positions_odd (nt pad t u : nat) :
  In u (window_positions nt (2 * pad + 1) pad t) <-> in_window nt pad t u.
Proof.
  unfold window_positions, in_window, range.
  rewrite filter_In, in_map_iff, Nat.ltb_lt. split.
  - intros ((d & <- & Hd) & Hlt). apply filter_In in Hd as (Hd & Hp).
    apply in_seq in Hd. apply Nat.leb_le in Hp. lia.
  - intros (H1 & H2 & H3). split; [|exact H3].
    exists (u + pad - t). split; [lia|].
    apply filter_In; split; [apply in_seq; lia | apply Nat.leb_le; lia].
Qed.

Lemma pool_at_odd (f : nat -> Q) (nt pad t : nat) :
  t < nt ->
  exists m, pool_at f nt (2 * pad + 1) pad t = Fin m /\ window_max f nt pad t m.
Proof.
  intros Ht. unfold pool_at.
  destruct (fold_xmax_spec f (window_positions nt (2 * pad + 1) pad t) NegInf)
    as (m & Hm & Hatt & _ & Hall).
  { left. intros E.
    assert (Hin : In t (window_positions nt (2 * pad + 1) pad t))
      by (apply window_positions_odd; unfold in_window; lia).
    rewrite E in Hin; exact Hin. }
  exists m; split; [exact Hm|]. split.
  - destruct Hatt as [Hatt|(u & Hu & Eu)]; [discriminate|].
    exists u; split; [now apply window_positions_odd | now rewrite Eu].
  - intros u Hu. apply Hall. now apply window_positions_odd.
Qed.

Lemma odd_kernel_pad (pad : nat) : (2 * pad + 1) / 2 = pad.
Proof. symmetry; apply Nat.div_unique with 1; lia. Qed.

(** With an odd kernel and stride 1 the pooled tensor has the time length of
    the input, and the keep mask compares each sample with the pooled value
    of its own window. *)
Lemma nms_keep_odd (scores : tensor4 Q) (pad : nat) :
  0 < dim1 scores -> 0 < dim2 scores -> 0 < dim3 scores ->
  nms_keep scores (2 * pad + 1) 1 =
  Some (Tensor4 (dim0 scores) (dim1 scores) (dim2 scores) (dim3 scores)
          (fun b c t s =>
             xeqb (pool_at (fun u => at4 scores b c u s) (dim2 scores)
                           (2 * pad + 1) pad (t * 1))
                  (at4 scores b c t s))).
Proof.
  intros H1 H2 H3. unfold nms_keep, max_pool2d_time.
  rewrite odd_kernel_pad.
  replace (0 <? 2 * pad + 1) with true by (symmetry; apply Nat.ltb_lt; lia).
  replace (0 <? 1) with true by reflexivity.
  rewrite Nat.leb_refl.
  replace (0 <? dim1 scores) with true by (symmetry; apply Nat.ltb_lt; lia).
  replace (0 <? dim2 scores) with true by (symmetry; apply Nat.ltb_lt; lia).
  replace (0 <? dim3 scores) with true by (symmetry; apply Nat.ltb_lt; lia).
  replace (2 * pad + 1 <=? dim2 scores + 2 * pad) with true
    by (symmetry; apply Nat.leb_le; lia).
  cbn [guard bind andb].
  unfold eq_broadcast, take_dim2. cbn [dim0 dim1 dim2 dim3 at4].
  rewrite Nat.div_1_r.
  replace (Nat.min (dim2 scores) (dim2 scores + 2 * pad - (2 * pad + 1) + 1))
    with (dim2 scores) by lia.
  rewrite Nat.eqb_refl. reflexivity.
Qed.

Lemma xeqb_window_max (f : nat -> Q) (nt pad t : nat) :
  t < nt ->
  xeqb (pool_at f nt (2 * pad + 1) pad (t * 1)) (f t) = true <->
  window_max f nt pad t (f t).
Proof.
  intros Ht. rewrite Nat.mul_1_r.
  destruct (pool_at_odd f nt pad t Ht) as (m & -> & (u & Hu & Eu) & Hall).
  simpl. rewrite Qeq_bool_iff.
  assert (Hin : in_window nt pad t t) by (unfold in_window; lia).
  split.
  - intros E. split.
    + exists t; split; [exact Hin | reflexivity].
    + intros v Hv. rewrite <- E. now apply Hall.
  - intros (_ & Hmax). apply Qle_antisym.
    + rewrite <- Eu. now apply Hmax.
    + now apply Hall.
Qed.

(** C1. Suppression correctness.  For an odd kernel [2*pad + 1] (so that
    [pad = kernel // 2]) and the default stride 1, the suppression pass of
    [detect_peaks] succeeds on every tensor with non-empty channel, time and
    station axes, and
    - a sample is kept exactly when its own score is the maximum of the
      scores over the positions [u] of the same (batch, class, station)
      slice with [t - pad <= u <= t + pad] and [0 <= u < nt]: only in-range
      neighbours count, nothing wraps around and no padding value enters
      the maximum;
    - a kept sample keeps its score and every other sample is set to 0;
    - ties are all kept: on a plateau of three equal samples that is a
      maximum of its neighbourhood, each of the three samples is kept. *)
Theorem detect_peaks_suppression (scores : tensor4 Q) (pad : nat) :
  0 < dim1 scores -> 0 < dim2 scores -> 0 < dim3 scores ->
  exists keep out,
    nms_keep scores (2 * pad + 1) 1 = Some keep /\
    nms scores (2 * pad + 1) 1 = Some out /\
    (forall b c t s, t < dim2 scores ->
       (at4 keep b c t s = true <->
        window_max (fun u => at4 scores b c u s) (dim2 scores) pad t
                   (at4 scores b c t s)) /\
       at4 out b c t s = (if at4 keep b c t s then at4 scores b c t s else 0%Q)) /\
    (forall b c t s, t + 2 < dim2 scores ->
       (at4 scores b c (t + 1) s == at4 scores b c t s)%Q ->
       (at4 scores b c (t + 2) s == at4 scores b c t s)%Q ->
       (forall u, t <= u + pad -> u <= t + 2 + pad -> u < dim2 scores ->
                  (at4 scores b c u s <= at4 scores b c t s)%Q) ->
       at4 keep b c t s = true /\ at4 keep b c (t + 1) s = true /\
       at4 keep b c (t + 2) s = true).
Proof.
  intros H1 H2 H3.
  pose proof (nms_keep_odd scores pad H1 H2 H3) as Hk.
  eexists; eexists. split; [exact Hk|]. split.
  { unfold nms. rewrite Hk. reflexivity. }
  split.
  - intros b c t s Ht. cbn [at4 mask]. split; [|reflexivity].
    apply (xeqb_window_max (fun u => at4 scores b c u s)); exact Ht.
  - intros b c t s Ht E1 E2 Hmax. cbn [at4].
    repeat split;
      apply (xeqb_window_max (fun u => at4 scores b c u s)); try lia;
      (split; [eexists; split; [|reflexivity]; unfold in_window; lia|]);
      intros u (Ha & Hb & Hc).
    + apply Hmax; lia.
    + rewrite E1. apply Hmax; lia.
    + rewrite E2. apply Hmax; lia.
Qed.

Lemma detect_peaks_suppression_witness :
  exists keep,
    nms_keep plateau5 3 1 = Some keep /\
    map (fun t => at4 keep 0 0 t 0) (range 5) = [false; true; true; true; false].
Proof.
  destruct (detect_peaks_suppression plateau5 1) as (keep & out & Hk & _ & _ & _);
    [simpl; lia | simpl; lia | simpl; lia |].
  exists keep. split; [exact Hk|].
  rewrite (nms_keep_odd plateau5 1) in Hk by (simpl; lia).
  injection Hk as <-. vm_compute. reflexivity.
Defined.

(** ** The shape of the result of [detect_peaks] *)

Lemma map_nth_range {A : Type} (l : list A) (d : A) :
  map (fun n => nth n l d) (range (List.length l)) = l.
Proof.
  unfold range. apply nth_ext with (d := d) (d' := d).
  - now rewrite length_map, length_seq.
  - intros n Hn. rewrite length_map, length_seq in Hn.
    rewrite (nth_indep _ d (nth 0 l d)) by now rewrite length_map, length_seq.
    rewrite (map_nth (fun n => nth n l d)), seq_nth by exact Hn. reflexivity.
Qed.

Lemma series_length (x : tensor4 Q) (b c s : nat) :
  List.length (series x b c s) = dim2 x.
Proof. unfold series, range. now rewrite length_map, length_seq. Qed.

Lemma series_nth (x : tensor4 Q) (b c s t : nat) :
  t < dim2 x -> nth t (series x b c s) 0%Q = at4 x b c t s.
Proof.
  intros Ht. unfold series, range.
  rewrite (nth_indep _ 0%Q (at4 x b c 0 s)) by now rewrite length_map, length_seq.
  rewrite (map_nth (fun t => at4 x b c t s)), seq_nth by exact Ht. reflexivity.
Qed.

Lemma nms_dims (scores out : tensor4 Q) (kernel stride : nat) :
  nms scores kernel stride = Some out ->
  exists keep, nms_keep scores kernel stride = Some keep /\ out = mask scores keep.
Proof.
  unfold nms. intros H. inv_bind H. injection H as <-. eauto.
Qed.

Section DetectPeaks.

Variable tk : topk_fn.
Hypothesis tk_ok : topk_contract tk.

(** Every group of the result is the selection [tk] makes on the
    suppressed series of its source channel. *)
Lemma detect_peaks_rows (scores : tensor4 Q) (vmin : Q) (kernel stride K : nat)
      (topk_scores : tensor4 Q) (topk_inds : tensor4 nat) :
  detect_peaks tk scores vmin kernel stride K = Some (topk_scores, topk_inds) ->
  exists out,
    nms scores kernel stride = Some out /\
    effective_K (dim2 scores) K <= dim2 scores /\
    dim0 topk_scores = dim0 scores /\ dim0 topk_inds = dim0 scores /\
    dim1 topk_scores = (if dim1 scores =? 1 then 1 else dim1 scores - 1) /\
    dim1 topk_inds = dim1 topk_scores /\
    dim2 topk_scores = dim3 scores /\ dim2 topk_inds = dim3 scores /\
    dim3 topk_scores = effective_K (dim2 scores) K /\
    dim3 topk_inds = effective_K (dim2 scores) K /\
    forall b c s,
      (row topk_scores b c s, row topk_inds b c s) =
      tk (series out b (source_channel (dim1 scores) c) s)
         (effective_K (dim2 scores) K).
Proof.
  unfold detect_peaks. intros H.
  apply bind_Some in H as (out & Hout & H).
  destruct (nms_dims _ _ _ _ Hout) as (keep & _ & Eout).
  assert (D1 : dim1 out = dim1 scores) by (subst out; reflexivity).
  assert (D2 : dim2 out = dim2 scores) by (subst out; reflexivity).
  assert (D3 : dim3 out = dim3 scores) by (subst out; reflexivity).
  assert (D0 : dim0 out = dim0 scores) by (subst out; reflexivity).
  fold (effective_K (dim2 out) K) in H. rewrite D1, D2 in H.
  set (K' := effective_K (dim2 scores) K) in *.
  apply bind_Some in H as ((ts & ti) & Htk & H).
  injection H as <- <-.
  exists out. split; [exact Hout|].
  assert (Hgen : forall x : tensor4 Q,
             dim3 x = dim2 scores ->
             torch_topk tk x K' = Some (ts, ti) ->
             K' <= dim2 scores /\
             dim0 ts = dim0 x /\ dim0 ti = dim0 x /\ dim1 ts = dim1 x /\
             dim1 ti = dim1 x /\ dim2 ts = dim2 x /\ dim2 ti = dim2 x /\
             dim3 ts = K' /\ dim3 ti = K' /\
             forall b c s,
               (row ts b c s,
                map (fun n => at4 ti b c s n mod dim2 scores) (range K')) =
               tk (row x b c s) K').
  { intros x Hx Hx'. unfold torch_topk in Hx'. inv_bind Hx'.
    injection Hx' as <- <-. apply Nat.leb_le in G. rewrite Hx in G.
    cbn [dim0 dim1 dim2 dim3 at4]. repeat split; try exact G.
    intros b c s.
    assert (HL : K' <= List.length (row x b c s)).
    { unfold row, range. now rewrite length_map, length_seq, Hx. }
    pose proof (topk_length tk tk_ok _ _ HL) as Hlen.
    pose proof (topk_values tk tk_ok _ _ HL) as Hval.
    pose proof (topk_range tk tk_ok _ _ HL) as Hrng.
    unfold row at 1. cbn [dim3 at4].
    destruct (tk (row x b c s) K') as [vals inds]. cbn [fst snd] in *.
    assert (Hlen' : List.length vals = K')
      by (rewrite Hval, length_map; exact Hlen).
    f_equal.
    + rewrite <- Hlen'. apply map_nth_range.
    + transitivity (map (fun n => nth n inds 0) (range K'));
        [|rewrite <- Hlen; apply map_nth_range].
      apply map_ext_in. intros n Hn. apply in_seq in Hn.
      apply Nat.mod_small.
      rewrite Forall_forall in Hrng.
      assert (Hr : nth n inds 0 < List.length (row x b c s))
        by (apply Hrng, nth_In; lia).
      unfold row, range in Hr. now rewrite length_map, length_seq, Hx in Hr. }
  unfold source_channel.
  destruct (dim1 scores =? 1) eqn:E1.
  - destruct (Hgen (transpose23 out)) as (HK & A0 & B0 & A1 & B1 & A2 & B2 & A3 & B3 & Hrow);
      [exact D2 | exact Htk |].
    cbn [transpose23 dim0 dim1 dim2 dim3] in *.
    apply Nat.eqb_eq in E1.
    repeat split; try congruence.
    intros b c s. unfold row at 2. cbn [dim3 at4]. rewrite B3.
    rewrite Hrow. unfold row, series. cbn [dim3 at4 transpose23].
    now rewrite D2.
  - unfold view_infer_last in Htk. apply bind_Some in Htk as (x & Hx & Htk).
    apply bind_Some in Hx as (u & _ & Hx). injection Hx as <-.
    destruct (Hgen (drop_channel0 (transpose23 out)))
      as (HK & A0 & B0 & A1 & B1 & A2 & B2 & A3 & B3 & Hrow);
      [exact D2 | exact Htk |].
    cbn [drop_channel0 transpose23 dim0 dim1 dim2 dim3] in *.
    repeat split; try congruence.
    intros b c s. unfold row at 2. cbn [dim3 at4]. rewrite B3.
    rewrite Hrow. unfold row, series. cbn [dim3 at4 transpose23 drop_channel0].
    now rewrite D2.
Qed.

End DetectPeaks.

(** ** [topk_lowest] meets the contract of [torch.topk] *)

Lemma insert_desc_perm (p : nat * Q) (l : list (nat * Q)) :
  Permutation (insert_desc p l) (p :: l).
Proof.
  induction l as [|h r IH]; simpl; [reflexivity|].
  destruct (Qle_bool (snd h) (snd p)); [reflexivity|].
  rewrite IH. apply perm_swap.
Qed.

Lemma sort_desc_perm (l : list (nat * Q)) : Permutation (sort_desc l) l.
Proof.
  induction l as [|p l IH]; simpl; [reflexivity|].
  rewrite insert_desc_perm. now constructor.
Qed.

Lemma insert_desc_sorted (p : nat * Q) (l : list (nat * Q)) :
  descending (map snd l) -> descending (map snd (insert_desc p l)).
Proof.
  induction l as [|h r IH]; simpl; intros Hs.
  - split; [constructor | exact I].
  - destruct Hs as (Hh & Hr).
    destruct (Qle_bool (snd h) (snd p)) eqn:E; simpl.
    + apply Qle_bool_iff in E. split; [|split; assumption].
      constructor; [exact E|].
      eapply Forall_impl; [|exact Hh]. intros a Ha. simpl in Ha.
      apply Qle_trans with (snd h); assumption.
    + split; [|now apply IH].
      assert (Hp : (snd p <= snd h)%Q).
      { destruct (Qlt_le_dec (snd p) (snd h)) as [L|L]; [now apply Qlt_le_weak|].
        apply Qle_bool_iff in L; congruence. }
      apply Forall_forall. intros x Hx.
      apply in_map_iff in Hx as (y & <- & Hy).
      apply (Permutation_in _ (insert_desc_perm p r)) in Hy as [<-|Hy]; [exact Hp|].
      rewrite Forall_forall in Hh. apply Hh. now apply in_map.
Qed.

Lemma sort_desc_sorted (l : list (nat * Q)) : descending (map snd (sort_desc l)).
Proof.
  induction l as [|p l IH]; simpl; [exact I|]. now apply insert_desc_sorted.
Qed.

Lemma descending_app (l1 l2 : list Q) :
  descending (l1 ++ l2) ->
  descending l1 /\ forall a b, In a l1 -> In b l2 -> (b <= a)%Q.
Proof.
  induction l1 as [|x l1 IH]; simpl.
  - intros _. split; [exact I | intros ? ? []].
  - intros (Hx & Hs). destruct (IH Hs) as (Hs1 & Hcross).
    apply Forall_app in Hx as (Hx1 & Hx2). repeat split; auto.
    intros a b [<-|Ha] Hb; [|now apply Hcross].
    rewrite Forall_forall in Hx2. now apply Hx2.
Qed.

Lemma combine_range_In (xs : list Q) (n i : nat) (v : Q) :
  In (i, v) (combine (seq n (List.length xs)) xs) ->
  n <= i < n + List.length xs /\ v = nth (i - n) xs 0%Q.
Proof.
  revert n; induction xs as [|x xs IH]; simpl; intros n; [intros []|].
  intros [[= <- <-]|H].
  - rewrite Nat.sub_diag. split; [lia | reflexivity].
  - apply IH in H as (H1 & ->). split; [lia|].
    replace (i - n) with (S (i - S n)) by lia. reflexivity.
Qed.

Lemma combine_range_fst (xs : list Q) (n : nat) :
  map fst (combine (seq n (List.length xs)) xs) = seq n (List.length xs).
Proof.
  revert n; induction xs as [|x xs IH]; simpl; intros n; [reflexivity|].
  now rewrite IH.
Qed.

Lemma combine_range_nth (xs : list Q) (j : nat) :
  j < List.length xs ->
  In (j, nth j xs 0%Q) (combine (range (List.length xs)) xs).
Proof.
  intros Hj. unfold range.
  assert (Hgen : forall n, In (n + j, nth j xs 0%Q) (combine (seq n (List.length xs)) xs)).
  { revert j Hj; induction xs as [|x xs IH]; simpl; intros j Hj n; [lia|].
    destruct j as [|j].
    - left. now rewrite Nat.add_0_r.
    - right. replace (n + S j) with (S n + j) by lia. apply IH. lia. }
  exact (Hgen 0).
Qed.

(** Sorting any rearrangement of the (position, value) pairs by descending
    value and taking the first [k] meets the contract. *)
Lemma topk_sorted_contract (pre : list (nat * Q) -> list (nat * Q)) :
  (forall l, Permutation (pre l) l) ->
  topk_contract
    (fun xs k =>
       let s := firstn k (sort_desc (pre (combine (range (List.length xs)) xs))) in
       (map snd s, map fst s)).
Proof.
  intros Hpre.
  assert (Hsub : forall xs k i v,
             In (i, v) (firstn k (sort_desc (pre (combine (range (List.length xs)) xs)))) ->
             i < List.length xs /\ v = nth i xs 0%Q).
  { intros xs k i v H.
    assert (H' : In (i, v) (sort_desc (pre (combine (range (List.length xs)) xs))))
      by (rewrite <- (firstn_skipn k); apply in_or_app; now left).
    clear H. apply (Permutation_in _ (sort_desc_perm _)) in H'.
    apply (Permutation_in _ (Hpre _)) in H'.
    apply combine_range_In in H' as (H1 & H2).
    rewrite Nat.sub_0_r in H2. split; [lia | exact H2]. }
  constructor; cbn [fst snd]; intros xs k.
  - intros Hk. rewrite length_map, length_firstn.
    rewrite (Permutation_length (sort_desc_perm _)), (Permutation_length (Hpre _)),
      length_combine.
    unfold range. rewrite length_seq. lia.
  - intros Hk. apply Forall_forall. intros i Hi.
    apply in_map_iff in Hi as ((i' & v) & <- & Hi). now apply Hsub in Hi.
  - intros Hk. rewrite <- firstn_map.
    assert (Hnd : NoDup (map fst (sort_desc (pre (combine (range (List.length xs)) xs))))).
    { eapply Permutation_NoDup.
      - apply Permutation_map, Permutation_sym.
        transitivity (pre (combine (range (List.length xs)) xs));
          [apply sort_desc_perm | apply Hpre].
      - unfold range. rewrite combine_range_fst. apply seq_NoDup. }
    rewrite <- (firstn_skipn k (map fst _)) in Hnd. now apply NoDup_app_remove_r in Hnd.
  - intros Hk. rewrite map_map. apply map_ext_in.
    intros (i & v) Hi. simpl. now apply Hsub in Hi.
  - intros Hk.
    pose proof (sort_desc_sorted (pre (combine (range (List.length xs)) xs))) as Hs.
    rewrite <- (firstn_skipn k (sort_desc _)), map_app in Hs.
    now apply descending_app in Hs.
  - intros i j Hk Hi Hj Hnj.
    apply in_map_iff in Hi as ((i' & v) & E & Hi). simpl in E; subst i'.
    destruct (Hsub _ _ _ _ Hi) as (_ & Ev).
    pose proof (combine_range_nth xs j Hj) as Hin.
    apply (Permutation_in _ (Permutation_sym (Hpre _))) in Hin.
    apply (Permutation_in _ (Permutation_sym (sort_desc_perm _))) in Hin.
    rewrite <- (firstn_skipn k (sort_desc _)) in Hin. apply in_app_or in Hin as [Hin|Hin].
    { exfalso. apply Hnj. apply in_map_iff. exists (j, nth j xs 0%Q). auto. }
    pose proof (sort_desc_sorted (pre (combine (range (List.length xs)) xs))) as Hs.
    rewrite <- (firstn_skipn k (sort_desc _)), map_app in Hs.
    apply descending_app in Hs as (_ & Hcross).
    rewrite <- Ev.
    apply (Hcross v (nth j xs 0%Q)).
    + apply in_map_iff. exists (i, v). auto.
    + apply in_map_iff. exists (j, nth j xs 0%Q). auto.
Qed.

Lemma topk_lowest_ok : topk_contract topk_lowest.
Proof. exact (topk_sorted_contract (fun l => l) (fun l => Permutation_refl l)). Qed.

Lemma topk_highest_ok : topk_contract topk_highest.
Proof.
  exact (topk_sorted_contract (@rev (nat * Q))
                              (fun l => Permutation_sym (Permutation_rev l))).
Qed.

(** ** Properties of the peaks returned by [detect_peaks] *)

Lemma row_nth {A : Type} (x : tensor4 A) (b c u n : nat) (d : A) :
  n < dim3 x -> nth n (row x b c u) d = at4 x b c u n.
Proof.
  intros Hn. unfold row, range.
  rewrite (nth_indep _ d (at4 x b c u 0)) by now rewrite length_map, length_seq.
  rewrite (map_nth (at4 x b c u)), seq_nth by exact Hn. reflexivity.
Qed.

Lemma row_length {A : Type} (x : tensor4 A) (b c u : nat) :
  List.length (row x b c u) = dim3 x.
Proof. unfold row, range. now rewrite length_map, length_seq. Qed.


Lemma nms_keep_Some_dims (scores : tensor4 Q) (kernel stride : nat)
      (keep : tensor4 bool) :
  nms_keep scores kernel stride = Some keep ->
  0 < dim1 scores /\ 0 < dim2 scores /\ 0 < dim3 scores.
Proof.
  unfold nms_keep. intros H. apply bind_Some in H as (smax & E & _).
  unfold max_pool2d_time in E. inv_bind E.
  apply andb_prop in G2 as (G2 & G4). apply andb_prop in G2 as (G2 & G5).
  apply Nat.ltb_lt in G2, G4, G5. auto.
Qed.

Section PeakSet.

Variable tk : topk_fn.
Hypothesis tk_ok : topk_contract tk.

Variable scores : tensor4 Q.
Variable vmin : Q.
Variable kernel stride K : nat.

(** Each returned pair is a position of the slice and the suppressed score
    at that position. *)
Lemma detect_peaks_entry (topk_scores : tensor4 Q) (topk_inds : tensor4 nat) :
  detect_peaks tk scores vmin kernel stride K = Some (topk_scores, topk_inds) ->
  exists keep,
    nms_keep scores kernel stride = Some keep /\
    forall b c s n, n < dim3 topk_scores ->
      at4 topk_inds b c s n < dim2 scores /\
      at4 topk_scores b c s n =
      at4 (mask scores keep) b (source_channel (dim1 scores) c)
          (at4 topk_inds b c s n) s.
Proof.
  intros H.
  destruct (detect_peaks_rows tk tk_ok _ _ _ _ _ _ _ H)
    as (out & Hout & HK & _ & _ & _ & _ & _ & _ & A3 & B3 & Hrow).
  destruct (nms_dims _ _ _ _ Hout) as (keep & Hkeep & ->).
  exists keep. split; [exact Hkeep|].
  intros b c s n Hn.
  specialize (Hrow b c s).
  set (xs := series (mask scores keep) b (source_channel (dim1 scores) c) s) in *.
  assert (HL : effective_K (dim2 scores) K <= List.length xs)
    by (unfold xs; rewrite series_length; exact HK).
  pose proof (topk_values tk tk_ok _ _ HL) as Hval.
  pose proof (topk_range tk tk_ok _ _ HL) as Hrng.
  pose proof (topk_length tk tk_ok _ _ HL) as Hlen.
  rewrite <- Hrow in Hval, Hrng, Hlen. cbn [fst snd] in Hval, Hrng, Hlen.
  assert (Ht : at4 topk_inds b c s n < dim2 scores).
  { rewrite Forall_forall in Hrng.
    rewrite <- (row_nth topk_inds b c s n 0) by lia.
    unfold xs in Hrng. rewrite series_length in Hrng. apply Hrng.
    apply nth_In. rewrite row_length. lia. }
  split; [exact Ht|].
  rewrite <- (row_nth topk_scores b c s n 0%Q) by exact Hn.
  rewrite Hval.
  rewrite (nth_indep _ 0%Q (nth 0 xs 0%Q)) by (rewrite length_map, row_length; lia).
  rewrite (map_nth (fun i => nth i xs 0%Q)).
  rewrite row_nth by lia.
  unfold xs. now rewrite series_nth.
Qed.

(** C3, as amended.  Every (time-index, score) pair returned by
    [detect_peaks] carries the score of the suppressed tensor at its
    position: the input score where the sample survived suppression and 0
    where it did not.  In particular a returned score that is not 0 is the
    input score at that (batch, class, time-index, station) position. *)
Theorem detect_peaks_score_is_suppressed_score
        (topk_scores : tensor4 Q) (topk_inds : tensor4 nat) :
  detect_peaks tk scores vmin kernel stride K = Some (topk_scores, topk_inds) ->
  exists keep,
    nms_keep scores kernel stride = Some keep /\
    forall b c s n, n < dim3 topk_scores ->
      let c' := source_channel (dim1 scores) c in
      let t := at4 topk_inds b c s n in
      t < dim2 scores /\
      at4 topk_scores b c s n =
        (if at4 keep b c' t s then at4 scores b c' t s else 0%Q) /\
      (~ (at4 topk_scores b c s n == 0)%Q ->
       at4 topk_scores b c s n = at4 scores b c' t s).
Proof.
  intros H. destruct (detect_peaks_entry _ _ H) as (keep & Hkeep & Hent).
  exists keep. split; [exact Hkeep|].
  intros b c s n Hn c' t. destruct (Hent b c s n Hn) as (Ht & Hv).
  fold c' t in Ht, Hv. cbn [mask at4] in Hv.
  repeat split; [exact Ht | exact Hv |].
  intros Hnz. rewrite Hv in *. destruct (at4 keep b c' t s); [reflexivity|].
  exfalso; apply Hnz; reflexivity.
Qed.

(** C8.  Which channels take part in the selection.  For a tensor with at
    least two class-channels the result has one channel less than the
    input, and the group of output channel [c] is the top-K selection over
    the suppressed series of input channel [c + 1]: channel 0 never takes
    part and no returned entry comes from it.  For a tensor with a single
    channel the selection is made over that channel. *)
Theorem detect_peaks_drops_channel0
        (topk_scores : tensor4 Q) (topk_inds : tensor4 nat) :
  detect_peaks tk scores vmin kernel stride K = Some (topk_scores, topk_inds) ->
  exists out,
    nms scores kernel stride = Some out /\
    (2 <= dim1 scores ->
     dim1 topk_scores = dim1 scores - 1 /\ dim1 topk_inds = dim1 scores - 1 /\
     forall b c s,
       (row topk_scores b c s, row topk_inds b c s) =
         tk (series out b (S c) s) (effective_K (dim2 scores) K) /\
       forall n, n < dim3 topk_scores ->
         at4 topk_scores b c s n = at4 out b (S c) (at4 topk_inds b c s n) s) /\
    (dim1 scores = 1 ->
     dim1 topk_scores = 1 /\ dim1 topk_inds = 1 /\
     forall b c s,
       (row topk_scores b c s, row topk_inds b c s) =
         tk (series out b c s) (effective_K (dim2 scores) K) /\
       forall n, n < dim3 topk_scores ->
         at4 topk_scores b c s n = at4 out b c (at4 topk_inds b c s n) s).
Proof.
  intros H.
  destruct (detect_peaks_rows tk tk_ok _ _ _ _ _ _ _ H)
    as (out & Hout & HK & _ & _ & A1 & B1 & _ & _ & A3 & B3 & Hrow).
  destruct (detect_peaks_entry _ _ H) as (keep & Hkeep & Hent).
  destruct (nms_dims _ _ _ _ Hout) as (keep' & Hkeep' & Eout).
  assert (keep' = keep) by congruence. subst keep'.
  exists out. split; [exact Hout|]. split.
  - intros H2.
    assert (E : (dim1 scores =? 1) = false) by (apply Nat.eqb_neq; lia).
    unfold source_channel in Hrow, Hent. rewrite E in *.
    split; [congruence|]. split; [congruence|].
    intros b c s. split; [apply Hrow|].
    intros n Hn. rewrite Eout. now apply Hent.
  - intros H1.
    assert (E : (dim1 scores =? 1) = true) by (apply Nat.eqb_eq; lia).
    unfold source_channel in Hrow, Hent. rewrite E in *.
    split; [congruence|]. split; [congruence|].
    intros b c s. split; [apply Hrow|].
    intros n Hn. rewrite Eout. now apply Hent.
Qed.


Lemma detect_peaks_succeeds (out : tensor4 Q) :
  nms scores kernel stride = Some out ->
  effective_K (dim2 scores) K <= dim2 scores ->
  0 < dim0 scores \/ dim1 scores = 1 ->
  exists topk_scores topk_inds,
    detect_peaks tk scores vmin kernel stride K = Some (topk_scores, topk_inds).
Proof.
  intros Hout HK Hb. unfold detect_peaks. rewrite Hout. cbn [bind].
  destruct (nms_dims _ _ _ _ Hout) as (keep & Hkeep & ->). cbn [mask dim1 dim2].
  destruct (nms_keep_Some_dims _ _ _ _ Hkeep) as (P1 & P2 & P3).
  fold (effective_K (dim2 scores) K). unfold torch_topk, view_infer_last.
  apply Nat.leb_le in HK.
  destruct (dim1 scores =? 1) eqn:E1;
    cbn [mask transpose23 drop_channel0 dim0 dim1 dim2 dim3].
  - rewrite HK; cbn [guard bind]; eexists; eexists; reflexivity.
  - apply Nat.eqb_neq in E1.
    assert (G : (0 <? dim0 scores * (dim1 scores - 1) * dim3 scores) = true).
    { apply Nat.ltb_lt. destruct Hb as [Hb|Hb]; [|contradiction].
      apply Nat.mul_pos_pos; [apply Nat.mul_pos_pos|]; lia. }
    rewrite G. cbn [guard bind].
    change (dim3 (drop_channel0 (transpose23 (mask scores keep))))
      with (dim2 scores).
    rewrite HK; cbn [guard bind]; eexists; eexists; reflexivity.
Qed.

(** On an empty batch with several channels the [view] of line 32 raises. *)
Lemma detect_peaks_empty_batch :
  dim0 scores = 0 -> dim1 scores <> 1 ->
  detect_peaks tk scores vmin kernel stride K = None.
Proof.
  intros H0 H1. unfold detect_peaks.
  destruct (nms scores kernel stride) as [out|] eqn:Hout; [|reflexivity].
  cbn [bind].
  destruct (nms_dims _ _ _ _ Hout) as (keep & Hkeep & ->). cbn [mask dim1 dim2].
  apply Nat.eqb_neq in H1. rewrite H1. unfold view_infer_last.
  cbn [mask transpose23 drop_channel0 dim0 dim1 dim2 dim3].
  rewrite H0. reflexivity.
Qed.


End PeakSet.

(** C3, the claim as stated fails: on the slice 0.5, 0.9, 0.5 with
    kernel 3 the default K is 3, so every position is returned; position 0
    is returned with score 0 although the input score there is 0.5. *)
Lemma detect_peaks_score_differs_from_input :
  exists topk_scores topk_inds,
    detect_peaks topk_lowest spike3 (3 # 10) 3 1 0 = Some (topk_scores, topk_inds) /\
    row topk_inds 0 0 0 = [1; 0; 2] /\
    row topk_scores 0 0 0 = [9 # 10; 0; 0]%Q /\
    ~ (at4 topk_scores 0 0 0 1 == at4 spike3 0 0 (at4 topk_inds 0 0 0 1) 0)%Q.
Proof.
  eexists; eexists. split; [vm_compute; reflexivity|].
  split; [vm_compute; reflexivity|]. split; [vm_compute; reflexivity|].
  vm_compute. discriminate.
Qed.

(** The same holds for every top-K selection: with K = T = 3 all three
    positions are returned, position 0 among them. *)
Lemma spike3_filler_for_every_selection (tk : topk_fn) :
  topk_contract tk ->
  exists topk_scores topk_inds n,
    detect_peaks tk spike3 (3 # 10) 3 1 0 = Some (topk_scores, topk_inds) /\
    n < dim3 topk_scores /\
    at4 topk_inds 0 0 0 n = 0 /\
    at4 topk_scores 0 0 0 n = 0%Q /\
    at4 spike3 0 0 0 0 = 1 # 2.
Proof.
  intros tk_ok.
  pose proof (nms_keep_odd spike3 1) as Hkeep.
  specialize (Hkeep ltac:(simpl; lia) ltac:(simpl; lia) ltac:(simpl; lia)).
  change (2 * 1 + 1) with 3 in Hkeep.
  assert (Hout : exists out, nms spike3 3 1 = Some out)
    by (unfold nms; rewrite Hkeep; eexists; reflexivity).
  destruct Hout as (out & Hout).
  destruct (detect_peaks_succeeds tk spike3 (3 # 10) 3 1 0 out Hout)
    as (ts & ti & E); [vm_compute; lia | left; simpl; lia |].
  destruct (detect_peaks_rows tk tk_ok _ _ _ _ _ _ _ E)
    as (out' & Hout' & _ & _ & _ & _ & _ & _ & _ & A3 & B3 & Hrow).
  destruct (detect_peaks_entry tk tk_ok _ _ _ _ _ _ _ E) as (keep & Hkeep' & Hent).
  change (effective_K (dim2 spike3) 0) with 3 in *.
  specialize (Hrow 0 0 0).
  set (xs := series out' 0 (source_channel (dim1 spike3) 0) 0) in *.
  assert (Hlen : List.length xs = 3).
  { unfold xs. rewrite series_length.
    destruct (nms_dims _ _ _ _ Hout') as (? & _ & ->). reflexivity. }
  assert (HL : 3 <= List.length xs) by lia.
  pose proof (topk_length tk tk_ok _ _ HL) as Hl.
  pose proof (topk_range tk tk_ok _ _ HL) as Hr.
  pose proof (topk_nodup tk tk_ok _ _ HL) as Hnd.
  rewrite <- Hrow in Hl, Hr, Hnd. cbn [snd] in Hl, Hr, Hnd.
  rewrite Hlen in Hr. rewrite Forall_forall in Hr.
  assert (Hin : In 0 (row ti 0 0 0)).
  { apply (NoDup_length_incl Hnd (l' := [0; 1; 2])).
    - rewrite Hl. simpl. lia.
    - intros t Ht. specialize (Hr t Ht). simpl. lia.
    - now left. }
  apply (In_nth _ _ 0) in Hin as (n & Hn & En).
  rewrite Hl in Hn. rewrite row_nth in En by lia.
  exists ts, ti, n. split; [exact E|]. split; [lia|]. split; [exact En|].
  split; [|reflexivity].
  destruct (Hent 0 0 0 n) as (_ & ->); [lia|]. rewrite En.
  rewrite Hkeep in Hkeep'. injection Hkeep' as <-. vm_compute. reflexivity.
Qed.

Lemma detect_peaks_score_is_suppressed_score_witness :
  exists topk_scores topk_inds keep,
    detect_peaks topk_lowest spike3 (3 # 10) 3 1 0 = Some (topk_scores, topk_inds) /\
    nms_keep spike3 3 1 = Some keep /\
    forall n, n < dim3 topk_scores ->
      at4 topk_scores 0 0 0 n =
        (if at4 keep 0 0 (at4 topk_inds 0 0 0 n) 0
         then at4 spike3 0 0 (at4 topk_inds 0 0 0 n) 0 else 0%Q).
Proof.
  assert (E : exists ts ti,
             detect_peaks topk_lowest spike3 (3 # 10) 3 1 0 = Some (ts, ti))
    by (eexists; eexists; vm_compute; reflexivity).
  destruct E as (ts & ti & E).
  destruct (detect_peaks_score_is_suppressed_score
              topk_lowest topk_lowest_ok spike3 (3 # 10) 3 1 0 ts ti E)
    as (keep & Hk & Hall).
  exists ts, ti, keep. split; [exact E|]. split; [exact Hk|].
  intros n Hn. destruct (Hall 0 0 0 n Hn) as (_ & Hv & _). exact Hv.
Defined.

Lemma detect_peaks_drops_channel0_witness :
  exists topk_scores topk_inds,
    detect_peaks topk_lowest impulse300 (1 # 2) 21 1 0
      = Some (topk_scores, topk_inds) /\
    dim1 topk_scores = 1 /\
    forall n, n < dim3 topk_scores ->
      exists out, nms impulse300 21 1 = Some out /\
                  at4 topk_scores 0 0 0 n = at4 out 0 1 (at4 topk_inds 0 0 0 n) 0.
Proof.
  destruct (detect_peaks_succeeds topk_lowest impulse300 (1 # 2) 21 1 0
              (mask impulse300
                    (Tensor4 1 2 300 1
                       (fun b c t s =>
                          xeqb (pool_at (fun u => at4 impulse300 b c u s) 300
                                        (2 * 10 + 1) 10 (t * 1))
                               (at4 impulse300 b c t s)))))
    as (ts & ti & E).
  { unfold nms. change 21 with (2 * 10 + 1).
    rewrite (nms_keep_odd impulse300 10) by (simpl; lia). reflexivity. }
  { vm_compute. lia. }
  { left. simpl. lia. }
  destruct (detect_peaks_drops_channel0
              topk_lowest topk_lowest_ok impulse300 (1 # 2) 21 1 0 ts ti E)
    as (out & Hout & Hmulti & _).
  destruct Hmulti as (D1 & _ & Hrows); [simpl; lia|].
  exists ts, ti. split; [exact E|]. split; [exact D1|].
  intros n Hn. exists out. split; [exact Hout|].
  destruct (Hrows 0 0 0) as (_ & Hent). now apply Hent.
Defined.


(** ** torch.sort *)

Lemma insert_asc_perm (p : nat * nat) (l : list (nat * nat)) :
  Permutation (insert_asc p l) (p :: l).
Proof.
  induction l as [|h r IH]; simpl; [reflexivity|].
  destruct (fst p <=? fst h); [reflexivity|].
  rewrite IH. apply perm_swap.
Qed.

Lemma sort_asc_perm (l : list (nat * nat)) :
  Permutation (fold_right insert_asc [] l) l.
Proof.
  induction l as [|p l IH]; simpl; [reflexivity|].
  rewrite insert_asc_perm. now constructor.
Qed.

Lemma insert_asc_sorted (p : nat * nat) (l : list (nat * nat)) :
  StronglySorted le (map fst l) -> StronglySorted le (map fst (insert_asc p l)).
Proof.
  induction l as [|h r IH]; simpl; intros Hs.
  - repeat constructor.
  - apply StronglySorted_inv in Hs as (Hr & Hh).
    destruct (fst p <=? fst h) eqn:E; simpl.
    + apply Nat.leb_le in E. constructor.
      * constructor; assumption.
      * constructor; [exact E|].
        eapply Forall_impl; [|exact Hh]. intros a Ha. simpl in Ha. lia.
    + apply Nat.leb_gt in E. constructor; [now apply IH|].
      apply Forall_forall. intros x Hx.
      apply in_map_iff in Hx as (y & <- & Hy).
      apply (Permutation_in _ (insert_asc_perm p r)) in Hy as [<-|Hy]; [lia|].
      rewrite Forall_forall in Hh. apply Hh. now apply in_map.
Qed.

Lemma sort_asc_sorted (l : list (nat * nat)) :
  StronglySorted le (map fst (fold_right insert_asc [] l)).
Proof.
  induction l as [|p l IH]; simpl; [constructor|]. now apply insert_asc_sorted.
Qed.

Lemma combine_with_range_In (v : list nat) (n x p : nat) :
  In (x, p) (combine v (seq n (List.length v))) ->
  n <= p < n + List.length v /\ x = nth (p - n) v 0.
Proof.
  revert n; induction v as [|y v IH]; simpl; intros n; [intros []|].
  intros [[= <- <-]|H].
  - rewrite Nat.sub_diag. split; [lia | reflexivity].
  - apply IH in H as (H1 & ->). split; [lia|].
    replace (p - n) with (S (p - S n)) by lia. reflexivity.
Qed.

Lemma combine_with_range_snd (v : list nat) (n : nat) :
  map snd (combine v (seq n (List.length v))) = seq n (List.length v).
Proof.
  revert n; induction v as [|y v IH]; simpl; intros n; [reflexivity|].
  now rewrite IH.
Qed.

(** [torch.sort] returns the values in ascending order together with a
    permutation of the positions that produces them. *)
Lemma torch_sort_spec (v : list nat) :
  StronglySorted le (fst (torch_sort v)) /\
  Permutation (snd (torch_sort v)) (range (List.length v)) /\
  fst (torch_sort v) = map (fun p => nth p v 0) (snd (torch_sort v)).
Proof.
  unfold torch_sort, range. cbn [fst snd].
  set (s := fold_right insert_asc [] (combine v (seq 0 (List.length v)))).
  assert (Hp : Permutation s (combine v (seq 0 (List.length v))))
    by apply sort_asc_perm.
  split; [apply sort_asc_sorted|]. split.
  - rewrite <- (combine_with_range_snd v 0). now apply Permutation_map.
  - rewrite map_map. apply map_ext_in. intros (x & p) Hin. simpl.
    apply (Permutation_in _ Hp) in Hin.
    apply combine_with_range_In in Hin as (_ & ->). now rewrite Nat.sub_0_r.
Qed.

Lemma mapM_nth_error_row (x : tensor4 Q) (i j k : nat) (perm : list nat) (scs : list Q) :
  mapM (nth_error (row x i j k)) perm = Some scs ->
  scs = map (at4 x i j k) perm /\ Forall (fun p => p < dim3 x) perm.
Proof.
  revert scs; induction perm as [|p perm IH]; simpl; intros scs H.
  - injection H as <-. split; [reflexivity | constructor].
  - inv_bind H. injection H as <-.
    destruct (IH _ E0) as (-> & HF).
    assert (Hp : p < dim3 x).
    { rewrite <- (row_length x i j k). apply nth_error_Some. congruence. }
    split; [|constructor; assumption].
    f_equal. apply (nth_error_nth _ _ 0%Q) in E.
    now rewrite row_nth in E.
Qed.

Lemma combine_map_same {A B C : Type} (f : A -> B) (g : A -> C) (l : list A) :
  combine (map f l) (map g l) = map (fun a => (f a, g a)) l.
Proof. induction l as [|a l IH]; simpl; [reflexivity | now rewrite IH]. Qed.

(** ** Loops of [extract_picks] *)

Lemma mapM_ext {A B : Type} (f g : A -> option B) (l : list A) :
  (forall a, f a = g a) -> mapM f l = mapM g l.
Proof.
  intros H. induction l as [|a l IH]; simpl; [reflexivity|].
  now rewrite H, IH.
Qed.

(** A loop that appends at most one element per iteration produces, in
    order, one element for every iteration whose condition holds. *)
Lemma mapM_if_concat {A B : Type} (c : A -> bool) (f : A -> option B)
      (l : list A) (pss : list (list B)) :
  mapM (fun e => if c e then (p <- f e ;; Some [p]) else Some []) l = Some pss ->
  Forall2 (fun e p => f e = Some p) (filter c l) (concat pss).
Proof.
  revert pss; induction l as [|e l IH]; simpl; intros pss H.
  - injection H as <-. constructor.
  - inv_bind H. injection H as <-. simpl.
    destruct (c e).
    + inv_bind E. injection E as <-. simpl. constructor; auto.
    + injection E as <-. simpl. auto.
Qed.

Lemma mapM_range_nth {B : Type} (f : nat -> option B) (n : nat) (rs : list B) :
  mapM f (range n) = Some rs ->
  List.length rs = n /\
  forall i r, nth_error rs i = Some r -> i < n /\ f i = Some r.
Proof.
  intros H. pose proof (mapM_length _ _ _ H) as Hlen.
  unfold range in *. rewrite length_seq in Hlen. split; [exact Hlen|].
  apply mapM_Forall2 in H.
  intros i r Hi.
  assert (Hlt : i < n) by (rewrite <- Hlen; apply nth_error_Some; congruence).
  split; [exact Hlt|].
  assert (Hgen : forall s m (rs : list B),
             Forall2 (fun a b => f a = Some b) (seq s m) rs ->
             forall i r, nth_error rs i = Some r -> f (s + i) = Some r).
  { clear. intros s m; revert s; induction m as [|m IH]; simpl; intros s rs H i r Hi.
    - inversion H; subst. destruct i; discriminate.
    - inversion H as [|a b l l' Hab Hrest]; subst.
      destruct i as [|i]; simpl in Hi.
      + injection Hi as <-. now rewrite Nat.add_0_r.
      + replace (s + S i) with (S s + i) by lia. eapply IH; eauto. }
  exact (Hgen 0 n rs H i r Hi).
Qed.

Lemma enumerate_nth_error {A : Type} (l : list A) (n : nat) :
  nth_error (enumerate l) n = option_map (pair n) (nth_error l n).
Proof.
  unfold enumerate, range.
  assert (Hgen : forall s n,
             nth_error (combine (seq s (List.length l)) l) n
             = option_map (pair (s + n)) (nth_error l n)).
  { clear n. induction l as [|a l IH]; simpl; intros s n.
    - destruct n; reflexivity.
    - destruct n as [|n]; simpl.
      + now rewrite Nat.add_0_r.
      + rewrite IH. now replace (S s + n) with (s + S n) by lia. }
  exact (Hgen 0 n).
Qed.

Lemma enumerate_In {A : Type} (l : list A) (n : nat) (a : A) :
  In (n, a) (enumerate l) -> nth_error l n = Some a.
Proof.
  intros H. apply In_nth_error in H as (m & Hm).
  rewrite enumerate_nth_error in Hm.
  destruct (nth_error l m) as [b|] eqn:E; simpl in Hm; [|discriminate].
  injection Hm as <- <-. exact E.
Qed.

Lemma enumerate_snd {A : Type} (l : list A) : map snd (enumerate l) = l.
Proof.
  unfold enumerate, range. generalize 0.
  induction l as [|a l IH]; simpl; intros s; [reflexivity | now rewrite IH].
Qed.

Lemma Qltb_lt (a b : Q) : Qltb a b = true <-> (a < b)%Q.
Proof.
  unfold Qltb. rewrite negb_true_iff. split.
  - intros H. destruct (Qlt_le_dec a b) as [L|L]; [exact L|].
    apply Qle_bool_iff in L. congruence.
  - intros H. destruct (Qle_bool b a) eqn:E; [|reflexivity].
    apply Qle_bool_iff in E. exfalso. eapply Qlt_not_le; eauto.
Qed.

Lemma nth_error_replicate {A : Type} (n i : nat) (x : A) :
  nth_error (replicate n x) i = if i <? n then Some x else None.
Proof.
  unfold replicate, range. rewrite nth_error_map, nth_error_seq.
  destruct (i <? n); reflexivity.
Qed.

Lemma mapM_exists {A B C : Type} (f : A -> option B) (R : A -> C -> Prop)
      (g : C -> B) (l : list A) (bs : list B) :
  (forall a b, In a l -> f a = Some b -> exists c, b = g c /\ R a c) ->
  mapM f l = Some bs ->
  exists cs, bs = map g cs /\ Forall2 R l cs.
Proof.
  revert bs; induction l as [|a l IH]; simpl; intros bs H Hm.
  - injection Hm as <-. exists []. split; [reflexivity | constructor].
  - inv_bind Hm. injection Hm as <-.
    destruct (H a a0 (or_introl eq_refl) E) as (c & -> & Hc).
    destruct (IH a1) as (cs & -> & Hcs); [intros; eapply H; eauto | exact E0 |].
    exists (c :: cs). split; [reflexivity | constructor; assumption].
Qed.

Lemma Forall2_range_nth {C : Type} (R : nat -> C -> Prop) (n : nat) (cs : list C) :
  Forall2 R (range n) cs ->
  List.length cs = n /\ forall j c, nth_error cs j = Some c -> j < n /\ R j c.
Proof.
  intros H. pose proof (Forall2_length H) as Hlen.
  unfold range in *. rewrite length_seq in Hlen. split; [congruence|].
  intros j c Hj.
  assert (Hlt : j < n) by (rewrite Hlen; apply nth_error_Some; congruence).
  split; [exact Hlt|].
  assert (Hgen : forall s m (cs : list C),
             Forall2 R (seq s m) cs ->
             forall j c, nth_error cs j = Some c -> R (s + j) c).
  { clear. intros s m; revert s; induction m as [|m IH]; simpl; intros s cs H j c Hj.
    - inversion H; subst. destruct j; discriminate.
    - inversion H as [|a b l l' Hab Hrest]; subst.
      destruct j as [|j]; simpl in Hj.
      + injection Hj as <-. now rewrite Nat.add_0_r.
      + replace (s + S j) with (S s + j) by lia. eapply IH; eauto. }
  exact (Hgen 0 n cs H j c Hj).
Qed.

Section Picks.

Variable topk_index : tensor4 nat.
Variable topk_score : tensor4 Q.
Variable kw : kwargs.

(** The loop state of [extract_picks] and how it resolves the keyword
    arguments for batch element [i]. *)
Variable dt : list Q.
Variable begin_channel_index : list Z.
Variable begin_time_index : list Z.
Variable waveform_amp : option (tensor3 Q).
Variable window_amp : list Q.
Variable i : nat.

Hypothesis dt_resolved : nth_error dt i = dt_of kw i.
Hypothesis bti_resolved : nth_error begin_time_index i = begin_time_index_of kw i.
Hypothesis bci_resolved :
  nth_error begin_channel_index i = begin_channel_index_of kw i.
Hypothesis amp_resolved :
  match kw_waveform kw with
  | None => waveform_amp = None
  | Some w => exists a, max_abs_dim1 w = Some a /\ waveform_amp = Some a
  end.
Hypothesis window_resolved :
  forall w, kw_waveform kw = Some w ->
    window_amp =
    if List.length (kw_window_amp kw) =? 1
    then replicate (List.length (kw_phases kw)) (nth 0 (kw_window_amp kw) 0%Q)
    else kw_window_amp kw.

Lemma make_pick_pick_of (group : list (nat * (nat * Q))) (j k : nat)
      (begin_i : Datetime.datetime) (station_i : string) (samples : Z)
      (srt : list nat) (e : nat * (nat * Q)) (p : pick) :
  anchor_of kw i = Some begin_i ->
  station_of kw i k = Some station_i ->
  (forall w, kw_waveform kw = Some w -> window_samples_of kw i j = Some samples) ->
  nth_error srt (fst e) = Some (fst (snd e)) ->
  (forall n, next_index group n = nth_error srt (S n)) ->
  make_pick kw dt begin_time_index waveform_amp i j k begin_i station_i samples
            srt (fst e) (fst (snd e)) (snd (snd e)) = Some p ->
  pick_of kw group i j k e p.
Proof.
  intros Hanchor Hstation Hsamples Hii Hnext H.
  destruct e as (ii & index & score). cbn [fst snd] in *.
  unfold make_pick in H.
  apply bind_Some in H as (bti & Ebti & H).
  apply bind_Some in H as (dti & Edti & H).
  apply bind_Some in H as (t & Et & H).
  apply bind_Some in H as (phase & Ephase & H).
  apply bind_Some in H as (polarity & Epol & H).
  apply bind_Some in H as (amplitude & Eamp & H).
  injection H as <-.
  constructor; cbn [fst snd phase_index phase_time phase_score phase_type
                    station_id phase_polarity phase_amplitude].
  - exists bti. split; [congruence | reflexivity].
  - exists begin_i, dti, t. repeat split; congruence.
  - reflexivity.
  - exact Ephase.
  - exact Hstation.
  - destruct (kw_polarity_score kw) as [pol|].
    + inv_bind Epol. now injection Epol as <-.
    + now injection Epol as <-.
  - destruct (kw_waveform kw) as [w|].
    + destruct amp_resolved as (a & Ha & ->).
      apply bind_Some in Eamp as (win & Ewin & Eamp).
      apply bind_Some in Eamp as (m & Em & Eamp).
      injection Eamp as <-.
      exists a, samples, win, m.
      split; [exact Ha|]. split; [now apply (Hsamples w)|].
      split; [|split; [exact Em | reflexivity]].
      rewrite <- Ewin. unfold spec_window. cbn [fst snd].
      rewrite (nth_error_nth _ _ 0 Hii). rewrite Hnext.
      f_equal.
      destruct (ii <? List.length srt - 1) eqn:Elast.
      * apply Nat.ltb_lt in Elast.
        assert (Hlt : S ii < List.length srt) by lia.
        apply nth_error_Some in Hlt.
        destruct (nth_error srt (S ii)) as [nx|] eqn:Enx; [|congruence].
        replace (ii + 1) with (S ii) by lia.
        now rewrite (nth_error_nth _ _ 0 Enx).
      * apply Nat.ltb_ge in Elast.
        assert (Hge : List.length srt <= S ii) by lia.
        apply nth_error_None in Hge. now rewrite Hge.
    + rewrite amp_resolved in Eamp. now injection Eamp as <-.
Qed.

Lemma sorted_group_indices (j k : nat) :
  map (fun e => fst (snd e)) (sorted_group topk_index topk_score i j k)
  = fst (torch_sort (row topk_index i j k)).
Proof.
  unfold sorted_group.
  destruct (torch_sort_spec (row topk_index i j k)) as (_ & Hperm & Hsrt).
  rewrite Hsrt.
  rewrite <- (map_map snd fst), enumerate_snd, map_map. cbn [fst].
  apply map_ext_in. intros n Hn.
  apply (Permutation_in _ Hperm) in Hn. unfold range in Hn. apply in_seq in Hn.
  rewrite row_length in Hn. symmetry. apply row_nth. lia.
Qed.

Lemma sorted_group_next (j k n : nat) :
  next_index (sorted_group topk_index topk_score i j k) n
  = nth_error (fst (torch_sort (row topk_index i j k))) (S n).
Proof.
  rewrite <- sorted_group_indices. unfold next_index.
  now rewrite nth_error_map.
Qed.

Lemma sorted_group_own (j k : nat) (e : nat * (nat * Q)) :
  In e (sorted_group topk_index topk_score i j k) ->
  nth_error (fst (torch_sort (row topk_index i j k))) (fst e) = Some (fst (snd e)).
Proof.
  intros He. rewrite <- sorted_group_indices.
  apply In_nth_error in He as (m & Hm).
  pose proof Hm as Hm'. unfold sorted_group in Hm'.
  rewrite enumerate_nth_error in Hm'.
  destruct (nth_error _ m) as [x|] eqn:Ex in Hm'; [|discriminate].
  simpl in Hm'. injection Hm' as <-. cbn [fst snd].
  rewrite nth_error_map, Hm. reflexivity.
Qed.

Lemma Forall2_impl_In {A B : Type} (R R' : A -> B -> Prop) (l : list A) (l' : list B) :
  (forall a b, In a l -> R a b -> R' a b) -> Forall2 R l l' -> Forall2 R' l l'.
Proof.
  intros H HF. induction HF as [|a b l l' Hab HF IH]; constructor.
  - apply H; [now left | exact Hab].
  - apply IH. intros; apply H; [now right | assumption].
Qed.

(** The picks of one group: one pick, in the order of the sorted group, for
    each entry whose score passes the test against [vmin]. *)
Lemma group_picks_spec (j k : nat) (begin_i : Datetime.datetime) (samples : Z)
      (ps : list pick) :
  anchor_of kw i = Some begin_i ->
  (forall w, kw_waveform kw = Some w -> window_samples_of kw i j = Some samples) ->
  group_picks topk_index topk_score kw dt begin_channel_index begin_time_index
              waveform_amp i j k begin_i samples = Some ps ->
  Forall2 (pick_of kw (sorted_group topk_index topk_score i j k) i j k)
          (filter (above kw) (sorted_group topk_index topk_score i j k))
          ps.
Proof.
  intros Hanchor Hsamples H. unfold group_picks in H.
  apply bind_Some in H as (station_i & Estation & H).
  assert (Hstation : station_of kw i k = Some station_i).
  { unfold station_of. now rewrite <- bci_resolved. }
  apply bind_Some in H as (u & G & H). clear u G.
  pose proof (sorted_group_indices j k) as Hidx.
  pose proof (sorted_group_next j k) as Hnext.
  pose proof (sorted_group_own j k) as Hown.
  unfold sorted_group in *.
  destruct (torch_sort_spec (row topk_index i j k)) as (_ & Hperm & Hsrt).
  destruct (torch_sort (row topk_index i j k)) as [srt perm].
  cbn [fst snd] in *.
  apply bind_Some in H as (scs & Escs & H).
  apply bind_Some in H as (pss & Epss & H).
  injection H as <-.
  apply mapM_nth_error_row in Escs as (-> & _).
  assert (Esrt : srt = map (at4 topk_index i j k) perm).
  { rewrite Hsrt. apply map_ext_in. intros n Hn.
    apply (Permutation_in _ Hperm) in Hn. unfold range in Hn. apply in_seq in Hn.
    rewrite row_length in Hn. apply row_nth. lia. }
  rewrite Esrt, combine_map_same in Epss.
  rewrite (mapM_ext _
             (fun e => if above kw e
                       then (p <- make_pick kw dt begin_time_index waveform_amp
                                            i j k begin_i station_i samples
                                            (map (at4 topk_index i j k) perm)
                                            (fst e) (fst (snd e)) (snd (snd e)) ;;
                             Some [p])
                       else Some [])) in Epss
    by (intros (ii & index & score); reflexivity).
  apply mapM_if_concat in Epss.
  eapply Forall2_impl_In; [|exact Epss].
  intros e p He Hmk. apply filter_In in He as (He & _).
  rewrite <- Esrt in Hmk.
  eapply make_pick_pick_of; eauto.
Qed.

Lemma window_samples_resolved (j : nat) (w : tensor4 Q) (samples : Z) :
  kw_waveform kw = Some w ->
  (wa <- nth_error window_amp j ;;
   dti <- nth_error dt i ;;
   q <- float_div wa dti ;;
   int_of_double q) = Some samples ->
  window_samples_of kw i j = Some samples.
Proof.
  intros Hw H. unfold window_samples_of. rewrite <- dt_resolved.
  rewrite <- H. f_equal.
  rewrite (window_resolved w Hw).
  destruct (List.length (kw_window_amp kw) =? 1) eqn:E; [|reflexivity].
  rewrite nth_error_replicate. destruct (j <? List.length (kw_phases kw)); [|reflexivity].
  apply Nat.eqb_eq in E.
  destruct (kw_window_amp kw) as [|x [|y l]]; simpl in E; try discriminate.
  reflexivity.
Qed.

Lemma channel_picks_spec (begin_i : Datetime.datetime) (j : nat) (ch : list pick) :
  anchor_of kw i = Some begin_i ->
  channel_picks topk_index topk_score kw dt begin_channel_index begin_time_index
                waveform_amp window_amp i begin_i j = Some ch ->
  exists gs, ch = concat gs /\ groups_ok topk_index topk_score kw i j gs.
Proof.
  intros Hanchor H. unfold channel_picks in H.
  apply bind_Some in H as (samples & Esamples & H).
  apply bind_Some in H as (gs & Egs & H).
  injection H as <-. exists gs. split; [reflexivity|].
  assert (Hsamples : forall w, kw_waveform kw = Some w ->
                               window_samples_of kw i j = Some samples).
  { intros w Hw. pose proof amp_resolved as Ha. rewrite Hw in Ha.
    destruct Ha as (a & _ & Ea). rewrite Ea in Esamples.
    eapply window_samples_resolved; eauto. }
  destruct (mapM_range_nth _ _ _ Egs) as (Hlen & Hnth).
  split; [exact Hlen|].
  intros k g Hk. destruct (Hnth k g Hk) as (Hlt & Hg).
  split; [exact Hlt|]. eapply group_picks_spec; eauto.
Qed.

Lemma file_picks_spec (file_i : list pick) :
  file_picks topk_index topk_score kw dt begin_channel_index begin_time_index
             waveform_amp window_amp i = Some file_i ->
  exists groups : list (list (list pick)),
    file_i = concat (map (@concat pick) groups) /\
    List.length groups = dim1 topk_score /\
    forall j gs, nth_error groups j = Some gs ->
      j < dim1 topk_score /\ groups_ok topk_index topk_score kw i j gs.
Proof.
  intros H. unfold file_picks in H.
  apply bind_Some in H as (name & _ & H).
  apply bind_Some in H as (b & Eb & H).
  apply bind_Some in H as (begin_i & Ebegin & H).
  apply bind_Some in H as (channels & Ech & H).
  injection H as <-.
  assert (Hanchor : anchor_of kw i = Some begin_i).
  { unfold anchor_of. rewrite Eb. exact Ebegin. }
  destruct (mapM_exists _ (groups_ok topk_index topk_score kw i) (@concat pick) _ _
              (fun j ch _ Hj => channel_picks_spec begin_i j ch Hanchor Hj) Ech)
    as (groups & -> & HF).
  exists groups. split; [reflexivity|].
  now apply Forall2_range_nth.
Qed.

End Picks.

(** The result of [extract_picks]: one list per batch element, the
    concatenation over the class-channels of the concatenation over the
    stations of the picks of each group. *)
Lemma extract_picks_spec (topk_index : tensor4 nat) (topk_score : tensor4 Q)
      (kw : kwargs) (picks : list (list pick)) :
  extract_picks topk_index topk_score kw = Some picks ->
  List.length picks = dim0 topk_score /\
  forall i file_i, nth_error picks i = Some file_i ->
    i < dim0 topk_score /\
    exists groups : list (list (list pick)),
      file_i = concat (map (@concat pick) groups) /\
      List.length groups = dim1 topk_score /\
      forall j gs, nth_error groups j = Some gs ->
        j < dim1 topk_score /\ groups_ok topk_index topk_score kw i j gs.
Proof.
  intros H. unfold extract_picks in H.
  apply bind_Some in H as (dt & Edt & H).
  apply bind_Some in H as (wamp & Ewamp & H).
  destruct (mapM_range_nth _ _ _ H) as (Hlen & Hnth).
  split; [exact Hlen|].
  intros i file_i Hi. destruct (Hnth i file_i Hi) as (Hlt & Hfile).
  split; [exact Hlt|].
  eapply file_picks_spec; [| | | | |exact Hfile].
  - unfold dt_of. destruct (kw_dt kw) as [x|l].
    + injection Edt as <-. rewrite nth_error_replicate.
      apply Nat.ltb_lt in Hlt. now rewrite Hlt.
    + destruct (mapM_range_nth _ _ _ Edt) as (Hl & Hn).
      destruct (nth_error dt i) as [r|] eqn:Er.
      * symmetry. now apply Hn.
      * apply nth_error_None in Er. lia.
  - unfold begin_time_index_of. destruct (kw_begin_time_index kw); [reflexivity|].
    rewrite nth_error_replicate. apply Nat.ltb_lt in Hlt. now rewrite Hlt.
  - unfold begin_channel_index_of.
    destruct (kw_begin_channel_index kw); [reflexivity|].
    rewrite nth_error_replicate. apply Nat.ltb_lt in Hlt. now rewrite Hlt.
  - destruct (kw_waveform kw) as [w|].
    + inv_bind Ewamp. injection Ewamp as <-. eauto.
    + now injection Ewamp as <-.
  - intros w Hw. rewrite Hw. reflexivity.
Qed.

Lemma Forall2_In_r {A B : Type} (R : A -> B -> Prop) (l : list A) (l' : list B) (b : B) :
  Forall2 R l l' -> In b l' -> exists a, In a l /\ R a b.
Proof.
  intros HF. induction HF as [|a b' l l' Hab HF IH]; intros Hb; [destruct Hb|].
  destruct Hb as [<-|Hb].
  - exists a. split; [now left | exact Hab].
  - destruct (IH Hb) as (a' & Ha' & HR). exists a'. split; [now right | exact HR].
Qed.

Lemma in_concat_nth {A : Type} (ls : list (list A)) (a : A) :
  In a (concat ls) -> exists n l, nth_error ls n = Some l /\ In a l.
Proof.
  intros H. apply in_concat in H as (l & Hl & Ha).
  apply In_nth_error in Hl as (n & Hn). eauto.
Qed.

(** Every entry of a sorted group is one of the peaks of the group. *)
Lemma sorted_group_entry (topk_index : tensor4 nat) (topk_score : tensor4 Q)
      (i j k : nat) (e : nat * (nat * Q)) :
  In e (sorted_group topk_index topk_score i j k) ->
  exists n, n < dim3 topk_index /\
            fst (snd e) = at4 topk_index i j k n /\
            snd (snd e) = at4 topk_score i j k n.
Proof.
  intros He. destruct e as (ii & x). apply enumerate_In in He.
  apply nth_error_In in He. apply in_map_iff in He as (n & <- & Hn).
  destruct (torch_sort_spec (row topk_index i j k)) as (_ & Hperm & _).
  apply (Permutation_in _ Hperm) in Hn. unfold range in Hn. apply in_seq in Hn.
  rewrite row_length in Hn. exists n. cbn [fst snd]. repeat split. lia.
Qed.

(** Every emitted pick is the pick of one entry, above [vmin], of one
    sorted group. *)
Lemma pick_origin (topk_index : tensor4 nat) (topk_score : tensor4 Q)
      (kw : kwargs) (picks : list (list pick)) (i : nat) (file_i : list pick)
      (p : pick) :
  extract_picks topk_index topk_score kw = Some picks ->
  nth_error picks i = Some file_i ->
  In p file_i ->
  exists j k e,
    j < dim1 topk_score /\ k < dim2 topk_score /\
    In e (sorted_group topk_index topk_score i j k) /\
    above kw e = true /\
    pick_of kw (sorted_group topk_index topk_score i j k) i j k e p.
Proof.
  intros H Hi Hp.
  destruct (extract_picks_spec _ _ _ _ H) as (_ & Hfiles).
  destruct (Hfiles i file_i Hi) as (_ & groups & -> & _ & Hgroups).
  apply in_concat_nth in Hp as (j & ch & Hch & Hp).
  rewrite nth_error_map in Hch.
  destruct (nth_error groups j) as [gs|] eqn:Egs; [|discriminate].
  injection Hch as <-.
  destruct (Hgroups j gs Egs) as (Hj & _ & Hgs).
  apply in_concat_nth in Hp as (k & g & Hg & Hp).
  destruct (Hgs k g Hg) as (Hk & HF).
  destruct (Forall2_In_r _ _ _ _ HF Hp) as (e & He & Hpick).
  apply filter_In in He as (He & Habove).
  exists j, k, e. auto.
Qed.

(** ** The end-to-end scenario, for every top-K selection *)

Lemma impulse300_series (out : tensor4 Q) :
  nms impulse300 21 1 = Some out ->
  series out 0 1 0 = map (fun t => if t =? 150 then 95 # 100 else 0)%Q (range 300).
Proof.
  intros H. change 21 with (2 * 10 + 1) in H. unfold nms in H.
  rewrite (nms_keep_odd impulse300 10) in H by (simpl; lia).
  cbn [bind] in H. injection H as <-.
  vm_compute. reflexivity.
Qed.

Lemma mapM_if_concat_total {A B : Type} (c : A -> bool) (f : A -> option B)
      (P : A -> B) (l : list A) :
  (forall e, In e l -> c e = true -> f e = Some (P e)) ->
  exists pss,
    mapM (fun e => if c e then (p <- f e ;; Some [p]) else Some []) l = Some pss /\
    concat pss = map P (filter c l).
Proof.
  induction l as [|e l IH]; intros H.
  - exists []. split; reflexivity.
  - destruct IH as (pss & Hm & Hc); [intros; apply H; auto; now right|].
    cbn [mapM filter]. rewrite Hm. destruct (c e) eqn:E.
    + rewrite (H e (or_introl eq_refl) E). cbn [bind].
      exists ([P e] :: pss). split; [reflexivity|]. simpl. now rewrite Hc.
    + cbn [bind]. exists ([] :: pss). split; [reflexivity|]. simpl. exact Hc.
Qed.

Lemma group_picks_total (topk_index : tensor4 nat) (topk_score : tensor4 Q)
      (kw : kwargs) (dt : list Q) (begin_channel_index begin_time_index : list Z)
      (waveform_amp : option (tensor3 Q)) (i j k : nat)
      (begin_i : Datetime.datetime) (samples : Z) (station_i : string)
      (P : nat * (nat * Q) -> pick) :
  match kw_station_id kw with
  | None =>
      bci <- nth_error begin_channel_index i ;;
      Some (format_0d 4 (Z.of_nat k + bci))
  | Some names =>
      names_k <- nth_error names k ;;
      nth_error names_k i
  end = Some station_i ->
  i < dim0 topk_index -> j < dim1 topk_index -> k < dim2 topk_index ->
  dim3 topk_index <= dim3 topk_score ->
  (forall e, In e (sorted_group topk_index topk_score i j k) ->
             above kw e = true ->
             make_pick kw dt begin_time_index waveform_amp i j k begin_i station_i
                       samples (fst (torch_sort (row topk_index i j k)))
                       (fst e) (fst (snd e)) (snd (snd e)) = Some (P e)) ->
  group_picks topk_index topk_score kw dt begin_channel_index begin_time_index
              waveform_amp i j k begin_i samples
  = Some (map P (filter (above kw)
                        (sorted_group topk_index topk_score i j k))).
Proof.
  intros Hst Hi Hj Hk Hdim Hmk. unfold group_picks. rewrite Hst. cbn [bind].
  apply Nat.ltb_lt in Hi, Hj, Hk. rewrite Hi, Hj, Hk. cbn [andb guard bind].
  unfold sorted_group in *.
  destruct (torch_sort_spec (row topk_index i j k)) as (_ & Hperm & Hsrt).
  destruct (torch_sort (row topk_index i j k)) as [srt perm]. cbn [fst snd] in *.
  rewrite row_length in Hperm.
  assert (Hin : forall n, In n perm -> n < dim3 topk_index).
  { intros n Hn. apply (Permutation_in _ Hperm) in Hn. unfold range in Hn.
    apply in_seq in Hn. lia. }
  destruct (mapM_total (nth_error (row topk_score i j k)) perm) as (scs & Escs).
  { intros n Hn. apply Hin in Hn.
    destruct (nth_error (row topk_score i j k) n) as [x|] eqn:E; [eauto|].
    apply nth_error_None in E. rewrite row_length in E. lia. }
  rewrite Escs. cbn [bind].
  apply mapM_nth_error_row in Escs as (-> & _).
  assert (Esrt : srt = map (at4 topk_index i j k) perm).
  { rewrite Hsrt. apply map_ext_in. intros n Hn. apply row_nth. now apply Hin. }
  assert (Ecomb : combine srt (map (at4 topk_score i j k) perm)
                  = map (fun n => (at4 topk_index i j k n, at4 topk_score i j k n)) perm)
    by (rewrite Esrt; apply combine_map_same).
  rewrite Ecomb.
  rewrite (mapM_ext _
             (fun e => if above kw e
                       then (p <- make_pick kw dt begin_time_index waveform_amp
                                            i j k begin_i station_i samples srt
                                            (fst e) (fst (snd e)) (snd (snd e)) ;;
                             Some [p])
                       else Some []))
    by (intros (ii & index & score); reflexivity).
  destruct (mapM_if_concat_total (above kw) _ P _ Hmk) as (pss & -> & Hc).
  cbn [bind]. now rewrite Hc.
Qed.

Lemma filter_unique {A : Type} (f : A -> nat) (x : nat) (l : list A) :
  NoDup (map f l) -> In x (map f l) ->
  exists e, filter (fun e => f e =? x) l = [e] /\ In e l /\ f e = x.
Proof.
  induction l as [|a l IH]; simpl; intros Hnd Hin; [destruct Hin|].
  apply NoDup_cons_iff in Hnd as (Hna & Hnd).
  destruct (f a =? x) eqn:E.
  - apply Nat.eqb_eq in E. exists a. repeat split; auto.
    f_equal. 
    assert (Hnone : forall l', ~ In x (map f l') -> filter (fun e => f e =? x) l' = []).
    { clear. induction l' as [|b l' IH]; simpl; intros H; [reflexivity|].
      destruct (f b =? x) eqn:E.
      - apply Nat.eqb_eq in E. exfalso. apply H. now left.
      - apply IH. intros H'. apply H. now right. }
    apply Hnone. now rewrite <- E.
  - apply Nat.eqb_neq in E. destruct Hin as [Hin|Hin]; [congruence|].
    destruct (IH Hnd Hin) as (e & He & Hel & Hfe). exists e. auto.
Qed.

Lemma torch_sort_perm (v : list nat) : Permutation (fst (torch_sort v)) v.
Proof.
  unfold torch_sort. cbn [fst].
  rewrite (Permutation_map fst (sort_asc_perm _)).
  assert (H : forall n, map fst (combine v (seq n (List.length v))) = v).
  { induction v as [|x v IH]; simpl; intros n; [reflexivity | now rewrite IH]. }
  unfold range. now rewrite H.
Qed.

Section EndToEnd.

Variable tk : topk_fn.
Hypothesis tk_ok : topk_contract tk.

Lemma impulse300_detect :
  exists topk_scores topk_inds,
    detect_peaks tk impulse300 (1 # 2) 21 1 0 = Some (topk_scores, topk_inds) /\
    dim0 topk_scores = 1 /\ dim1 topk_scores = 1 /\ dim2 topk_scores = 1 /\
    dim3 topk_scores = 3 /\
    dim0 topk_inds = 1 /\ dim1 topk_inds = 1 /\ dim2 topk_inds = 1 /\
    dim3 topk_inds = 3 /\
    NoDup (row topk_inds 0 0 0) /\ In 150 (row topk_inds 0 0 0) /\
    forall n, n < 3 ->
      at4 topk_scores 0 0 0 n
      = (if at4 topk_inds 0 0 0 n =? 150 then 95 # 100 else 0)%Q.
Proof.
  assert (Hout : exists out, nms impulse300 21 1 = Some out).
  { change 21 with (2 * 10 + 1). unfold nms.
    rewrite (nms_keep_odd impulse300 10) by (simpl; lia). eexists; reflexivity. }
  destruct Hout as (out & Hout).
  assert (EK : effective_K (dim2 impulse300) 0 = 3) by reflexivity.
  destruct (detect_peaks_succeeds tk impulse300 (1 # 2) 21 1 0 out Hout)
    as (ts & ti & E); [rewrite EK; simpl; lia | left; simpl; lia |].
  destruct (detect_peaks_rows tk tk_ok _ _ _ _ _ _ _ E)
    as (out' & Hout' & _ & A0 & B0 & A1 & B1 & A2 & B2 & A3 & B3 & Hrow).
  assert (out' = out) by congruence. subst out'.
  rewrite EK in *. cbn [impulse300 dim0 dim1 dim2 dim3] in A0, B0, A1, A2, B2.
  change (2 =? 1) with false in A1. cbn in A1. rewrite A1 in B1.
  specialize (Hrow 0 0 0).
  change (source_channel (dim1 impulse300) 0) with 1 in Hrow.
  pose proof (impulse300_series out Hout) as Hxs.
  set (xs := series out 0 1 0) in *.
  assert (Hlen : List.length xs = 300)
    by (rewrite Hxs; unfold range; now rewrite length_map, length_seq).
  assert (Hnth : forall t, t < 300 ->
             nth t xs 0%Q = (if t =? 150 then 95 # 100 else 0)%Q).
  { intros t Ht. rewrite Hxs. unfold range.
    rewrite (nth_indep _ 0%Q ((fun t => if t =? 150 then 95 # 100 else 0)%Q 0))
      by (now rewrite length_map, length_seq).
    rewrite (map_nth (fun t => if t =? 150 then 95 # 100 else 0)%Q).
    now rewrite seq_nth. }
  assert (HL : 3 <= List.length xs) by lia.
  pose proof (topk_length tk tk_ok _ _ HL) as Hl.
  pose proof (topk_range tk tk_ok _ _ HL) as Hr.
  pose proof (topk_nodup tk tk_ok _ _ HL) as Hnd.
  pose proof (topk_values tk tk_ok _ _ HL) as Hv.
  pose proof (topk_largest tk tk_ok xs 3) as Hbig.
  rewrite <- Hrow in Hl, Hr, Hnd, Hv, Hbig. cbn [fst snd] in Hl, Hr, Hnd, Hv, Hbig.
  rewrite Hlen in Hr. rewrite Forall_forall in Hr.
  exists ts, ti. do 10 (split; [assumption|]). split.
  - destruct (in_dec Nat.eq_dec 150 (row ti 0 0 0)) as [Hin|Hnin]; [exact Hin|].
    exfalso.
    destruct (row ti 0 0 0) as [|i0 rest] eqn:Erow; [discriminate|].
    assert (Hi0 : In i0 (i0 :: rest)) by now left.
    pose proof (Hbig i0 150 HL Hi0 ltac:(lia) Hnin) as Hle.
    rewrite (Hnth 150) in Hle by lia. rewrite (Hnth i0) in Hle by now apply Hr.
    destruct (i0 =? 150) eqn:E0.
    + apply Nat.eqb_eq in E0. subst i0. now apply Hnin.
    + now vm_compute in Hle.
  - intros n Hn.
    rewrite <- (row_nth ts 0 0 0 n 0%Q) by lia. rewrite Hv.
    rewrite (nth_indep _ 0%Q (nth 0 xs 0%Q)) by (rewrite length_map; lia).
    rewrite (map_nth (fun i => nth i xs 0%Q)).
    rewrite row_nth by lia. apply Hnth. 
    apply Hr. rewrite <- (row_nth ti 0 0 0 n 0) by lia. apply nth_In. lia.
Qed.

End EndToEnd.

Lemma impulse300_extract (d : dtype) (topk_scores : tensor4 Q) (topk_inds : tensor4 nat) :
  dim0 topk_scores = 1 -> dim1 topk_scores = 1 -> dim2 topk_scores = 1 ->
  dim3 topk_scores = 3 ->
  dim0 topk_inds = 1 -> dim1 topk_inds = 1 -> dim2 topk_inds = 1 ->
  dim3 topk_inds = 3 ->
  NoDup (row topk_inds 0 0 0) -> In 150 (row topk_inds 0 0 0) ->
  (forall n, n < 3 ->
     at4 topk_scores 0 0 0 n
     = (if at4 topk_inds 0 0 0 n =? 150 then 95 # 100 else 0)%Q) ->
  extract_picks topk_inds topk_scores (impulse_kwargs_of d) = Some [[impulse_pick]].
Proof.
  intros A0 A1 A2 A3 B0 B1 B2 B3 Hnd Hin Hsc.
  set (group := sorted_group topk_inds topk_scores 0 0 0).
  assert (Hentry : forall e, In e group ->
             above (impulse_kwargs_of d) e = (fst (snd e) =? 150) /\
             (fst (snd e) = 150 -> snd (snd e) = 95 # 100)).
  { intros e He. destruct (sorted_group_entry _ _ _ _ _ _ He) as (n & Hn & -> & Hs).
    unfold above. rewrite Hs, Hsc by lia.
    destruct (at4 topk_inds 0 0 0 n =? 150) eqn:E.
    - split; [now destruct d|]. intros _. reflexivity.
    - split; [now destruct d|]. apply Nat.eqb_neq in E. intros; contradiction. }
  assert (Hidx : map (fun e => fst (snd e)) group = fst (torch_sort (row topk_inds 0 0 0)))
    by apply sorted_group_indices.
  destruct (filter_unique (fun e => fst (snd e)) 150 group) as (e & He & Hein & He150).
  { rewrite Hidx. eapply Permutation_NoDup; [|exact Hnd].
    apply Permutation_sym, torch_sort_perm. }
  { rewrite Hidx. eapply Permutation_in; [|exact Hin].
    apply Permutation_sym, torch_sort_perm. }
  assert (Hfilter : filter (above (impulse_kwargs_of d)) group = [e]).
  { rewrite <- He. apply filter_ext_in. intros e' He'. now apply Hentry. }
  assert (Hparse : Datetime.fromisoformat (rstrip_Z "2024-01-01T00:00:00.000")
                   = Some (Datetime.Build 2024 1 1 0 0 0 0))
    by (vm_compute; reflexivity).
  assert (Hgroup :
            group_picks topk_inds topk_scores (impulse_kwargs_of d) [1 # 100] [0%Z] [0%Z]
                        None 0 0 0 (Datetime.Build 2024 1 1 0 0 0 0) 0
            = Some [impulse_pick]).
  { rewrite (group_picks_total _ _ _ _ _ _ _ _ _ _ _ _ "0000"
                               (fun _ => impulse_pick)); try lia.
    - fold group. change (kw_vmin (impulse_kwargs_of d)) with (1 # 2). now rewrite Hfilter.
    - reflexivity.
    - fold group. intros e' He' Habove.
      change (kw_vmin (impulse_kwargs_of d)) with (1 # 2) in Habove.
      destruct (Hentry e' He') as (Hab & Hval). rewrite Habove in Hab.
      symmetry in Hab. apply Nat.eqb_eq in Hab. rewrite Hab, (Hval Hab).
      generalize (fst (torch_sort (row topk_inds 0 0 0))) (fst e'). intros srt ii.
      vm_compute. reflexivity. }
  unfold extract_picks. rewrite A0.
  cbn [impulse_kwargs_of kw_dt kw_begin_channel_index kw_begin_time_index
       kw_waveform kw_window_amp bind].
  change (replicate 1 (1 # 100)) with [1 # 100].
  change (replicate 1 0%Z) with [0%Z].
  change (range 1) with [0]. cbn [mapM].
  unfold file_picks. rewrite A1.
  cbn [impulse_kwargs_of kw_file_name kw_begin_time nth_error bind].
  change (String.length "2024-01-01T00:00:00.000" =? 0) with false. cbv iota.
  rewrite Hparse. cbn [bind].
  change (range 1) with [0]. cbn [mapM].
  unfold channel_picks. rewrite A2. cbn [bind].
  change (range 1) with [0]. cbn [mapM].
  rewrite Hgroup. reflexivity.
Qed.

(** C2.  Index and time of a pick.  Every pick that [extract_picks] emits
    for batch element [i] comes from a peak of that element, with time-index
    [index]; its [phase_index] is [index + begin_time_index[i]] (the offset
    is 0 when none is given), and its [phase_time] is the anchor timestamp
    plus [index * dt[i]] seconds, without that offset, printed with
    millisecond precision.  End to end: [detect_peaks] followed by
    [extract_picks] on the (1, 2, 300, 1) tensor that is zero except for 0.95
    at time index 150 of channel 1, with vmin 0.5, kernel 21, dt 0.01 and
    anchor 2024-01-01T00:00:00.000, yields exactly one pick, with
    phase_index 150, phase_time 2024-01-01T00:00:01.500, phase_score 0.950
    and phase_type P, whichever zero-score samples the top-K selection
    returns besides the impulse. *)
Theorem extract_picks_index_and_time :
  (forall topk_index topk_score kw picks i file_i p,
     extract_picks topk_index topk_score kw = Some picks ->
     nth_error picks i = Some file_i ->
     In p file_i ->
     exists j k n bti anchor dti t,
       j < dim1 topk_score /\ k < dim2 topk_score /\ n < dim3 topk_index /\
       begin_time_index_of kw i = Some bti /\
       (kw_begin_time_index kw = None -> bti = 0%Z) /\
       phase_index p = (Z.of_nat (at4 topk_index i j k n) + bti)%Z /\
       anchor_of kw i = Some anchor /\ dt_of kw i = Some dti /\
       Datetime.add anchor
         (Datetime.timedelta_seconds
            (inject_Z (Z.of_nat (at4 topk_index i j k n)) * dti)) = Some t /\
       phase_time p = Datetime.isoformat_ms t) /\
  (forall tk, topk_contract tk ->
     exists topk_scores topk_inds,
       detect_peaks tk impulse300 (1 # 2) 21 1 0 = Some (topk_scores, topk_inds) /\
       forall d,
         extract_picks topk_inds topk_scores
           (Kwargs None (Some ["2024-01-01T00:00:00.000"%string]) None
                   ["P"; "S"]%string (1 # 2) (DtFloat (1 # 100)) None None
                   [10; 5]%Q None None d)
         = Some [[Pick "0000" 150 "2024-01-01T00:00:01.500" "0.950" "P" None None]]).
Proof.
  split.
  - intros topk_index topk_score kw picks i file_i p H Hi Hp.
    destruct (pick_origin _ _ _ _ _ _ _ H Hi Hp)
      as (j & k & e & Hj & Hk & He & _ & Hpick).
    destruct (sorted_group_entry _ _ _ _ _ _ He) as (n & Hn & Eidx & _).
    destruct (po_index _ _ _ _ _ _ _ Hpick) as (bti & Hbti & Hpi).
    destruct (po_time _ _ _ _ _ _ _ Hpick) as (anchor & dti & t & Ha & Hd & Ht & Hpt).
    rewrite Eidx in *.
    exists j, k, n, bti, anchor, dti, t. repeat split; try assumption.
    intros Hnone. unfold begin_time_index_of in Hbti. rewrite Hnone in Hbti.
    congruence.
  - intros tk tk_ok.
    destruct (impulse300_detect tk tk_ok)
      as (ts & ti & E & A0 & A1 & A2 & A3 & B0 & B1 & B2 & B3 & Hnd & Hin & Hsc).
    exists ts, ti. split; [exact E|].
    intros d. now apply (impulse300_extract d).
Qed.

(** ** Counting the picks *)

Lemma filter_perm_length {A : Type} (f : A -> bool) (l l' : list A) :
  Permutation l l' -> List.length (filter f l) = List.length (filter f l').
Proof.
  intros H. induction H as [|x l l' H IH|x y l|l l' l'' H1 IH1 H2 IH2]; simpl.
  - reflexivity.
  - destruct (f x); simpl; congruence.
  - destruct (f x), (f y); reflexivity.
  - congruence.
Qed.

Lemma filter_map_length {A B : Type} (f : B -> bool) (g : A -> B) (l : list A) :
  List.length (filter f (map g l)) = List.length (filter (fun a => f (g a)) l).
Proof.
  induction l as [|a l IH]; simpl; [reflexivity|].
  destruct (f (g a)); simpl; congruence.
Qed.

Lemma sorted_group_above_count (topk_index : tensor4 nat) (topk_score : tensor4 Q)
      (kw : kwargs) (i j k : nat) :
  List.length (filter (above kw) (sorted_group topk_index topk_score i j k))
  = List.length (filter (fun n => above_vmin kw (at4 topk_score i j k n))
                        (range (dim3 topk_index))).
Proof.
  unfold sorted_group.
  destruct (torch_sort_spec (row topk_index i j k)) as (_ & Hperm & _).
  rewrite row_length in Hperm.
  rewrite <- (filter_perm_length _ _ _ Hperm).
  set (perm := snd (torch_sort (row topk_index i j k))).
  set (pairs := map (fun n => (at4 topk_index i j k n, at4 topk_score i j k n)) perm).
  transitivity (List.length (filter (fun x => above_vmin kw (snd x)) pairs)).
  - rewrite <- (enumerate_snd pairs) at 2. now rewrite filter_map_length.
  - unfold pairs. now rewrite filter_map_length.
Qed.

Lemma map_eq_seq {A B : Type} (f : A -> B) (h : nat -> B) (l : list A) (s : nat) :
  (forall j x, nth_error l j = Some x -> f x = h (s + j)) ->
  map f l = map h (seq s (List.length l)).
Proof.
  revert s; induction l as [|a l IH]; simpl; intros s H; [reflexivity|].
  f_equal.
  - rewrite (H 0 a eq_refl). now rewrite Nat.add_0_r.
  - apply IH. intros j x Hj.
    replace (S s + j) with (s + S j) by lia. now apply H.
Qed.

Lemma length_concat_sum {A : Type} (ls : list (list A)) :
  List.length (concat ls) = list_sum (map (@List.length A) ls).
Proof.
  induction ls as [|l ls IH]; simpl; [reflexivity|].
  now rewrite length_app, IH.
Qed.

Lemma groups_ok_length (topk_index : tensor4 nat) (topk_score : tensor4 Q)
      (kw : kwargs) (i j : nat) (gs : list (list pick)) :
  groups_ok topk_index topk_score kw i j gs ->
  List.length (concat gs)
  = list_sum
      (map (fun k =>
              List.length
                (filter (fun n => above_vmin kw (at4 topk_score i j k n))
                        (range (dim3 topk_index))))
           (range (dim2 topk_score))).
Proof.
  intros (Hlen & Hgs). rewrite length_concat_sum. f_equal.
  unfold range. rewrite <- Hlen. apply map_eq_seq.
  intros k g Hg. destruct (Hgs k g Hg) as (_ & HF).
  apply Forall2_length in HF. rewrite <- HF.
  apply sorted_group_above_count.
Qed.

Lemma filter_length_impl {A : Type} (f g : A -> bool) (l : list A) :
  (forall x, In x l -> f x = true -> g x = true) ->
  List.length (filter f l) <= List.length (filter g l).
Proof.
  induction l as [|a l IH]; intros H; [apply Nat.le_refl|]. cbn [filter].
  assert (IH' : List.length (filter f l) <= List.length (filter g l))
    by (apply IH; intros x Hx; apply H; now right).
  destruct (f a) eqn:Ef.
  - rewrite (H a (or_introl eq_refl) Ef). cbn [List.length]. lia.
  - destruct (g a); cbn [List.length]; lia.
Qed.

Lemma list_sum_map_le {A : Type} (f g : A -> nat) (l : list A) :
  (forall x, In x l -> f x <= g x) -> list_sum (map f l) <= list_sum (map g l).
Proof.
  unfold list_sum. induction l as [|a l IH]; intros H; [apply Nat.le_refl|].
  cbn [map fold_right].
  assert (f a <= g a) by (apply H; now left).
  assert (fold_right Nat.add 0 (map f l) <= fold_right Nat.add 0 (map g l))
    by (apply IH; intros x Hx; apply H; now right).
  lia.
Qed.

(** C4.  Threshold.  Every pick emitted for batch element [i] belongs to a
    peak whose score is strictly greater than [vmin].  The number of picks
    is the number of peaks that pass the test [score > vmin] as the code
    makes it, in the element type of the score tensor; it never exceeds
    the number of peaks whose score is greater than [vmin] as a number.
    When no peak has a score above [vmin] (all are equal to it or below),
    there is no pick. *)
Theorem extract_picks_strictly_above_vmin
        (topk_index : tensor4 nat) (topk_score : tensor4 Q) (kw : kwargs)
        (picks : list (list pick)) (i : nat) (file_i : list pick) :
  extract_picks topk_index topk_score kw = Some picks ->
  nth_error picks i = Some file_i ->
  (forall p, In p file_i ->
     exists j k n,
       j < dim1 topk_score /\ k < dim2 topk_score /\ n < dim3 topk_index /\
       (kw_vmin kw < at4 topk_score i j k n)%Q /\
       phase_score p = format_3f (at4 topk_score i j k n)) /\
  (List.length file_i = peaks_above kw topk_index topk_score i /\
   List.length file_i <= peaks_exceeding (kw_vmin kw) topk_index topk_score i) /\
  ((forall j k n, j < dim1 topk_score -> k < dim2 topk_score ->
                  n < dim3 topk_index ->
                  (at4 topk_score i j k n <= kw_vmin kw)%Q) ->
   file_i = []).
Proof.
  intros H Hi.
  assert (Hcount : List.length file_i = peaks_above kw topk_index topk_score i).
  { destruct (extract_picks_spec _ _ _ _ H) as (_ & Hfiles).
    destruct (Hfiles i file_i Hi) as (_ & groups & -> & Hlen & Hgroups).
    rewrite length_concat_sum, map_map. unfold peaks_above. f_equal.
    unfold range at 1. rewrite <- Hlen. apply map_eq_seq.
    intros j gs Hgs. destruct (Hgroups j gs Hgs) as (_ & Hok).
    now apply groups_ok_length. }
  assert (Hle : peaks_above kw topk_index topk_score i
                <= peaks_exceeding (kw_vmin kw) topk_index topk_score i).
  { unfold peaks_above, peaks_exceeding.
    apply list_sum_map_le. intros j _. apply list_sum_map_le. intros k _.
    apply filter_length_impl. intros n _ Hn.
    apply Qltb_lt. now apply above_vmin_lt. }
  split; [|split; [split; [exact Hcount | lia]|]].
  - intros p Hp.
    destruct (pick_origin _ _ _ _ _ _ _ H Hi Hp)
      as (j & k & e & Hj & Hk & He & Habove & Hpick).
    destruct (sorted_group_entry _ _ _ _ _ _ He) as (n & Hn & _ & Esc).
    exists j, k, n. repeat split; try assumption.
    + rewrite <- Esc. now apply above_vmin_lt.
    + rewrite <- Esc. apply (po_score _ _ _ _ _ _ _ Hpick).
  - intros Hall. apply length_zero_iff_nil.
    assert (Hz : peaks_exceeding (kw_vmin kw) topk_index topk_score i = 0);
      [|lia].
    unfold peaks_exceeding.
    assert (Hz : forall (l : list nat) (f : nat -> nat),
               (forall x, In x l -> f x = 0) -> list_sum (map f l) = 0).
    { clear. induction l as [|a l IH]; simpl; intros f Hf; [reflexivity|].
      rewrite (Hf a (or_introl eq_refl)), IH; auto. }
    apply Hz. intros j Hj. apply Hz. intros k Hk.
    unfold range in Hj, Hk. apply in_seq in Hj, Hk.
    apply length_zero_iff_nil.
    assert (Hnone : forall l : list nat,
               (forall n, In n l -> Qltb (kw_vmin kw) (at4 topk_score i j k n) = false) ->
               filter (fun n => Qltb (kw_vmin kw) (at4 topk_score i j k n)) l = []).
    { clear. induction l as [|a l IH]; simpl; intros Hf; [reflexivity|].
      rewrite (Hf a (or_introl eq_refl)). apply IH. auto. }
    apply Hnone. intros n Hn. unfold range in Hn. apply in_seq in Hn.
    destruct (Qltb (kw_vmin kw) (at4 topk_score i j k n)) eqn:E; [|reflexivity].
    apply Qltb_lt in E. exfalso.
    apply (Qlt_not_le _ _ E). apply Hall; lia.
Qed.

(** ** Order of the picks *)

Lemma StronglySorted_map_filter {A : Type} (f : A -> nat) (c : A -> bool) (l : list A) :
  StronglySorted le (map f l) -> StronglySorted le (map f (filter c l)).
Proof.
  induction l as [|a l IH]; simpl; intros H; [constructor|].
  apply StronglySorted_inv in H as (Hs & Hall).
  destruct (c a); simpl; [|now apply IH].
  constructor; [now apply IH|].
  rewrite Forall_forall in *. intros x Hx.
  apply in_map_iff in Hx as (y & <- & Hy). apply filter_In in Hy as (Hy & _).
  apply Hall. now apply in_map.
Qed.

Lemma sorted_phase_index (kw : kwargs) (group : list (nat * (nat * Q)))
      (i j k : nat) (l : list (nat * (nat * Q))) (g : list pick) :
  Forall2 (pick_of kw group i j k) l g ->
  StronglySorted le (map (fun e => fst (snd e)) l) ->
  StronglySorted Z.le (map phase_index g).
Proof.
  intros HF. induction HF as [|e p l g Hep HF IH]; simpl; intros Hs; [constructor|].
  apply StronglySorted_inv in Hs as (Hs & Hall).
  constructor; [now apply IH|].
  rewrite Forall_forall in *. intros z Hz.
  apply in_map_iff in Hz as (p' & <- & Hp').
  destruct (Forall2_In_r _ _ _ _ HF Hp') as (e' & He' & Hep').
  destruct (po_index _ _ _ _ _ _ _ Hep) as (bti & Hb & ->).
  destruct (po_index _ _ _ _ _ _ _ Hep') as (bti' & Hb' & ->).
  assert (bti' = bti) by congruence. subst bti'.
  assert (Hle : fst (snd e) <= fst (snd e'))
    by (apply Hall; now apply (in_map (fun e => fst (snd e)))).
  lia.
Qed.

(** C9.  Order of the picks.  The list of batch element [i] is the
    concatenation, class-channel by class-channel and within a class-channel
    station by station, of the picks of the groups; the picks of one group
    carry the phase type of its class-channel and the identifier of its
    station and appear in non-decreasing [phase_index] order.  The list as a
    whole need not be sorted by [phase_index]: with a peak at time index 50
    on station 0 and one at time index 10 on station 1, the pick at 50 comes
    first. *)
Theorem extract_picks_encounter_order :
  (forall topk_index topk_score kw picks i file_i,
     extract_picks topk_index topk_score kw = Some picks ->
     nth_error picks i = Some file_i ->
     exists groups : list (list (list pick)),
       file_i = concat (map (@concat pick) groups) /\
       List.length groups = dim1 topk_score /\
       forall j gs, nth_error groups j = Some gs ->
         List.length gs = dim2 topk_score /\
         forall k g, nth_error gs k = Some g ->
           StronglySorted Z.le (map phase_index g) /\
           forall p, In p g ->
             nth_error (kw_phases kw) j = Some (phase_type p) /\
             station_of kw i k = Some (station_id p)) /\
  (exists p1 p2,
     extract_picks two_stations_index two_stations_score default_kwargs
       = Some [[p1; p2]] /\
     phase_index p1 = 50%Z /\ station_id p1 = "0000"%string /\
     phase_index p2 = 10%Z /\ station_id p2 = "0001"%string).
Proof.
  split.
  - intros topk_index topk_score kw picks i file_i H Hi.
    destruct (extract_picks_spec _ _ _ _ H) as (_ & Hfiles).
    destruct (Hfiles i file_i Hi) as (_ & groups & Hfile & Hlen & Hgroups).
    exists groups. split; [exact Hfile|]. split; [exact Hlen|].
    intros j gs Hgs. destruct (Hgroups j gs Hgs) as (_ & Hl & Hok).
    split; [exact Hl|].
    intros k g Hg. destruct (Hok k g Hg) as (_ & HF). split.
    + eapply sorted_phase_index; [exact HF|].
      apply StronglySorted_map_filter.
      assert (Hidx : map (fun e => fst (snd e)) (sorted_group topk_index topk_score i j k)
                     = fst (torch_sort (row topk_index i j k)))
        by apply sorted_group_indices.
      rewrite Hidx. apply torch_sort_spec.
    + intros p Hp. destruct (Forall2_In_r _ _ _ _ HF Hp) as (e & _ & Hpick).
      split; [apply (po_type _ _ _ _ _ _ _ Hpick) | apply (po_station _ _ _ _ _ _ _ Hpick)].
  - eexists; eexists. split; [vm_compute; reflexivity|].
    repeat split.
Qed.

(** ** The amplitude window *)

Lemma sorted_group_position (topk_index : tensor4 nat) (topk_score : tensor4 Q)
      (i j k : nat) (e : nat * (nat * Q)) :
  In e (sorted_group topk_index topk_score i j k) ->
  nth_error (sorted_group topk_index topk_score i j k) (fst e) = Some e.
Proof.
  intros He. apply In_nth_error in He as (m & Hm).
  pose proof Hm as Hm'. unfold sorted_group in Hm'.
  rewrite enumerate_nth_error in Hm'.
  destruct (nth_error _ m) as [x|] in Hm'; [|discriminate].
  simpl in Hm'. injection Hm' as <-. exact Hm.
Qed.

Lemma next_index_None (group : list (nat * (nat * Q))) (ii : nat) :
  next_index group ii = None <-> List.length group <= S ii.
Proof.
  unfold next_index. rewrite <- nth_error_None.
  destruct (nth_error group (S ii)); simpl; split; congruence.
Qed.

(** C6 (counterexample).  The claim cuts the window at the next peak and
    gives the last peak of a group the full nominal length.  The code cuts
    at the next entry of the sorted top-K group, whatever its score.  With
    the entries (100, 0.9) and (108, 0) and [vmin = 0.3], the entry at 100
    is the only peak of its group, hence the last one, and the nominal
    length is 10 samples: the claimed window [100, 110) has amplitude 5,
    the code's pick has the amplitude 1 of the window [100, 108). *)
Lemma amplitude_window_cut_by_filler :
  exists p,
    extract_picks close_pair_index filler_score close_pair_kwargs = Some [[p]] /\
    phase_index p = 100%Z /\
    sorted_group close_pair_index filler_score 0 0 0
    = [(0, (100, 9 # 10)); (1, (108, 0%Q))] /\
    next_peak close_pair_kwargs
              (sorted_group close_pair_index filler_score 0 0 0) 0 = None /\
    window_samples_of close_pair_kwargs 0 0 = Some 10%Z /\
    claimed_amplitude close_pair_kwargs step_waveform
                      (sorted_group close_pair_index filler_score 0 0 0)
                      0 0 0 0 100 = Some "5.000e+00"%string /\
    phase_amplitude p = Some "1.000e+00"%string /\
    phase_amplitude p
    <> claimed_amplitude close_pair_kwargs step_waveform
                         (sorted_group close_pair_index filler_score 0 0 0)
                         0 0 0 0 100.
Proof.
  eexists. split; [vm_compute; reflexivity|].
  repeat split; try (vm_compute; reflexivity).
  vm_compute. discriminate.
Qed.

(** C6 (amended).  Amplitude window.  When a waveform is supplied, the
    amplitude of a pick is the maximum of the waveform envelope over a
    window that starts at the pick's own time index.  For a pick that is
    not the last entry of its sorted (batch, class, station) group the
    window ends at the smaller of [index + samples] and the time index of
    the next entry of the group, whether or not the score of that entry
    passes the test against [vmin]; for the last entry of the group it ends
    at [index + samples].  The nominal length is
    [samples = int(window_amp[j] / dt[i])] with the quotient of the two
    doubles: 0.1 / 0.01 gives 10 samples and 0.3 / 0.1 gives 2, not 3.  For
    two peaks at 100 and 108 and a nominal length of 10 samples, the window
    of the first peak is the 8 samples [100, 108): its amplitude does not
    see the larger envelope values at 108 and 109. *)
Theorem extract_picks_amplitude_window :
  (forall topk_index topk_score kw w picks i file_i p,
     extract_picks topk_index topk_score kw = Some picks ->
     kw_waveform kw = Some w ->
     nth_error picks i = Some file_i ->
     In p file_i ->
     exists j k ii index score bti amp samples win m,
       let group := sorted_group topk_index topk_score i j k in
       j < dim1 topk_score /\ k < dim2 topk_score /\
       nth_error group ii = Some (ii, (index, score)) /\
       begin_time_index_of kw i = Some bti /\
       phase_index p = (Z.of_nat index + bti)%Z /\
       max_abs_dim1 w = Some amp /\
       window_samples_of kw i j = Some samples /\
       (forall nx e', nth_error group (S ii) = Some e' -> nx = fst (snd e') ->
          slice3 amp i (Z.of_nat index)
                 (Z.min (Z.of_nat index + samples) (Z.of_nat nx)) k = Some win) /\
       (S ii = List.length group ->
          slice3 amp i (Z.of_nat index) (Z.of_nat index + samples) k = Some win) /\
       max_list win = Some m /\
       phase_amplitude p = Some (format_3e m)) /\
  spec_window 100 10 (Some 108) = (100, 108)%Z /\
  (exists p1 p2,
     extract_picks close_pair_index close_pair_score close_pair_kwargs
       = Some [[p1; p2]] /\
     phase_index p1 = 100%Z /\ phase_amplitude p1 = Some "1.000e+00"%string /\
     phase_index p2 = 108%Z /\ phase_amplitude p2 = Some "5.000e+00"%string) /\
  window_samples_of close_pair_kwargs 0 0 = Some 10%Z /\
  (q <- float_div (3 # 10) (1 # 10) ;; int_of_double q) = Some 2%Z.
Proof.
  split; [|split; [|split; [|split; vm_compute; reflexivity]]].
  - intros topk_index topk_score kw w picks i file_i p H Hw Hi Hp.
    destruct (pick_origin _ _ _ _ _ _ _ H Hi Hp)
      as (j & k & e & Hj & Hk & He & _ & Hpick).
    pose proof (sorted_group_position _ _ _ _ _ _ He) as Hpos.
    pose proof (po_amplitude _ _ _ _ _ _ _ Hpick) as Hamp.
    rewrite Hw in Hamp.
    destruct Hamp as (amp & samples & win & m & Ha & Hs & Hwin & Hm & Hpa).
    destruct (po_index _ _ _ _ _ _ _ Hpick) as (bti & Hbti & Hpi).
    destruct e as (ii & index & score). cbn [fst snd] in *.
    exists j, k, ii, index, score, bti, amp, samples, win, m.
    cbv zeta. repeat (split; [assumption|]).
    split; [|split; [|split; assumption]].
    + intros nx e' He' ->. unfold next_index in Hwin. rewrite He' in Hwin.
      exact Hwin.
    + intros Hlast.
      assert (Hnone : next_index (sorted_group topk_index topk_score i j k) ii = None)
        by (apply next_index_None; lia).
      rewrite Hnone in Hwin. exact Hwin.
  - reflexivity.
  - eexists; eexists. split; [vm_compute; reflexivity|].
    repeat split.
Qed.

(** ** Merging *)

Lemma insert_file_perm (f : file) (l : list file) :
  Permutation (insert_file f l) (f :: l).
Proof.
  induction l as [|h r IH]; simpl; [reflexivity|].
  destruct (String.leb (fst f) (fst h)); [reflexivity|].
  rewrite IH. apply perm_swap.
Qed.

Lemma sorted_files_perm (l : list file) : Permutation (sorted_files l) l.
Proof.
  induction l as [|f l IH]; simpl; [reflexivity|].
  rewrite insert_file_perm. now constructor.
Qed.

Lemma insert_file_sorted (f : file) (l : list file) :
  name_sorted l -> name_sorted (insert_file f l).
Proof.
  unfold name_sorted. induction l as [|h r IH]; simpl; intros Hs.
  - repeat constructor.
  - destruct (String.leb (fst f) (fst h)) eqn:E.
    + constructor; [exact Hs | constructor; exact E].
    + apply Sorted_inv in Hs as (Hr & Hh).
      constructor; [now apply IH|].
      assert (Hhf : String.leb (fst h) (fst f) = true)
        by (destruct (String.leb_total (fst f) (fst h)); congruence).
      destruct r as [|h' r']; simpl.
      * constructor; exact Hhf.
      * destruct (String.leb (fst f) (fst h')); constructor; [exact Hhf|].
        now inversion Hh.
Qed.

Lemma sorted_files_sorted (l : list file) : name_sorted (sorted_files l).
Proof.
  induction l as [|f l IH]; simpl; [constructor|]. now apply insert_file_sorted.
Qed.

Lemma read_into_header (files : list file) (picks : list string) (h : string) :
  fst (fold_left read_into files (picks, Some h)) = picks ++ data_rows files.
Proof.
  revert picks; induction files as [|(name & lines) files IH]; intros picks.
  - simpl. now rewrite app_nil_r.
  - cbn [fold_left]. unfold read_into at 2. cbn [snd].
    unfold data_rows. cbn [map concat snd]. fold (data_rows files).
    destruct lines as [|x t]; rewrite IH; now rewrite <- app_assoc.
Qed.

Lemma read_into_no_header (files : list file) (picks : list string) :
  fst (fold_left read_into files (picks, None))
  = picks ++ header_of files ++ data_rows files.
Proof.
  revert picks; induction files as [|(name & lines) files IH]; intros picks.
  - simpl. now rewrite app_nil_r.
  - cbn [fold_left]. unfold read_into at 2. cbn [snd].
    unfold header_of, data_rows. cbn [find map concat snd].
    fold (data_rows files).
    destruct lines as [|x t]; cbn [tl firstn].
    + rewrite app_nil_r. rewrite IH. reflexivity.
    + rewrite read_into_header. cbn [snd app]. now rewrite <- !app_assoc.
Qed.

(** The merged lines of a group: the header, then the data rows of the
    files in name order. *)
Lemma merge_group_spec (files : list file) :
  merge_group files
  = header_of (sorted_files files) ++ data_rows (sorted_files files).
Proof. unfold merge_group. now rewrite read_into_no_header. Qed.

Lemma merge_das_picks_spec (dir : list file) (min_picks : Z) :
  fst (merge_das_picks dir min_picks)
  = map merged_file
        (filter (fun g => (min_picks <? Z.of_nat (List.length (merge_group (snd g))))%Z)
                (file_group dir)) /\
  snd (merge_das_picks dir min_picks)
  = list_sum (map (fun g => List.length (merge_group (snd g))) (file_group dir)).
Proof.
  unfold merge_das_picks.
  set (step := fun '(written, num_picks) '(k, files) => _).
  assert (Hgen : forall groups written n,
             fold_left step groups (written, n)
             = (written ++
                map merged_file
                    (filter (fun g => (min_picks <? Z.of_nat (List.length (merge_group (snd g))))%Z)
                            groups),
                n + list_sum (map (fun g => List.length (merge_group (snd g))) groups))).
  { induction groups as [|(k & files) groups IH]; intros written n.
    - simpl. now rewrite app_nil_r, Nat.add_0_r.
    - cbn [fold_left]. unfold step at 2. rewrite IH. cbn [filter map list_sum snd].
      destruct (min_picks <? Z.of_nat (List.length (merge_group files)))%Z.
      + cbn [map]. rewrite <- app_assoc. f_equal. simpl. lia.
      + f_equal. simpl. lia. }
  rewrite Hgen. split; reflexivity.
Qed.

Lemma copy_into_spec (files : list file) (out : list string) (b : bool) (n : nat) :
  fst (fst (fold_left copy_into files (out, b, n)))
  = out ++ (if b then header_of files else []) ++ data_rows files.
Proof.
  revert out b n; induction files as [|(name & lines) files IH]; intros out b n.
  - simpl. destruct b; now rewrite app_nil_r.
  - cbn [fold_left]. unfold copy_into at 2. cbn [snd].
    unfold header_of, data_rows. cbn [find map concat snd].
    fold (data_rows files).
    destruct lines as [|x t]; cbn [tl firstn].
    + rewrite IH. rewrite app_nil_r. reflexivity.
    + destruct b; rewrite IH; cbn [snd app]; now rewrite <- !app_assoc.
Qed.

Lemma merge_seismic_picks_spec (dir : list file) :
  fst (merge_seismic_picks dir)
  = header_of (sorted_files (filter (fun f => glob_csv (fst f)) dir)) ++
    data_rows (sorted_files (filter (fun f => glob_csv (fst f)) dir)).
Proof.
  unfold merge_seismic_picks.
  pose proof (copy_into_spec (sorted_files (filter (fun f => glob_csv (fst f)) dir))
                             [] true 0) as H.
  destruct (fold_left copy_into _ ([], true, 0)) as ((out & b) & n).
  exact H.
Qed.

Lemma data_rows_app (l1 l2 : list file) :
  data_rows (l1 ++ l2) = data_rows l1 ++ data_rows l2.
Proof. unfold data_rows. now rewrite map_app, concat_app. Qed.

(** C5, the behaviour of the code at the boundary.  [merge_das_picks]
    writes a group exactly when the number of merged lines, the header row
    included, exceeds [min_picks].  A group of one file with a header and
    exactly ten data rows is therefore written for [min_picks = 10]; it
    takes nine data rows for the group to be dropped. *)
Theorem merge_das_picks_threshold_counts_header :
  (forall dir min_picks,
     fst (merge_das_picks dir min_picks)
     = map merged_file
           (filter (fun g =>
                      (min_picks <?
                       Z.of_nat (List.length (header_of (sorted_files (snd g))) +
                                 List.length (data_rows (sorted_files (snd g)))))%Z)
                   (file_group dir))) /\
  (exists lines,
     merge_das_picks ten_rows 10 = ([("ev.csv"%string, lines)], 11) /\
     List.length (tl lines) = 10) /\
  merge_das_picks nine_rows 10 = ([], 10).
Proof.
  split; [|split].
  - intros dir min_picks.
    destruct (merge_das_picks_spec dir min_picks) as (-> & _).
    f_equal. apply filter_ext. intros g.
    now rewrite merge_group_spec, length_app.
  - eexists. split; vm_compute; reflexivity.
  - vm_compute. reflexivity.
Qed.

(** C7, the claim as stated fails: when a header-only file sorts before a
    file with data rows, both merges take the header from the header-only
    file, not from the first file that has a data row. *)
Lemma merge_header_from_header_only_file :
  sorted_files header_only_first
    = [("ev_0_0.csv", ["h1"]); ("ev_0_1.csv", ["h2"; "row"])]%string /\
  header_of_first_with_data (sorted_files header_only_first) = ["h2"]%string /\
  merge_group header_only_first = ["h1"; "row"]%string /\
  fst (merge_seismic_picks header_only_first) = ["h1"; "row"]%string /\
  merge_group header_only_first
    <> header_of_first_with_data (sorted_files header_only_first)
       ++ data_rows (sorted_files header_only_first).
Proof.
  repeat split; try (vm_compute; reflexivity).
  vm_compute. discriminate.
Qed.

(** C7, as amended.  In both merges the single header row is the first line
    of the first file, in sorted filename order, that has at least one line;
    a header-only file can supply it and only fully empty files are skipped.
    The header is followed by the lines after the first of every file, in
    the same order, so that a fully empty or header-only file contributes no
    data row.  Every file [merge_das_picks] writes is such a merge of one
    group. *)
Theorem merged_header_from_first_non_empty_file :
  (forall files,
     Permutation (sorted_files files) files /\ name_sorted (sorted_files files)) /\
  (forall files,
     merge_group files
     = header_of (sorted_files files) ++ data_rows (sorted_files files)) /\
  (forall dir min_picks name lines,
     In (name, lines) (fst (merge_das_picks dir min_picks)) ->
     exists k files,
       In (k, files) (file_group dir) /\ name = (k ++ ".csv")%string /\
       lines = merge_group files) /\
  (forall dir,
     fst (merge_seismic_picks dir)
     = header_of (sorted_files (filter (fun f => glob_csv (fst f)) dir)) ++
       data_rows (sorted_files (filter (fun f => glob_csv (fst f)) dir))) /\
  (forall before f after,
     List.length (snd f) <= 1 ->
     data_rows (before ++ f :: after) = data_rows before ++ data_rows after) /\
  (forall before f after h rest,
     (forall f', In f' before -> snd f' = []) ->
     snd f = h :: rest ->
     header_of (before ++ f :: after) = [h]).
Proof.
  split; [|split; [|split; [|split; [|split]]]].
  - intros files. split; [apply sorted_files_perm | apply sorted_files_sorted].
  - apply merge_group_spec.
  - intros dir min_picks name lines Hin.
    destruct (merge_das_picks_spec dir min_picks) as (E & _). rewrite E in Hin.
    apply in_map_iff in Hin as ((k & files) & Eg & Hg).
    apply filter_In in Hg as (Hg & _).
    unfold merged_file in Eg. cbn [fst snd] in Eg. injection Eg as <- <-.
    exists k, files. auto.
  - apply merge_seismic_picks_spec.
  - intros before f after Hf.
    rewrite data_rows_app. f_equal.
    unfold data_rows. cbn [map concat].
    destruct (snd f) as [|x [|y t]]; simpl in *; [reflexivity | reflexivity | lia].
  - intros before f after h rest Hbefore Hf. unfold header_of.
    induction before as [|f' before IH]; cbn [app find].
    + rewrite Hf. cbn iota. now rewrite Hf.
    + rewrite (Hbefore f' (or_introl eq_refl)). apply IH.
      intros; apply Hbefore; now right.
Qed.

(** ** The theorems at concrete inputs *)

Lemma extract_picks_index_and_time_witness :
  (exists topk_scores topk_inds,
     detect_peaks topk_lowest impulse300 (1 # 2) 21 1 0
       = Some (topk_scores, topk_inds) /\
     extract_picks topk_inds topk_scores impulse_kwargs = Some [[impulse_pick]]) /\
  exists p,
    extract_picks two_stations_index two_stations_score default_kwargs
      = Some [[p; Pick "0001" 10 "1970-01-01T00:00:00.100" "0.900" "P" None None]] /\
    exists j k n bti,
      begin_time_index_of default_kwargs 0 = Some bti /\
      phase_index p = (Z.of_nat (at4 two_stations_index 0 j k n) + bti)%Z.
Proof.
  split.
  { destruct (proj2 extract_picks_index_and_time topk_lowest topk_lowest_ok)
      as (ts & ti & E & Hx).
    exists ts, ti. split; [exact E | exact (Hx Float32)]. }
  assert (E : exists p,
             extract_picks two_stations_index two_stations_score default_kwargs
             = Some [[p; Pick "0001" 10 "1970-01-01T00:00:00.100" "0.900" "P" None None]])
    by (eexists; vm_compute; reflexivity).
  destruct E as (p & E). exists p. split; [exact E|].
  destruct (proj1 extract_picks_index_and_time _ _ _ _ 0 _ p E eq_refl
                  (or_introl eq_refl))
    as (j & k & n & bti & _ & _ & _ & _ & _ & _ & Hb & _ & Hp & _).
  exists j, k, n, bti. split; assumption.
Defined.

Lemma extract_picks_strictly_above_vmin_witness :
  (exists file_0,
     extract_picks two_stations_index two_stations_score default_kwargs
       = Some [file_0] /\
     List.length file_0
       = peaks_above default_kwargs two_stations_index two_stations_score 0) /\
  (extract_picks boundary_index boundary_score default_kwargs = Some [[]] /\
   0 = peaks_above default_kwargs boundary_index boundary_score 0 /\
   0 <= peaks_exceeding (3 # 10) boundary_index boundary_score 0 /\
   peaks_exceeding (3 # 10) boundary_index boundary_score 0 = 1).
Proof.
  split.
  - assert (E : exists f,
               extract_picks two_stations_index two_stations_score default_kwargs
               = Some [f])
      by (eexists; vm_compute; reflexivity).
    destruct E as (f & E). exists f. split; [exact E|].
    destruct (extract_picks_strictly_above_vmin _ _ _ _ 0 f E eq_refl)
      as (_ & (H & _) & _).
    exact H.
  - assert (E : extract_picks boundary_index boundary_score default_kwargs
                = Some [[]]) by (vm_compute; reflexivity).
    split; [exact E|].
    destruct (extract_picks_strictly_above_vmin _ _ _ _ 0 [] E eq_refl)
      as (_ & (H1 & H2) & _).
    split; [exact H1|]. split; [exact H2|].
    vm_compute. reflexivity.
Defined.

Lemma extract_picks_amplitude_window_witness :
  exists p1 p2 amp samples,
    extract_picks close_pair_index close_pair_score close_pair_kwargs
      = Some [[p1; p2]] /\
    max_abs_dim1 step_waveform = Some amp /\
    window_samples_of close_pair_kwargs 0 0 = Some samples /\
    exists win m, max_list win = Some m /\
                  phase_amplitude p1 = Some (format_3e m).
Proof.
  assert (E : exists p1 p2,
             extract_picks close_pair_index close_pair_score close_pair_kwargs
             = Some [[p1; p2]])
    by (eexists; eexists; vm_compute; reflexivity).
  destruct E as (p1 & p2 & E).
  destruct (proj1 extract_picks_amplitude_window _ _ _ step_waveform _ 0 _ p1 E
                  eq_refl eq_refl (or_introl eq_refl))
    as (j & k & ii & index & score & bti & amp & samples & win & m & H).
  cbv zeta in H.
  destruct H as (Hj & Hk & _ & _ & _ & Ha & Hs & _ & _ & Hm & Hp).
  exists p1, p2, amp, samples. split; [exact E|]. split; [exact Ha|].
  assert (j = 0) by (simpl in Hj; lia). subst j.
  split; [exact Hs|]. exists win, m. split; assumption.
Defined.

Lemma extract_picks_encounter_order_witness :
  exists groups : list (list (list pick)),
    extract_picks two_stations_index two_stations_score default_kwargs
      = Some [concat (map (@concat pick) groups)] /\
    List.length groups = 1.
Proof.
  assert (E : exists f,
             extract_picks two_stations_index two_stations_score default_kwargs
             = Some [f])
    by (eexists; vm_compute; reflexivity).
  destruct E as (f & E).
  destruct (proj1 extract_picks_encounter_order _ _ _ _ 0 f E eq_refl)
    as (groups & -> & Hlen & _).
  exists groups. split; [exact E | exact Hlen].
Defined.

Lemma merged_header_from_first_non_empty_file_witness :
  header_of ([("a.csv"%string, [])] ++
             ("b.csv"%string, ["h"%string]) ::
             [("c.csv"%string, ["g"%string; "row"%string])])
  = ["h"%string].
Proof.
  apply (proj2 (proj2 (proj2 (proj2 (proj2 merged_header_from_first_non_empty_file)))))
    with (rest := []).
  - intros f' [<-|[]]. reflexivity.
  - reflexivity.
Defined.


(** * Further properties of the code *)

(** ** Error behaviour of [detect_peaks] *)

Lemma max_pool2d_time_rejects (x : tensor4 Q) (kernel stride pad : nat) :
  kernel = 0 \/ stride = 0 \/ dim1 x = 0 \/ dim2 x = 0 \/ dim3 x = 0 ->
  max_pool2d_time x kernel stride pad = None.
Proof.
  unfold max_pool2d_time.
  intros [-> | [-> | [H | [H | H]]]]; try reflexivity.
  - destruct (0 <? kernel); reflexivity.
  - destruct (0 <? kernel), (0 <? stride), (pad <=? kernel / 2);
      cbn [guard bind]; try reflexivity. now rewrite H.
  - destruct (0 <? kernel), (0 <? stride), (pad <=? kernel / 2);
      cbn [guard bind]; try reflexivity. rewrite H.
    destruct (0 <? dim1 x); reflexivity.
  - destruct (0 <? kernel), (0 <? stride), (pad <=? kernel / 2);
      cbn [guard bind]; try reflexivity. rewrite H.
    destruct (0 <? dim1 x), (0 <? dim2 x); reflexivity.
Qed.

Lemma detect_peaks_too_many (tk : topk_fn) (scores : tensor4 Q) (vmin : Q)
      (kernel stride K : nat) :
  dim2 scores < effective_K (dim2 scores) K ->
  detect_peaks tk scores vmin kernel stride K = None.
Proof.
  intros H. unfold detect_peaks.
  destruct (nms scores kernel stride) as [out|] eqn:Hout; [|reflexivity].
  cbn [bind].
  destruct (nms_dims _ _ _ _ Hout) as (keep & Hkeep & ->).
  cbn [mask dim1 dim2]. fold (effective_K (dim2 scores) K).
  apply Nat.leb_gt in H. unfold torch_topk, view_infer_last.
  destruct (dim1 scores =? 1).
  - cbn [transpose23 dim3].
    change (dim2 (mask scores keep)) with (dim2 scores). rewrite H. reflexivity.
  - destruct (0 <? _); [cbn [guard bind]|reflexivity].
    change (dim3 (drop_channel0 (transpose23 (mask scores keep))))
      with (dim2 scores).
    rewrite H. reflexivity.
Qed.

(** [detect_peaks] raises on a zero kernel or stride, on an empty channel,
    time or station axis, and when more peaks are asked for than there are
    time samples. *)
Theorem detect_peaks_invalid_arguments (tk : topk_fn) (scores : tensor4 Q) (vmin : Q)
        (kernel stride K : nat) :
  kernel = 0 \/ stride = 0 \/ dim1 scores = 0 \/ dim2 scores = 0 \/
  dim3 scores = 0 \/ dim2 scores < effective_K (dim2 scores) K ->
  detect_peaks tk scores vmin kernel stride K = None.
Proof.
  intros H.
  destruct H as [H | [H | [H | [H | [H | H]]]]];
    try (now apply detect_peaks_too_many);
    unfold detect_peaks, nms, nms_keep;
    rewrite max_pool2d_time_rejects by tauto; reflexivity.
Qed.

Lemma detect_peaks_invalid_arguments_witness :
  detect_peaks topk_lowest spike3 (3 # 10) 3 1 4 = None.
Proof.
  apply detect_peaks_invalid_arguments. do 5 right. unfold effective_K. simpl. lia.
Defined.

(** A stride between 2 and T - 1 makes the pooled tensor shorter than the
    scores without reducing it to a single sample, so the comparison of the
    two raises: [detect_peaks] only works with stride 1 (or with a stride
    of at least T, which pools the slice into one window). *)
Theorem detect_peaks_rejects_stride (tk : topk_fn) (scores : tensor4 Q)
        (vmin : Q) (kernel stride K : nat) :
  2 <= stride -> stride < dim2 scores ->
  detect_peaks tk scores vmin kernel stride K = None.
Proof.
  intros H2 HT. unfold detect_peaks.
  assert (Hnms : nms scores kernel stride = None); [|now rewrite Hnms].
  unfold nms, nms_keep.
  destruct (max_pool2d_time scores kernel stride (kernel / 2)) as [smax|] eqn:E;
    [|reflexivity].
  cbn [bind]. unfold max_pool2d_time in E.
  inv_bind E. injection E as <-.
  unfold eq_broadcast.
  apply Nat.leb_le in G3.
  set (T := dim2 scores) in *.
  set (d := T + 2 * (kernel / 2) - kernel).
  assert (Hd : T - 1 <= d <= T).
  { unfold d. pose proof (Nat.div_mod_eq kernel 2) as Hk.
    pose proof (Nat.mod_upper_bound kernel 2 ltac:(lia)). lia. }
  assert (Hlo : 0 < d / stride) by (apply Nat.div_str_pos; lia).
  assert (Hhi : d / stride < T - 1)
    by (apply Nat.Div0.div_lt_upper_bound; nia).
  match goal with
  | |- context [dim2 (take_dim2 ?n ?x)] =>
      change (dim2 (take_dim2 n x)) with (Nat.min T (d / stride + 1))
  end.
  replace (Nat.min T (d / stride + 1) =? T) with false
    by (symmetry; apply Nat.eqb_neq; lia).
  replace (Nat.min T (d / stride + 1) =? 1) with false
    by (symmetry; apply Nat.eqb_neq; lia).
  reflexivity.
Qed.

Lemma detect_peaks_rejects_stride_witness :
  detect_peaks topk_lowest spike3 (3 # 10) 3 2 0 = None.
Proof.
  apply detect_peaks_rejects_stride; simpl; lia.
Defined.

(** ** The default number of peaks *)

Lemma default_K_bounds (nt : nat) :
  3 <= default_K nt /\ (3 <= nt -> default_K nt <= nt).
Proof.
  unfold default_K. split; [apply Nat.le_max_r|]. intros H3.
  apply Nat.max_lub; [|exact H3].
  pose proof (round_half_even_bounds (inject_Z (Z.of_nat nt) * 10 / 3000)) as (_ & Hhi).
  assert (Hf : Qfloor (inject_Z (Z.of_nat nt) * 10 / 3000)
               = (Z.of_nat nt * 10 / 3000)%Z).
  { unfold Qfloor, Qdiv, Qmult, Qinv, inject_Z. simpl. now rewrite !Z.mul_1_r. }
  rewrite Hf in Hhi.
  assert (Hdiv : (Z.of_nat nt * 10 / 3000 <= Z.of_nat nt - 1)%Z)
    by (apply Z.div_le_upper_bound; lia).
  lia.
Qed.

Lemma default_K_small (nt : nat) : nt < 1050 -> default_K nt = 3.
Proof.
  intros H.
  assert (Hall : forallb (fun n => default_K n =? 3) (seq 0 1050) = true)
    by (vm_compute; reflexivity).
  rewrite forallb_forall in Hall. apply Nat.eqb_eq, Hall, in_seq. lia.
Qed.

Lemma detect_peaks_dim3 (tk : topk_fn) (scores : tensor4 Q) (vmin : Q)
      (kernel stride K : nat) (topk_scores : tensor4 Q) (topk_inds : tensor4 nat) :
  detect_peaks tk scores vmin kernel stride K = Some (topk_scores, topk_inds) ->
  dim3 topk_scores = effective_K (dim2 scores) K /\
  dim3 topk_inds = effective_K (dim2 scores) K.
Proof.
  unfold detect_peaks. intros H.
  apply bind_Some in H as (out & Hout & H).
  destruct (nms_dims _ _ _ _ Hout) as (keep & _ & ->).
  cbn [mask dim1 dim2] in H. fold (effective_K (dim2 scores) K) in H.
  apply bind_Some in H as ((ts & ti) & Htk & H). injection H as <- <-.
  unfold torch_topk in Htk.
  destruct (dim1 scores =? 1); inv_bind Htk; injection Htk as <- <-;
    split; reflexivity.
Qed.

(** With [K = 0] the number of peaks per group is
    [max(round(T * 10 / 3000), 3)]: at least 3, and exactly 3 for fewer
    than 1050 time samples.  Hence [detect_peaks] with the default [K]
    raises on a tensor with fewer than 3 time samples, whatever the kernel
    and stride, and for an odd kernel, stride 1, at least 3 time samples
    and a batch that is not empty (or a single channel) it returns that
    many peaks for every group. *)
Theorem detect_peaks_default_K (tk : topk_fn) (scores : tensor4 Q) (vmin : Q) :
  (forall kernel stride,
     dim2 scores < 3 -> detect_peaks tk scores vmin kernel stride 0 = None) /\
  (forall pad,
     0 < dim0 scores \/ dim1 scores = 1 ->
     0 < dim1 scores -> 3 <= dim2 scores -> 0 < dim3 scores ->
     exists topk_scores topk_inds,
       detect_peaks tk scores vmin (2 * pad + 1) 1 0
         = Some (topk_scores, topk_inds) /\
       dim3 topk_scores = default_K (dim2 scores) /\
       dim3 topk_inds = default_K (dim2 scores) /\
       3 <= default_K (dim2 scores) <= dim2 scores /\
       (dim2 scores < 1050 -> default_K (dim2 scores) = 3)).
Proof.
  split.
  - intros kernel stride H. apply detect_peaks_too_many.
    unfold effective_K. cbn [Nat.eqb].
    pose proof (default_K_bounds (dim2 scores)) as (H3 & _). lia.
  - intros pad H0 H1 H2 H3.
    destruct (default_K_bounds (dim2 scores)) as (Hlo & Hhi).
    assert (Hout : nms scores (2 * pad + 1) 1 = Some _)
      by (unfold nms; rewrite (nms_keep_odd scores pad) by lia; reflexivity).
    destruct (detect_peaks_succeeds tk scores vmin (2 * pad + 1) 1 0 _ Hout)
      as (ts & ti & E); [unfold effective_K; cbn [Nat.eqb]; auto | exact H0 |].
    destruct (detect_peaks_dim3 _ _ _ _ _ _ _ _ E) as (A3 & B3).
    exists ts, ti. repeat split; auto.
    apply default_K_small.
Qed.

Lemma detect_peaks_default_K_witness :
  exists topk_scores topk_inds,
    detect_peaks topk_lowest spike3 (3 # 10) (2 * 1 + 1) 1 0
      = Some (topk_scores, topk_inds) /\
    dim3 topk_scores = 3.
Proof.
  destruct (proj2 (detect_peaks_default_K topk_lowest spike3 (3 # 10)) 1)
    as (ts & ti & E & A3 & _ & _ & Hsmall);
    [left; simpl; lia | simpl; lia | simpl; lia | simpl; lia |].
  exists ts, ti. split; [exact E|]. rewrite A3. apply Hsmall. simpl. lia.
Defined.

(** ** Order and dominance of the returned peaks *)

(** The scores of a group are returned in descending order, and every time
    sample that is not among the returned indices has a suppressed score no
    larger than any returned score. *)
Theorem detect_peaks_descending_and_dominant (tk : topk_fn) (scores : tensor4 Q)
        (vmin : Q) (kernel stride K : nat)
        (topk_scores : tensor4 Q) (topk_inds : tensor4 nat) :
  topk_contract tk ->
  detect_peaks tk scores vmin kernel stride K = Some (topk_scores, topk_inds) ->
  exists out,
    nms scores kernel stride = Some out /\
    forall b c s,
      descending (row topk_scores b c s) /\
      forall t v,
        t < dim2 scores -> ~ In t (row topk_inds b c s) ->
        In v (row topk_scores b c s) ->
        (at4 out b (source_channel (dim1 scores) c) t s <= v)%Q.
Proof.
  intros tk_ok H.
  destruct (detect_peaks_rows tk tk_ok _ _ _ _ _ _ _ H)
    as (out & Hout & HK & _ & _ & _ & _ & _ & _ & _ & _ & Hrow).
  exists out. split; [exact Hout|].
  intros b c s. specialize (Hrow b c s).
  set (xs := series out b (source_channel (dim1 scores) c) s) in *.
  assert (Hlen : List.length xs = dim2 scores).
  { unfold xs. rewrite series_length.
    destruct (nms_dims _ _ _ _ Hout) as (? & _ & ->). reflexivity. }
  assert (HL : effective_K (dim2 scores) K <= List.length xs) by lia.
  pose proof (topk_sorted tk tk_ok _ _ HL) as Hs.
  pose proof (topk_values tk tk_ok _ _ HL) as Hv.
  pose proof (topk_largest tk tk_ok xs (effective_K (dim2 scores) K)) as Hbig.
  rewrite <- Hrow in Hs, Hv, Hbig. cbn [fst snd] in Hs, Hv, Hbig.
  split; [exact Hs|].
  intros t v Ht Hnin Hin. rewrite Hv in Hin.
  apply in_map_iff in Hin as (i & <- & Hi).
  specialize (Hbig i t HL Hi ltac:(lia) Hnin).
  unfold xs in Hbig at 1. rewrite series_nth in Hbig; [exact Hbig|].
  destruct (nms_dims _ _ _ _ Hout) as (? & _ & ->). exact Ht.
Qed.

Lemma detect_peaks_descending_and_dominant_witness :
  exists topk_scores topk_inds,
    detect_peaks topk_lowest spike3 (3 # 10) 3 1 2 = Some (topk_scores, topk_inds) /\
    descending (row topk_scores 0 0 0).
Proof.
  assert (E : exists ts ti,
             detect_peaks topk_lowest spike3 (3 # 10) 3 1 2 = Some (ts, ti))
    by (eexists; eexists; vm_compute; reflexivity).
  destruct E as (ts & ti & E).
  destruct (detect_peaks_descending_and_dominant _ _ _ _ _ _ ts ti topk_lowest_ok E)
    as (out & _ & Hall).
  exists ts, ti. split; [exact E | apply Hall].
Defined.

(** ** More on suppression *)

Lemma keep_odd_iff (scores : tensor4 Q) (pad : nat) (keep : tensor4 bool)
      (b c t s : nat) :
  nms_keep scores (2 * pad + 1) 1 = Some keep ->
  t < dim2 scores ->
  at4 keep b c t s = true <->
  window_max (fun u => at4 scores b c u s) (dim2 scores) pad t (at4 scores b c t s).
Proof.
  intros H Ht.
  destruct (nms_keep_Some_dims _ _ _ _ H) as (H1 & H2 & H3).
  rewrite (nms_keep_odd scores pad H1 H2 H3) in H. injection H as <-.
  cbn [at4]. apply (xeqb_window_max (fun u => at4 scores b c u s)). exact Ht.
Qed.

(** For an odd kernel [2 * pad + 1] and stride 1: two returned peaks of a
    group whose scores are not 0 and whose time indices are at most [pad]
    apart have equal scores: within its suppression radius a peak is never
    accompanied by a different score. *)
Theorem detect_peaks_close_peaks_tie (tk : topk_fn) (scores : tensor4 Q)
        (vmin : Q) (pad K : nat)
        (topk_scores : tensor4 Q) (topk_inds : tensor4 nat) (b c s n m : nat) :
  topk_contract tk ->
  detect_peaks tk scores vmin (2 * pad + 1) 1 K = Some (topk_scores, topk_inds) ->
  n < dim3 topk_scores -> m < dim3 topk_scores ->
  ~ (at4 topk_scores b c s n == 0)%Q -> ~ (at4 topk_scores b c s m == 0)%Q ->
  at4 topk_inds b c s n <= at4 topk_inds b c s m + pad ->
  at4 topk_inds b c s m <= at4 topk_inds b c s n + pad ->
  (at4 topk_scores b c s n == at4 topk_scores b c s m)%Q.
Proof.
  intros tk_ok H Hn Hm Hnz Hmz Hnm Hmn.
  destruct (detect_peaks_entry tk tk_ok _ _ _ _ _ _ _ H) as (keep & Hkeep & Hent).
  destruct (Hent b c s n Hn) as (Htn & Evn).
  destruct (Hent b c s m Hm) as (Htm & Evm).
  set (c' := source_channel (dim1 scores) c) in *.
  set (tn := at4 topk_inds b c s n) in *.
  set (tm := at4 topk_inds b c s m) in *.
  cbn [mask at4] in Evn, Evm.
  destruct (at4 keep b c' tn s) eqn:Kn; [|exfalso; apply Hnz; now rewrite Evn].
  destruct (at4 keep b c' tm s) eqn:Km; [|exfalso; apply Hmz; now rewrite Evm].
  apply (keep_odd_iff scores pad keep b c' tn s Hkeep Htn) in Kn as (_ & Hmaxn).
  apply (keep_odd_iff scores pad keep b c' tm s Hkeep Htm) in Km as (_ & Hmaxm).
  rewrite Evn, Evm. apply Qle_antisym.
  - apply Hmaxm. unfold in_window. lia.
  - apply Hmaxn. unfold in_window. lia.
Qed.

Lemma plateau5_detected :
  detect_peaks topk_lowest plateau5 (3 # 10) (2 * 1 + 1) 1 0
  = Some (peaks_scores (detect_peaks topk_lowest plateau5 (3 # 10) (2 * 1 + 1) 1 0),
          peaks_inds (detect_peaks topk_lowest plateau5 (3 # 10) (2 * 1 + 1) 1 0)).
Proof.
  assert (Hout : nms plateau5 (2 * 1 + 1) 1 = Some _)
    by (unfold nms; rewrite (nms_keep_odd plateau5 1) by (simpl; lia); reflexivity).
  destruct (detect_peaks_succeeds topk_lowest plateau5 (3 # 10) (2 * 1 + 1) 1 0 _ Hout)
    as (ts & ti & E); [vm_compute; lia | left; simpl; lia |].
  rewrite E. reflexivity.
Qed.

Lemma detect_peaks_close_peaks_tie_witness :
  (at4 (peaks_scores (detect_peaks topk_lowest plateau5 (3 # 10) (2 * 1 + 1) 1 0))
       0 0 0 0
   == at4 (peaks_scores (detect_peaks topk_lowest plateau5 (3 # 10) (2 * 1 + 1) 1 0))
          0 0 0 1)%Q.
Proof.
  apply (detect_peaks_close_peaks_tie topk_lowest plateau5 (3 # 10) 1 0 _ _ 0 0 0 0 1
           topk_lowest_ok plateau5_detected).
  - vm_compute. lia.
  - vm_compute. lia.
  - intros H. vm_compute in H. discriminate.
  - intros H. vm_compute in H. discriminate.
  - vm_compute. lia.
  - vm_compute. lia.
Defined.

Lemma slice_argmax (f : nat -> Q) (n : nat) :
  0 < n -> exists u, u < n /\ forall t, t < n -> (f t <= f u)%Q.
Proof.
  intros Hn.
  destruct (fold_xmax_spec f (seq 0 n) NegInf) as (m & _ & Hatt & _ & Hall).
  { left. destruct n; [lia | discriminate]. }
  destruct Hatt as [Hatt|(u & Hu & Eu)]; [discriminate|].
  apply in_seq in Hu. exists u. split; [lia|].
  intros t Ht. rewrite Eu. apply Hall, in_seq. lia.
Qed.

(** On a slice of non-negative scores the first returned peak is the
    maximum of the slice: its score bounds every score of the slice and is
    the input score at its index. *)
Theorem detect_peaks_first_is_maximum (tk : topk_fn) (scores : tensor4 Q)
        (vmin : Q) (pad K : nat)
        (topk_scores : tensor4 Q) (topk_inds : tensor4 nat) (b c s : nat) :
  topk_contract tk ->
  detect_peaks tk scores vmin (2 * pad + 1) 1 K = Some (topk_scores, topk_inds) ->
  (forall t, t < dim2 scores ->
             (0 <= at4 scores b (source_channel (dim1 scores) c) t s)%Q) ->
  at4 topk_inds b c s 0 < dim2 scores /\
  (at4 topk_scores b c s 0
   == at4 scores b (source_channel (dim1 scores) c) (at4 topk_inds b c s 0) s)%Q /\
  forall t, t < dim2 scores ->
    (at4 scores b (source_channel (dim1 scores) c) t s <= at4 topk_scores b c s 0)%Q.
Proof.
  intros tk_ok H Hpos.
  destruct (detect_peaks_rows tk tk_ok _ _ _ _ _ _ _ H)
    as (out & Hout & HK & _ & _ & _ & _ & _ & _ & A3 & B3 & Hrow).
  destruct (detect_peaks_entry tk tk_ok _ _ _ _ _ _ _ H) as (keep & Hkeep & Hent).
  destruct (nms_dims _ _ _ _ Hout) as (keep' & Hkeep' & Eout).
  assert (keep' = keep) by congruence. subst keep'.
  destruct (nms_keep_Some_dims _ _ _ _ Hkeep) as (_ & HT & _).
  set (c' := source_channel (dim1 scores) c) in *.
  assert (HK0 : 0 < effective_K (dim2 scores) K).
  { unfold effective_K. destruct K; cbn [Nat.eqb]; [|lia].
    pose proof (default_K_bounds (dim2 scores)). lia. }
  destruct (Hent b c s 0) as (Ht0 & Ev0); [lia|]. fold c' in Ev0.
  set (t0 := at4 topk_inds b c s 0) in *.
  set (v0 := at4 topk_scores b c s 0) in *.
  specialize (Hrow b c s). fold c' in Hrow.
  set (xs := series out b c' s) in *.
  assert (Hlen : List.length xs = dim2 scores)
    by (unfold xs; rewrite series_length, Eout; reflexivity).
  assert (Hxs : forall t, t < dim2 scores -> nth t xs 0%Q = at4 out b c' t s)
    by (intros t Ht; unfold xs; apply series_nth; rewrite Eout; exact Ht).
  assert (HL : effective_K (dim2 scores) K <= List.length xs) by lia.
  pose proof (topk_sorted tk tk_ok _ _ HL) as Hs.
  pose proof (topk_values tk tk_ok _ _ HL) as Hv.
  pose proof (topk_largest tk tk_ok xs (effective_K (dim2 scores) K)) as Hbig.
  rewrite <- Hrow in Hs, Hv, Hbig. cbn [fst snd] in Hs, Hv, Hbig.
  assert (Hin0 : In t0 (row topk_inds b c s)).
  { unfold t0. rewrite <- (row_nth topk_inds b c s 0 0) by lia.
    apply nth_In. rewrite row_length. lia. }
  (* the position of the slice maximum survives and bounds everything *)
  destruct (slice_argmax (fun t => at4 scores b c' t s) (dim2 scores) HT)
    as (u & Hu & Hmax).
  assert (Hku : at4 keep b c' u s = true).
  { apply (keep_odd_iff scores pad keep b c' u s Hkeep Hu). split.
    - exists u. split; [unfold in_window; lia | reflexivity].
    - intros t (_ & _ & Ht). now apply Hmax. }
  assert (Hou : at4 out b c' u s = at4 scores b c' u s)
    by (rewrite Eout; cbn [mask at4]; now rewrite Hku).
  assert (Hle : (at4 scores b c' u s <= v0)%Q).
  { rewrite <- Hou, <- (Hxs u Hu).
    destruct (in_dec Nat.eq_dec u (row topk_inds b c s)) as [Hin|Hnin].
    - assert (Hinv : In (nth u xs 0%Q) (row topk_scores b c s))
        by (rewrite Hv; now apply (in_map (fun i => nth i xs 0%Q))).
      assert (Hrow0 : nth 0 (row topk_scores b c s) 0%Q = v0)
        by (apply row_nth; lia).
      destruct (row topk_scores b c s) as [|h rest] eqn:Er; [destruct Hinv|].
      cbn [nth] in Hrow0. subst h. destruct Hs as (Hall & _).
      destruct Hinv as [<-|Hinv]; [apply Qle_refl|].
      rewrite Forall_forall in Hall. now apply Hall.
    - eapply Qle_trans; [exact (Hbig t0 u HL Hin0 ltac:(lia) Hnin)|].
      rewrite (Hxs t0 Ht0). subst v0. rewrite Ev0, Eout. apply Qle_refl. }
  assert (Hbound : forall t, t < dim2 scores -> (at4 scores b c' t s <= v0)%Q).
  { intros t Ht. eapply Qle_trans; [apply Hmax; exact Ht | exact Hle]. }
  split; [exact Ht0|]. split; [|exact Hbound].
  cbn [mask at4] in Ev0. destruct (at4 keep b c' t0 s).
  - rewrite Ev0. reflexivity.
  - apply Qle_antisym.
    + rewrite Ev0. now apply Hpos.
    + now apply Hbound.
Qed.

Lemma detect_peaks_first_is_maximum_witness :
  at4 (peaks_inds (detect_peaks topk_lowest plateau5 (3 # 10) (2 * 1 + 1) 1 0))
      0 0 0 0 < dim2 plateau5 /\
  (at4 (peaks_scores (detect_peaks topk_lowest plateau5 (3 # 10) (2 * 1 + 1) 1 0))
       0 0 0 0
   == at4 plateau5 0 (source_channel (dim1 plateau5) 0)
          (at4 (peaks_inds (detect_peaks topk_lowest plateau5 (3 # 10) (2 * 1 + 1) 1 0))
               0 0 0 0) 0)%Q /\
  forall t, t < dim2 plateau5 ->
    (at4 plateau5 0 (source_channel (dim1 plateau5) 0) t 0
     <= at4 (peaks_scores (detect_peaks topk_lowest plateau5 (3 # 10) (2 * 1 + 1) 1 0))
            0 0 0 0)%Q.
Proof.
  apply (detect_peaks_first_is_maximum topk_lowest plateau5 (3 # 10) 1 0 _ _ 0 0 0
           topk_lowest_ok plateau5_detected).
  intros t Ht. do 5 (destruct t as [|t]; [vm_compute; discriminate|]).
  simpl in Ht. lia.
Defined.

(** Suppression is idempotent on non-negative scores: applying it to its own
    result changes no sample. *)
Theorem nms_idempotent (scores out : tensor4 Q) (pad : nat) :
  nms scores (2 * pad + 1) 1 = Some out ->
  (forall b c t s, t < dim2 scores -> (0 <= at4 scores b c t s)%Q) ->
  exists out',
    nms out (2 * pad + 1) 1 = Some out' /\
    forall b c t s, t < dim2 scores -> at4 out' b c t s = at4 out b c t s.
Proof.
  intros H Hpos.
  destruct (nms_dims _ _ _ _ H) as (keep & Hkeep & Eout).
  destruct (nms_keep_Some_dims _ _ _ _ Hkeep) as (H1 & H2 & H3).
  assert (D1 : dim1 out = dim1 scores) by (subst out; reflexivity).
  assert (D2 : dim2 out = dim2 scores) by (subst out; reflexivity).
  assert (D3 : dim3 out = dim3 scores) by (subst out; reflexivity).
  pose proof (nms_keep_odd out pad) as Hkeep2.
  specialize (Hkeep2 ltac:(lia) ltac:(lia) ltac:(lia)).
  eexists. split; [unfold nms; rewrite Hkeep2; reflexivity|].
  intros b c t s Ht. cbn [mask at4].
  destruct (xeqb _ _) eqn:E2; [reflexivity|].
  rewrite Eout. cbn [mask at4].
  destruct (at4 keep b c t s) eqn:K; [|reflexivity].
  exfalso.
  assert (E2' : xeqb (pool_at (fun u => at4 out b c u s) (dim2 out)
                              (2 * pad + 1) pad (t * 1)) (at4 out b c t s) = true).
  { apply (xeqb_window_max (fun u => at4 out b c u s)); [lia|].
    apply (keep_odd_iff scores pad keep b c t s Hkeep Ht) in K as (_ & Hmax).
    assert (Et : at4 out b c t s = at4 scores b c t s).
    { rewrite Eout. cbn [mask at4].
      destruct (at4 keep b c t s) eqn:K'; [reflexivity|].
      exfalso. clear E2.
      assert (at4 keep b c t s = true); [|congruence].
      apply (keep_odd_iff scores pad keep b c t s Hkeep Ht). split.
      - exists t. split; [unfold in_window; lia | reflexivity].
      - exact Hmax. }
    split.
    - exists t. split; [unfold in_window; lia | reflexivity].
    - intros u (Hu1 & Hu2 & Hu3). rewrite Et, D2 in *.
      rewrite Eout. cbn [mask at4].
      destruct (at4 keep b c u s).
      + apply Hmax. unfold in_window. lia.
      + now apply Hpos. }
  rewrite Eout in E2'. rewrite Eout in E2. cbn [mask] in E2', E2.
  congruence.
Qed.

Lemma nms_idempotent_witness :
  exists out out',
    nms plateau5 (2 * 1 + 1) 1 = Some out /\
    nms out (2 * 1 + 1) 1 = Some out' /\
    forall t, t < 5 -> at4 out' 0 0 t 0 = at4 out 0 0 t 0.
Proof.
  assert (Hout : nms plateau5 (2 * 1 + 1) 1 = Some _)
    by (unfold nms; rewrite (nms_keep_odd plateau5 1) by (simpl; lia); reflexivity).
  destruct (nms_idempotent plateau5 _ 1 Hout) as (out' & Hout' & Hsame).
  { intros b c t s _. simpl.
    do 5 (destruct t as [|t]; [vm_compute; discriminate|]).
    destruct t; vm_compute; discriminate. }
  eexists; exists out'. split; [exact Hout|]. split; [exact Hout'|].
  intros t Ht. apply Hsame. exact Ht.
Defined.

(** ** The callers: suppression, selection and extraction together *)

Lemma predict_picks_Some (tk : topk_fn) (scores : tensor4 Q) (kw : kwargs)
      (picks : list (list pick)) :
  predict_picks tk scores kw = Some picks ->
  exists topk_scores topk_inds,
    detect_peaks tk scores (kw_vmin kw) (2 * 10 + 1) 1 0
      = Some (topk_scores, topk_inds) /\
    extract_picks topk_inds topk_scores kw = Some picks.
Proof.
  unfold predict_picks. intros H.
  apply bind_Some in H as ((ts & ti) & E & H). exists ts, ti. split; assumption.
Qed.

(** With a non-negative [vmin], every pick the callers obtain sits on a
    sample that survived suppression: a time index [t] of the score tensor
    whose score is the maximum of its window of radius 10 and exceeds
    [vmin]; the pick's [phase_score] is that input score, its [phase_index]
    is [t] plus the time offset, and its phase type is the label of the
    score channel minus the dropped background channel. *)
Theorem predict_picks_on_local_maxima (tk : topk_fn) (scores : tensor4 Q)
        (kw : kwargs) (picks : list (list pick)) (i : nat) (file_i : list pick)
        (p : pick) :
  topk_contract tk ->
  (0 <= kw_vmin kw)%Q ->
  predict_picks tk scores kw = Some picks ->
  nth_error picks i = Some file_i ->
  In p file_i ->
  exists j k t bti,
    j < peak_channels (dim1 scores) /\ k < dim3 scores /\ t < dim2 scores /\
    window_max (fun u => at4 scores i (source_channel (dim1 scores) j) u k)
               (dim2 scores) 10 t
               (at4 scores i (source_channel (dim1 scores) j) t k) /\
    (kw_vmin kw < at4 scores i (source_channel (dim1 scores) j) t k)%Q /\
    phase_score p = format_3f (at4 scores i (source_channel (dim1 scores) j) t k) /\
    begin_time_index_of kw i = Some bti /\
    phase_index p = (Z.of_nat t + bti)%Z /\
    nth_error (kw_phases kw) j = Some (phase_type p).
Proof.
  intros tk_ok Hvmin H Hi Hp.
  destruct (predict_picks_Some _ _ _ _ H) as (ts & ti & E & Hx).
  destruct (detect_peaks_rows tk tk_ok _ _ _ _ _ _ _ E)
    as (out & Hout & _ & _ & _ & A1 & _ & A2 & _ & A3 & B3 & _).
  destruct (detect_peaks_entry tk tk_ok _ _ _ _ _ _ _ E) as (keep & Hkeep & Hent).
  destruct (pick_origin _ _ _ _ _ _ _ Hx Hi Hp)
    as (j & k & e & Hj & Hk & He & Habove & Hpick).
  destruct (sorted_group_entry _ _ _ _ _ _ He) as (n & Hn & Eidx & Esc).
  destruct (Hent i j k n) as (Ht & Ev); [lia|].
  set (c' := source_channel (dim1 scores) j) in *.
  set (t := at4 ti i j k n) in *.
  unfold above in Habove. rewrite Esc, Ev in Habove. apply above_vmin_lt in Habove.
  cbn [mask at4] in Habove, Ev.
  destruct (at4 keep i c' t k) eqn:K;
    [|exfalso; apply (Qlt_not_le _ _ Habove); exact Hvmin].
  destruct (po_index _ _ _ _ _ _ _ Hpick) as (bti & Hbti & Hpi).
  exists j, k, t, bti. fold c'.
  split; [unfold peak_channels; lia|]. split; [lia|]. split; [exact Ht|].
  split; [now apply (keep_odd_iff scores 10 keep i c' t k Hkeep Ht)|].
  split; [exact Habove|].
  split; [rewrite <- Ev, <- Esc; apply (po_score _ _ _ _ _ _ _ Hpick)|].
  split; [exact Hbti|].
  split; [rewrite Hpi, Eidx; reflexivity|].
  apply (po_type _ _ _ _ _ _ _ Hpick).
Qed.

Lemma predict_picks_on_local_maxima_witness :
  exists j k t,
    (kw_vmin impulse_kwargs < at4 impulse300 0 (source_channel 2 j) t k)%Q /\
    phase_score impulse_pick = format_3f (at4 impulse300 0 (source_channel 2 j) t k).
Proof.
  assert (E : predict_picks topk_lowest impulse300 impulse_kwargs
              = Some [[impulse_pick]]) by (vm_compute; reflexivity).
  destruct (predict_picks_on_local_maxima topk_lowest impulse300 impulse_kwargs
              _ 0 _ impulse_pick topk_lowest_ok ltac:(vm_compute; discriminate)
              E eq_refl (or_introl eq_refl))
    as (j & k & t & bti & _ & _ & _ & _ & Hv & Hs & _).
  exists j, k, t. split; assumption.
Defined.

Lemma forallb_false_exists {A : Type} (f : A -> bool) (l : list A) :
  forallb f l = false -> exists x, In x l /\ f x = false.
Proof.
  induction l as [|a l IH]; simpl; [discriminate|].
  destruct (f a) eqn:E; simpl; intros H.
  - destruct (IH H) as (x & Hx & Hf). exists x. auto.
  - exists a. auto.
Qed.

Lemma filter_all {A : Type} (f : A -> bool) (l : list A) :
  (forall x, In x l -> f x = true) -> filter f l = l.
Proof.
  induction l as [|a l IH]; simpl; intros H; [reflexivity|].
  rewrite (H a (or_introl eq_refl)). f_equal. apply IH. auto.
Qed.

Lemma filter_length_le {A : Type} (f : A -> bool) (l : list A) :
  List.length (filter f l) <= List.length l.
Proof.
  induction l as [|a l IH]; simpl; [lia|]. destruct (f a); simpl; lia.
Qed.

(** Among the [K] selected positions, the number of those whose value
    passes a test that is monotone in the value is [K] or the number of
    all such positions, whichever is smaller. *)
Lemma topk_count_above (tk : topk_fn) (xs : list Q) (K : nat) (c : Q -> bool) :
  topk_contract tk -> K <= List.length xs ->
  (forall a b, c a = true -> (a <= b)%Q -> c b = true) ->
  List.length (filter (fun i => c (nth i xs 0%Q)) (snd (tk xs K)))
  = Nat.min K (List.length (filter (fun t => c (nth t xs 0%Q))
                                   (range (List.length xs)))).
Proof.
  intros tk_ok HL Hmono.
  pose proof (topk_length tk tk_ok _ _ HL) as Hl.
  pose proof (topk_range tk tk_ok _ _ HL) as Hr.
  pose proof (topk_nodup tk tk_ok _ _ HL) as Hnd.
  pose proof (topk_largest tk tk_ok xs K) as Hbig.
  set (inds := snd (tk xs K)) in *.
  set (P := fun t => c (nth t xs 0%Q)).
  rewrite Forall_forall in Hr.
  assert (Hup1 : List.length (filter P inds) <= K)
    by (rewrite <- Hl; apply filter_length_le).
  assert (Hup2 : List.length (filter P inds)
                 <= List.length (filter P (range (List.length xs)))).
  { apply NoDup_incl_length; [now apply NoDup_filter|].
    intros t Ht. apply filter_In in Ht as (Ht & HP).
    apply filter_In. split; [|exact HP]. unfold range. apply in_seq.
    specialize (Hr t Ht). lia. }
  destruct (forallb (fun t => negb (P t) || existsb (Nat.eqb t) inds)
                    (range (List.length xs))) eqn:E.
  - rewrite forallb_forall in E.
    assert (Hlow : List.length (filter P (range (List.length xs)))
                   <= List.length (filter P inds)).
    { apply NoDup_incl_length; [apply NoDup_filter, seq_NoDup|].
      intros t Ht. apply filter_In in Ht as (Ht & HP).
      apply filter_In. split; [|exact HP].
      specialize (E t Ht). rewrite HP in E. cbn in E.
      apply existsb_exists in E as (x & Hx & Ex).
      apply Nat.eqb_eq in Ex. now subst x. }
    lia.
  - apply forallb_false_exists in E as (t & Ht & Ef).
    apply orb_false_iff in Ef as (HP & Hnin).
    apply negb_false_iff in HP.
    unfold range in Ht. apply in_seq in Ht.
    assert (Hnin' : ~ In t inds).
    { intros Hin.
      assert (existsb (Nat.eqb t) inds = true); [|congruence].
      apply existsb_exists. exists t. split; [exact Hin | apply Nat.eqb_refl]. }
    assert (Hall : filter P inds = inds).
    { apply filter_all. intros i Hi. unfold P in *.
      apply (Hmono _ _ HP). apply (Hbig i t HL Hi); [lia | exact Hnin']. }
    fold P. rewrite Hall in *. rewrite Hl in *. lia.
Qed.

Lemma filter_nth_range {A : Type} (g : A -> bool) (l : list A) (d : A) :
  List.length (filter (fun n => g (nth n l d)) (range (List.length l)))
  = List.length (filter g l).
Proof.
  rewrite <- (filter_map_length g (fun n => nth n l d)).
  now rewrite map_nth_range.
Qed.

Lemma file_picks_count (topk_index : tensor4 nat) (topk_score : tensor4 Q)
      (kw : kwargs) (picks : list (list pick)) (i : nat) (file_i : list pick) :
  extract_picks topk_index topk_score kw = Some picks ->
  nth_error picks i = Some file_i ->
  List.length file_i = peaks_above kw topk_index topk_score i.
Proof.
  intros H Hi.
  destruct (extract_picks_spec _ _ _ _ H) as (_ & Hfiles).
  destruct (Hfiles i file_i Hi) as (_ & groups & -> & Hlen & Hgroups).
  rewrite length_concat_sum, map_map. unfold peaks_above. f_equal.
  unfold range at 1. rewrite <- Hlen. apply map_eq_seq.
  intros j gs Hgs. destruct (Hgroups j gs Hgs) as (_ & Hok).
  now apply groups_ok_length.
Qed.

(** The number of picks the callers obtain for a batch element: every
    (class, station) slice contributes the number of its samples whose
    suppressed score passes the test [score > vmin] as [extract_picks]
    makes it (in the element type of the score tensor, to which [vmin] is
    converted), capped at the number K of peaks kept per slice.  No
    candidate that passes the test is lost unless a slice has more than K
    of them. *)
Theorem predict_picks_count (tk : topk_fn) (scores : tensor4 Q) (kw : kwargs)
        (picks : list (list pick)) (i : nat) (file_i : list pick) :
  topk_contract tk ->
  predict_picks tk scores kw = Some picks ->
  nth_error picks i = Some file_i ->
  exists out,
    nms scores 21 1 = Some out /\
    List.length file_i
    = list_sum
        (map (fun j =>
                list_sum
                  (map (fun k =>
                          Nat.min (default_K (dim2 scores))
                                  (slice_above kw out i
                                               (source_channel (dim1 scores) j) k))
                       (range (dim3 scores))))
             (range (peak_channels (dim1 scores)))).
Proof.
  intros tk_ok H Hi.
  destruct (predict_picks_Some _ _ _ _ H) as (ts & ti & E & Hx).
  destruct (detect_peaks_rows tk tk_ok _ _ _ _ _ _ _ E)
    as (out & Hout & HK & _ & _ & A1 & _ & A2 & _ & A3 & B3 & Hrow).
  exists out. split; [exact Hout|].
  rewrite (file_picks_count _ _ _ _ _ _ Hx Hi). unfold peaks_above.
  change (effective_K (dim2 scores) 0) with (default_K (dim2 scores)) in *.
  rewrite A1, A2, B3. fold (peak_channels (dim1 scores)).
  f_equal. apply map_ext. intros j. f_equal. apply map_ext. intros k.
  specialize (Hrow i j k).
  set (xs := series out i (source_channel (dim1 scores) j) k) in *.
  set (K' := default_K (dim2 scores)) in *.
  assert (Dout : dim2 out = dim2 scores)
    by (destruct (nms_dims _ _ _ _ Hout) as (? & _ & ->); reflexivity).
  assert (Hlen : List.length xs = dim2 scores)
    by (unfold xs; rewrite series_length; exact Dout).
  assert (HL : K' <= List.length xs) by lia.
  pose proof (topk_values tk tk_ok _ _ HL) as Hv.
  pose proof (topk_length tk tk_ok _ _ HL) as Hl.
  pose proof (topk_count_above tk xs K' (above_vmin kw) tk_ok HL (above_vmin_mono kw))
    as Hc.
  rewrite <- Hrow in Hv, Hl, Hc. cbn [fst snd] in Hv, Hl, Hc.
  transitivity (List.length (filter (fun v => above_vmin kw v) (row ts i j k))).
  - rewrite <- (filter_nth_range (fun v => above_vmin kw v) (row ts i j k) 0%Q).
    rewrite row_length, A3. f_equal. apply filter_ext_in.
    intros n Hn. unfold range in Hn. apply in_seq in Hn.
    rewrite row_nth by lia. reflexivity.
  - rewrite Hv, filter_map_length, Hc. f_equal.
    unfold slice_above. rewrite Hlen, Dout. f_equal. apply filter_ext_in.
    intros t Ht. unfold range in Ht. apply in_seq in Ht.
    unfold xs. rewrite series_nth by lia. reflexivity.
Qed.

Lemma predict_picks_count_witness :
  exists out,
    nms impulse300 21 1 = Some out /\
    1 = Nat.min (default_K 300) (slice_above impulse_kwargs out 0 1 0) + 0 + 0.
Proof.
  assert (E : predict_picks topk_lowest impulse300 impulse_kwargs
              = Some [[impulse_pick]]) by (vm_compute; reflexivity).
  destruct (predict_picks_count topk_lowest impulse300 impulse_kwargs _ 0 _
              topk_lowest_ok E eq_refl) as (out & Hout & Hlen).
  exists out. split; [exact Hout | exact Hlen].
Defined.

(** ** [extract_picks]: no peak above the threshold is lost *)

Lemma Forall2_In_l {A B : Type} (R : A -> B -> Prop) (l : list A) (l' : list B) (a : A) :
  Forall2 R l l' -> In a l -> exists b, In b l' /\ R a b.
Proof.
  induction 1 as [|x y l l' Hxy HF IH]; intros Hin; [contradiction|].
  destruct Hin as [->|Hin].
  - exists y. split; [now left | exact Hxy].
  - destruct (IH Hin) as (b & Hb & HR). exists b. split; [now right | exact HR].
Qed.

Lemma In_enumerate {A : Type} (l : list A) (a : A) :
  In a l -> exists m, In (m, a) (enumerate l).
Proof.
  intros Hin. apply In_nth_error in Hin as (m & Hm). exists m.
  apply nth_error_In with (n := m). rewrite enumerate_nth_error, Hm. reflexivity.
Qed.

Lemma sorted_group_has_entry (topk_index : tensor4 nat) (topk_score : tensor4 Q)
      (i j k n : nat) :
  n < dim3 topk_index ->
  exists m, In (m, (at4 topk_index i j k n, at4 topk_score i j k n))
               (sorted_group topk_index topk_score i j k).
Proof.
  intros Hn. unfold sorted_group. apply In_enumerate.
  apply (in_map (fun n => (at4 topk_index i j k n, at4 topk_score i j k n))).
  destruct (torch_sort_spec (row topk_index i j k)) as (_ & Hperm & _).
  apply (Permutation_in n (Permutation_sym Hperm)).
  rewrite row_length. unfold range. apply in_seq. lia.
Qed.

Lemma entry_has_pick (topk_index : tensor4 nat) (topk_score : tensor4 Q)
      (kw : kwargs) (picks : list (list pick)) (i j k n : nat) :
  extract_picks topk_index topk_score kw = Some picks ->
  i < dim0 topk_score -> j < dim1 topk_score -> k < dim2 topk_score ->
  n < dim3 topk_index ->
  above_vmin kw (at4 topk_score i j k n) = true ->
  exists file_i p m,
    nth_error picks i = Some file_i /\ In p file_i /\
    pick_of kw (sorted_group topk_index topk_score i j k) i j k
            (m, (at4 topk_index i j k n, at4 topk_score i j k n)) p.
Proof.
  intros H Hi Hj Hk Hn Habove.
  destruct (extract_picks_spec _ _ _ _ H) as (Hlen & Hfiles).
  destruct (nth_error picks i) as [file_i|] eqn:Ei;
    [|apply nth_error_None in Ei; lia].
  destruct (Hfiles i file_i Ei) as (_ & groups & -> & Hgl & Hgroups).
  destruct (nth_error groups j) as [gs|] eqn:Ej;
    [|apply nth_error_None in Ej; lia].
  destruct (Hgroups j gs Ej) as (_ & Hgsl & Hgs).
  destruct (nth_error gs k) as [g|] eqn:Ek;
    [|apply nth_error_None in Ek; lia].
  destruct (Hgs k g Ek) as (_ & HF).
  destruct (sorted_group_has_entry topk_index topk_score i j k n Hn) as (m & Hm).
  assert (Hf : In (m, (at4 topk_index i j k n, at4 topk_score i j k n))
                  (filter (above kw)
                          (sorted_group topk_index topk_score i j k)))
    by (apply filter_In; split; [exact Hm | exact Habove]).
  destruct (Forall2_In_l _ _ _ _ HF Hf) as (p & Hp & Hpick).
  exists (concat (map (@concat pick) groups)), p, m.
  split; [reflexivity|]. split; [|exact Hpick].
  apply in_concat. exists (concat gs). split.
  - apply in_map. eapply nth_error_In; exact Ej.
  - apply in_concat. exists g. split; [eapply nth_error_In; exact Ek | exact Hp].
Qed.

(** Every entry of the top-K tensors whose score passes the test
    [score > vmin] as the code makes it (in the element type of the score
    tensor, to which [vmin] is converted) yields a pick of its batch
    element: the pick carries the entry's time index (plus the batch
    element's offset), its score to three decimals, the phase label of its
    class channel and the identifier of its station. *)
Theorem extract_picks_complete (topk_index : tensor4 nat) (topk_score : tensor4 Q)
        (kw : kwargs) (picks : list (list pick)) (i j k n : nat) :
  extract_picks topk_index topk_score kw = Some picks ->
  i < dim0 topk_score -> j < dim1 topk_score -> k < dim2 topk_score ->
  n < dim3 topk_index ->
  above_vmin kw (at4 topk_score i j k n) = true ->
  exists file_i p bti,
    nth_error picks i = Some file_i /\ In p file_i /\
    begin_time_index_of kw i = Some bti /\
    phase_index p = (Z.of_nat (at4 topk_index i j k n) + bti)%Z /\
    phase_score p = format_3f (at4 topk_score i j k n) /\
    nth_error (kw_phases kw) j = Some (phase_type p) /\
    station_of kw i k = Some (station_id p).
Proof.
  intros H Hi Hj Hk Hn Habove.
  destruct (entry_has_pick _ _ _ _ i j k n H Hi Hj Hk Hn Habove)
    as (file_i & p & m & Hfile & Hp & Hpick).
  destruct (po_index _ _ _ _ _ _ _ Hpick) as (bti & Hbti & Hidx).
  exists file_i, p, bti. cbn [fst snd] in Hidx.
  repeat split; try assumption.
  - exact (po_score _ _ _ _ _ _ _ Hpick).
  - exact (po_type _ _ _ _ _ _ _ Hpick).
  - exact (po_station _ _ _ _ _ _ _ Hpick).
Qed.

Lemma extract_picks_complete_witness :
  exists file_i p bti,
    nth_error [[Pick "0000" 50 "1970-01-01T00:00:00.500" "0.900" "P" None None;
                Pick "0001" 10 "1970-01-01T00:00:00.100" "0.900" "P" None None]]
              0 = Some file_i /\ In p file_i /\
    begin_time_index_of default_kwargs 0 = Some bti /\
    phase_index p = (Z.of_nat (at4 two_stations_index 0 0 1 0) + bti)%Z /\
    phase_score p = format_3f (at4 two_stations_score 0 0 1 0) /\
    nth_error (kw_phases default_kwargs) 0 = Some (phase_type p) /\
    station_of default_kwargs 0 1 = Some (station_id p).
Proof.
  apply (extract_picks_complete two_stations_index two_stations_score
                                default_kwargs _ 0 0 1 0).
  - vm_compute. reflexivity.
  - simpl. lia.
  - simpl. lia.
  - simpl. lia.
  - simpl. lia.
  - vm_compute. reflexivity.
Defined.

(** A peak that passes the test [score > vmin] as the code makes it (in the
    element type of the score tensor) in a class channel that has no phase
    label makes [extract_picks] fail (the lookup [phases[j]] raises): the
    channels of the score tensor beyond the labels may hold nothing that
    passes the test. *)
Theorem extract_picks_missing_phase_label (topk_index : tensor4 nat)
        (topk_score : tensor4 Q) (kw : kwargs) (i j k n : nat) :
  i < dim0 topk_score -> j < dim1 topk_score -> k < dim2 topk_score ->
  n < dim3 topk_index ->
  above_vmin kw (at4 topk_score i j k n) = true ->
  List.length (kw_phases kw) <= j ->
  extract_picks topk_index topk_score kw = None.
Proof.
  intros Hi Hj Hk Hn Habove Hphases.
  destruct (extract_picks topk_index topk_score kw) as [picks|] eqn:E;
    [|reflexivity].
  destruct (entry_has_pick _ _ _ _ i j k n E Hi Hj Hk Hn Habove)
    as (file_i & p & m & _ & _ & Hpick).
  pose proof (po_type _ _ _ _ _ _ _ Hpick) as Ht.
  apply nth_error_None in Hphases. congruence.
Qed.

Lemma extract_picks_missing_phase_label_witness :
  extract_picks three_class_index three_class_score default_kwargs = None.
Proof.
  apply (extract_picks_missing_phase_label three_class_index three_class_score
                                           default_kwargs 0 2 0 0).
  - simpl. lia.
  - simpl. lia.
  - simpl. lia.
  - simpl. lia.
  - vm_compute. reflexivity.
  - simpl. lia.
Defined.

(** ** Merging: what is counted and what is kept *)

Lemma header_of_cases (files : list file) :
  (header_of files = [] /\ data_rows files = []) \/
  exists h, header_of files = [h].
Proof.
  unfold header_of, data_rows.
  induction files as [|(name & lines) files IH]; cbn [find map concat snd].
  - left. split; reflexivity.
  - destruct lines as [|x t]; cbn [tl firstn app].
    + exact IH.
    + right. exists x. reflexivity.
Qed.

Lemma header_of_length (files : list file) :
  List.length (header_of files) = if existsb non_empty files then 1 else 0.
Proof.
  unfold header_of.
  induction files as [|(name & lines) files IH]; cbn [find existsb snd].
  - reflexivity.
  - unfold non_empty at 1. cbn [snd]. destruct lines as [|x t]; cbn [orb].
    + exact IH.
    + reflexivity.
Qed.

Lemma data_rows_perm (l1 l2 : list file) :
  Permutation l1 l2 -> Permutation (data_rows l1) (data_rows l2).
Proof.
  intros H. unfold data_rows. rewrite <- !flat_map_concat_map.
  now apply Permutation_flat_map.
Qed.

Lemma existsb_perm {A : Type} (c : A -> bool) (l1 l2 : list A) :
  Permutation l1 l2 -> existsb c l1 = existsb c l2.
Proof.
  intros H. apply eq_true_iff_eq. rewrite !existsb_exists.
  split; intros (x & Hx & Hc); exists x; split; try assumption.
  - now apply (Permutation_in x H).
  - now apply (Permutation_in x (Permutation_sym H)).
Qed.

Lemma filter_perm {A : Type} (c : A -> bool) (l1 l2 : list A) :
  Permutation l1 l2 -> Permutation (filter c l1) (filter c l2).
Proof.
  induction 1 as [|x l l' H IH|x y l|l l' l'' H1 IH1 H2 IH2]; cbn [filter].
  - constructor.
  - destruct (c x); [now constructor | exact IH].
  - destruct (c x), (c y); try reflexivity. apply perm_swap.
  - now transitivity (filter c l').
Qed.

Lemma copy_into_counter (files : list file) (out : list string) (b : bool) (n : nat) :
  snd (fold_left copy_into files (out, b, n)) = n + List.length (data_rows files).
Proof.
  revert out b n; induction files as [|(name & lines) files IH]; intros out b n.
  - simpl. lia.
  - cbn [fold_left]. unfold copy_into at 2. cbn [snd].
    unfold data_rows. cbn [map concat snd]. fold (data_rows files).
    rewrite length_app.
    destruct lines as [|x t]; [|destruct b]; rewrite IH; simpl; lia.
Qed.

Lemma merge_seismic_picks_counter (dir : list file) :
  snd (merge_seismic_picks dir)
  = List.length (data_rows (sorted_files (csv_inputs dir))).
Proof.
  unfold merge_seismic_picks. fold (csv_inputs dir).
  pose proof (copy_into_counter (sorted_files (csv_inputs dir)) [] true 0) as H.
  destruct (fold_left copy_into _ ([], true, 0)) as ((out & b) & n).
  exact H.
Qed.

Lemma merge_seismic_picks_tl (dir : list file) :
  tl (fst (merge_seismic_picks dir)) = data_rows (sorted_files (csv_inputs dir)).
Proof.
  rewrite merge_seismic_picks_spec. fold (csv_inputs dir).
  destruct (header_of_cases (sorted_files (csv_inputs dir)))
    as [(-> & ->)|(h & ->)]; reflexivity.
Qed.

Lemma in_header_of (files : list file) (line : string) :
  In line (header_of files) -> exists f, In f files /\ In line (snd f).
Proof.
  unfold header_of.
  match goal with
  | |- context [find ?c files] => destruct (find c files) as [f|] eqn:E
  end; [|intros []].
  apply find_some in E as (Hf & _). intros H. exists f. split; [exact Hf|].
  destruct (snd f) as [|x t]; [destruct H|].
  cbn in H. destruct H as [<-|[]]. now left.
Qed.

Lemma in_data_rows (files : list file) (line : string) :
  In line (data_rows files) -> exists f, In f files /\ In line (snd f).
Proof.
  unfold data_rows. intros H. apply in_concat in H as (rows & Hrows & Hline).
  apply in_map_iff in Hrows as (f & <- & Hf). exists f. split; [exact Hf|].
  destruct (snd f) as [|x t]; [destruct Hline | now right].
Qed.

(** *** The file that [writelines] leaves *)

Lemma append_nil_r (s : string) : (s ++ EmptyString)%string = s.
Proof. induction s as [|c s IH]; simpl; [reflexivity | now rewrite IH]. Qed.

Lemma translate_newlines_terminated (s rest : string) :
  terminated s = true ->
  translate_newlines (s ++ rest) = (s ++ translate_newlines rest)%string.
Proof.
  induction s as [|c s IH]; [discriminate|].
  cbn [terminated]. destruct (Ascii.eqb c newline) eqn:En.
  - apply Ascii.eqb_eq in En. subst c.
    destruct s; [|discriminate]. intros _. reflexivity.
  - destruct (Ascii.eqb c carriage_return) eqn:Ec; [discriminate|].
    intros H. cbn [append translate_newlines]. rewrite Ec. now rewrite IH.
Qed.

Lemma readlines_terminated (s rest : string) :
  terminated s = true -> readlines (s ++ rest) = s :: readlines rest.
Proof.
  induction s as [|c s IH]; [discriminate|].
  cbn [terminated]. destruct (Ascii.eqb c newline) eqn:En.
  - destruct s; [|discriminate]. intros _. cbn [append readlines].
    now rewrite En.
  - destruct (Ascii.eqb c carriage_return); [discriminate|].
    intros H. cbn [append readlines]. rewrite En, (IH H). reflexivity.
Qed.

Lemma file_lines_terminated (written : list string) :
  Forall (fun l => terminated l = true) written -> file_lines written = written.
Proof.
  unfold file_lines. induction 1 as [|x l Hx Hl IH]; [reflexivity|].
  assert (E : String.concat EmptyString (x :: l)
              = (x ++ String.concat EmptyString l)%string).
  { destruct l; [now rewrite append_nil_r | reflexivity]. }
  rewrite E, (translate_newlines_terminated _ _ Hx), (readlines_terminated _ _ Hx).
  now rewrite IH.
Qed.

Lemma merge_seismic_picks_written (dir : list file) :
  Forall (fun f => Forall (fun l => terminated l = true) (snd f)) (csv_inputs dir) ->
  file_lines (fst (merge_seismic_picks dir)) = fst (merge_seismic_picks dir).
Proof.
  intros H. apply file_lines_terminated.
  rewrite merge_seismic_picks_spec. fold (csv_inputs dir).
  rewrite Forall_forall in H.
  apply Forall_forall. intros l Hl.
  assert (Hf : exists f, In f (sorted_files (csv_inputs dir)) /\ In l (snd f)).
  { apply in_app_or in Hl as [Hl|Hl];
      [now apply in_header_of | now apply in_data_rows]. }
  destruct Hf as (f & Hf & Hin).
  apply (Permutation_in _ (sorted_files_perm _)) in Hf.
  specialize (H f Hf). rewrite Forall_forall in H. now apply H.
Qed.

(** When every line of the [*.csv] files of the directory ends with a
    newline, the file that [merge_seismic_picks] writes holds, line for
    line, the strings the function wrote: after its first line exactly the
    data rows of those files, each once, and the number the function
    reports is the number of those rows.  Without the newline at the end of
    a file its last row and the first row copied after it become one line
    of the merged file, and the number reported is no longer the number of
    its rows. *)
Theorem merge_seismic_picks_keeps_rows :
  (forall dir : list file,
     Forall (fun f => Forall (fun l => terminated l = true) (snd f))
            (csv_inputs dir) ->
     file_lines (fst (merge_seismic_picks dir)) = fst (merge_seismic_picks dir) /\
     Permutation (tl (file_lines (fst (merge_seismic_picks dir))))
                 (data_rows (csv_inputs dir)) /\
     snd (merge_seismic_picks dir)
     = List.length (tl (file_lines (fst (merge_seismic_picks dir))))) /\
  file_lines (fst (merge_seismic_picks unterminated_files))
  = [line "h"; line "a1"; line "a2b1"]%string /\
  snd (merge_seismic_picks unterminated_files) = 3.
Proof.
  split; [|split; vm_compute; reflexivity].
  intros dir H. rewrite (merge_seismic_picks_written dir H).
  rewrite merge_seismic_picks_tl, merge_seismic_picks_counter.
  split; [reflexivity|]. split; [|reflexivity].
  apply data_rows_perm, sorted_files_perm.
Qed.

Lemma merge_seismic_picks_keeps_rows_witness :
  file_lines (fst (merge_seismic_picks station_files))
  = [line "h"; line "a1"; line "a2"; line "b1"]%string /\
  Permutation (tl (file_lines (fst (merge_seismic_picks station_files))))
              (data_rows (csv_inputs station_files)) /\
  snd (merge_seismic_picks station_files) = 3.
Proof.
  assert (Ht : Forall (fun f => Forall (fun l => terminated l = true) (snd f))
                      (csv_inputs station_files))
    by (vm_compute; repeat constructor).
  destruct (proj1 merge_seismic_picks_keeps_rows station_files Ht) as (H1 & H2 & H3).
  split; [rewrite H1; vm_compute; reflexivity|].
  split; [exact H2|].
  rewrite H3, H1. vm_compute. reflexivity.
Defined.

(** Merging a merged station file again changes nothing, when every line of
    the [*.csv] files of the directory ends with a newline: run on a
    directory that holds only the file written by a first run, the function
    writes the same strings and reports the same count. *)
Theorem merge_seismic_picks_idempotent (dir : list file) (name : string) :
  glob_csv name = true ->
  Forall (fun f => Forall (fun l => terminated l = true) (snd f)) (csv_inputs dir) ->
  merge_seismic_picks [(name, file_lines (fst (merge_seismic_picks dir)))]
  = merge_seismic_picks dir.
Proof.
  intros Hname Hterm. rewrite (merge_seismic_picks_written dir Hterm).
  pose proof (merge_seismic_picks_tl dir) as Htl.
  pose proof (merge_seismic_picks_counter dir) as Hn.
  rewrite <- Htl in Hn.
  destruct (merge_seismic_picks dir) as (out & n). cbn [fst snd] in *.
  unfold merge_seismic_picks. cbn [filter fst]. rewrite Hname.
  cbn [sorted_files fold_right insert_file fold_left]. unfold copy_into. cbn [snd].
  subst n. destruct out as [|h t]; cbn [tl app List.length]; f_equal; lia.
Qed.

Lemma merge_seismic_picks_idempotent_witness :
  merge_seismic_picks
    [("picks.csv"%string, file_lines (fst (merge_seismic_picks station_files)))]
  = merge_seismic_picks station_files.
Proof.
  apply (merge_seismic_picks_idempotent station_files "picks.csv").
  - vm_compute. reflexivity.
  - vm_compute. repeat constructor.
Defined.

(** ** Sorting by name is independent of the listing order *)

Lemma ascii_compare_lt_trans (a b c : ascii) :
  Ascii.compare a b = Lt -> Ascii.compare b c <> Gt -> Ascii.compare a c = Lt.
Proof.
  unfold Ascii.compare. intros H1 H2.
  rewrite N.compare_lt_iff in H1. rewrite N.compare_ngt_iff in H2.
  rewrite N.compare_lt_iff. lia.
Qed.

Lemma string_compare_trans (s1 s2 s3 : string) :
  String.compare s1 s2 <> Gt -> String.compare s2 s3 <> Gt ->
  String.compare s1 s3 <> Gt.
Proof.
  revert s2 s3. induction s1 as [|c1 r1 IH]; intros [|c2 r2] [|c3 r3];
    cbn [String.compare]; try congruence.
  destruct (Ascii.compare c1 c2) eqn:E12; try congruence.
  - apply Ascii.compare_eq_iff in E12. subst c2.
    destruct (Ascii.compare c1 c3) eqn:E13; try congruence.
    apply IH.
  - intros _ H23.
    assert (H : Ascii.compare c2 c3 <> Gt)
      by (destruct (Ascii.compare c2 c3); congruence).
    rewrite (ascii_compare_lt_trans _ _ _ E12 H). congruence.
Qed.

Lemma string_leb_trans (s1 s2 s3 : string) :
  String.leb s1 s2 = true -> String.leb s2 s3 = true -> String.leb s1 s3 = true.
Proof.
  unfold String.leb. intros H1 H2.
  pose proof (string_compare_trans s1 s2 s3) as H.
  destruct (String.compare s1 s2), (String.compare s2 s3),
    (String.compare s1 s3); try reflexivity; try discriminate;
    exfalso; apply H; congruence.
Qed.

Lemma name_sorted_strongly (l : list file) :
  name_sorted l ->
  StronglySorted (fun a b => String.leb (fst a) (fst b) = true) l.
Proof.
  apply Sorted_StronglySorted. intros a b c. apply string_leb_trans.
Qed.

Lemma NoDup_names_inj (l : list file) (a b : file) :
  NoDup (map fst l) -> In a l -> In b l -> fst a = fst b -> a = b.
Proof.
  induction l as [|x l IH]; intros Hnd Ha Hb Hab; [contradiction|].
  cbn [map] in Hnd. apply NoDup_cons_iff in Hnd as (Hx & Hnd).
  destruct Ha as [->|Ha], Hb as [->|Hb].
  - reflexivity.
  - exfalso. apply Hx. rewrite Hab. now apply in_map.
  - exfalso. apply Hx. rewrite <- Hab. now apply in_map.
  - now apply IH.
Qed.

Lemma strongly_sorted_unique (l1 l2 : list file) :
  StronglySorted (fun a b => String.leb (fst a) (fst b) = true) l1 ->
  StronglySorted (fun a b => String.leb (fst a) (fst b) = true) l2 ->
  Permutation l1 l2 -> NoDup (map fst l1) -> l1 = l2.
Proof.
  revert l2. induction l1 as [|a r1 IH]; intros l2 S1 S2 HP Hnd.
  - apply Permutation_nil in HP. now subst.
  - destruct l2 as [|b r2];
      [apply Permutation_sym, Permutation_nil in HP; discriminate|].
    apply StronglySorted_inv in S1 as (S1 & F1).
    apply StronglySorted_inv in S2 as (S2 & F2).
    rewrite Forall_forall in F1, F2.
    assert (Hab : a = b).
    { assert (Hb : In b (a :: r1))
        by (apply (Permutation_in b (Permutation_sym HP)); now left).
      assert (Ha : In a (b :: r2))
        by (apply (Permutation_in a HP); now left).
      destruct Hb as [Hb|Hb]; [exact Hb|].
      destruct Ha as [Ha|Ha]; [now symmetry|].
      apply (NoDup_names_inj (a :: r1)); [exact Hnd | now left | now right |].
      apply String.leb_antisym; [now apply F1 | now apply F2]. }
    subst b. f_equal. apply IH; try assumption.
    + now apply Permutation_cons_inv in HP.
    + cbn [map] in Hnd. now apply NoDup_cons_iff in Hnd.
Qed.

Lemma sorted_files_unique (l1 l2 : list file) :
  Permutation l1 l2 -> NoDup (map fst l1) -> sorted_files l1 = sorted_files l2.
Proof.
  intros HP Hnd. apply strongly_sorted_unique.
  - apply name_sorted_strongly, sorted_files_sorted.
  - apply name_sorted_strongly, sorted_files_sorted.
  - rewrite !sorted_files_perm. exact HP.
  - eapply Permutation_NoDup; [|exact Hnd].
    apply Permutation_map, Permutation_sym, sorted_files_perm.
Qed.

Lemma NoDup_map_filter {A B : Type} (f : A -> B) (c : A -> bool) (l : list A) :
  NoDup (map f l) -> NoDup (map f (filter c l)).
Proof.
  induction l as [|x l IH]; cbn [map filter]; intros H; [constructor|].
  apply NoDup_cons_iff in H as (Hx & H).
  destruct (c x); [|now apply IH].
  cbn [map]. constructor; [|now apply IH].
  intros Hin. apply Hx. apply in_map_iff in Hin as (y & Hy & Hin).
  apply filter_In in Hin as (Hin & _). rewrite <- Hy. now apply in_map.
Qed.

(** The merged station file does not depend on the order in which the
    directory lists its files (names in a directory are distinct). *)
Theorem merge_seismic_picks_listing_order (dir1 dir2 : list file) :
  Permutation dir1 dir2 -> NoDup (map fst dir1) ->
  merge_seismic_picks dir1 = merge_seismic_picks dir2.
Proof.
  intros HP Hnd. unfold merge_seismic_picks.
  rewrite (sorted_files_unique (filter (fun f => glob_csv (fst f)) dir1)
                               (filter (fun f => glob_csv (fst f)) dir2)).
  - reflexivity.
  - now apply filter_perm.
  - now apply NoDup_map_filter.
Qed.

Lemma listing_a_b_perm : Permutation listing_a listing_b.
Proof.
  unfold listing_a, listing_b.
  apply NoDup_Permutation_bis.
  - repeat constructor; simpl; intuition discriminate.
  - simpl. lia.
  - intros x Hx. simpl in Hx. simpl. intuition.
Qed.

Lemma listing_a_names : NoDup (map fst listing_a).
Proof. repeat constructor; simpl; intuition discriminate. Qed.

Lemma merge_seismic_picks_listing_order_witness :
  merge_seismic_picks listing_a = merge_seismic_picks listing_b.
Proof.
  apply (merge_seismic_picks_listing_order listing_a listing_b).
  - exact listing_a_b_perm.
  - exact listing_a_names.
Defined.

(** ** Grouping by event id *)

Lemma file_group_group_files (dir : list file) :
  file_group dir = group_files (das_inputs dir).
Proof. reflexivity. Qed.

Lemma group_files_snoc (l : list file) (f : file) :
  group_files (l ++ [f]) = group_append (event_id f) f (group_files l).
Proof. unfold group_files. now rewrite fold_left_app. Qed.

Lemma existsb_eqb_In (key : string) (ks : list string) :
  existsb (String.eqb key) ks = true <-> In key ks.
Proof.
  rewrite existsb_exists. split.
  - intros (k & Hk & E). apply String.eqb_eq in E. now subst.
  - intros H. exists key. split; [exact H | apply String.eqb_refl].
Qed.

Lemma keys_add_In (key k : string) (ks : list string) :
  In k (keys_add key ks) <-> In k ks \/ k = key.
Proof.
  unfold keys_add. destruct (existsb (String.eqb key) ks) eqn:E.
  - apply existsb_eqb_In in E. split; [now left|].
    intros [H| ->]; assumption.
  - rewrite in_app_iff. cbn [In]. intuition.
Qed.

Lemma keys_add_NoDup (key : string) (ks : list string) :
  NoDup ks -> NoDup (keys_add key ks).
Proof.
  intros H. unfold keys_add. destruct (existsb (String.eqb key) ks) eqn:E.
  - exact H.
  - apply Permutation_NoDup with (l := key :: ks).
    + apply Permutation_cons_append.
    + constructor; [|exact H].
      intros Hin. apply existsb_eqb_In in Hin. congruence.
Qed.

Lemma group_append_map (key : string) (f : file) (F : string -> list file)
      (ks : list string) :
  NoDup ks -> (~ In key ks -> F key = []) ->
  group_append key f (map (fun k => (k, F k)) ks)
  = map (fun k => (k, if String.eqb key k then F k ++ [f] else F k))
        (keys_add key ks).
Proof.
  unfold keys_add. induction ks as [|k0 ks IH]; intros Hnd Hnew.
  - cbn. rewrite String.eqb_refl, Hnew by (intros []). reflexivity.
  - apply NoDup_cons_iff in Hnd as (Hk0 & Hnd).
    cbn [map group_append existsb].
    destruct (String.eqb key k0) eqn:E; cbn [orb].
    + apply String.eqb_eq in E. subst k0. cbn [map].
      rewrite String.eqb_refl. f_equal.
      apply map_ext_in. intros k Hk.
      destruct (String.eqb key k) eqn:E'; [|reflexivity].
      apply String.eqb_eq in E'. now subst.
    + rewrite IH; [|exact Hnd|].
      * destruct (existsb (String.eqb key) ks); cbn [map app]; now rewrite E.
      * intros Hin. apply Hnew. intros [->|H]; [|now apply Hin].
        now rewrite String.eqb_refl in E.
Qed.

Lemma event_files_none (k : string) (l : list file) :
  ~ In k (map event_id l) -> event_files k l = [].
Proof.
  unfold event_files. induction l as [|f l IH]; intros H; [reflexivity|].
  cbn [filter]. destruct (String.eqb (event_id f) k) eqn:E.
  - exfalso. apply H. left. now apply String.eqb_eq.
  - apply IH. intros Hin. apply H. now right.
Qed.

Lemma event_files_snoc (k : string) (l : list file) (f : file) :
  event_files k (l ++ [f])
  = if String.eqb (event_id f) k then event_files k l ++ [f] else event_files k l.
Proof.
  unfold event_files. rewrite filter_app. cbn [filter].
  destruct (String.eqb (event_id f) k); [reflexivity | apply app_nil_r].
Qed.

(** The dictionary built by the grouping loop: its keys are the event ids
    of the files, each once, and the value of a key is the list of the
    files of that event in listing order. *)
Lemma group_files_spec (l : list file) :
  group_files l = map (fun k => (k, event_files k l)) (map fst (group_files l)) /\
  NoDup (map fst (group_files l)) /\
  (forall k, In k (map fst (group_files l)) <-> In k (map event_id l)).
Proof.
  induction l as [|f l (Hg & Hnd & Hin)] using rev_ind.
  - cbn. repeat split; try constructor; intros [].
  - rewrite group_files_snoc.
    assert (E : group_append (event_id f) f (group_files l)
                = map (fun k => (k, event_files k (l ++ [f])))
                      (keys_add (event_id f) (map fst (group_files l)))).
    { rewrite Hg at 1.
      rewrite (group_append_map _ _ (fun k => event_files k l)); [|exact Hnd|].
      - apply map_ext. intros k. now rewrite event_files_snoc.
      - intros H. apply event_files_none. now rewrite <- Hin. }
    assert (K : map fst (group_append (event_id f) f (group_files l))
                = keys_add (event_id f) (map fst (group_files l))).
    { rewrite E, map_map. cbn [fst]. apply map_id. }
    rewrite K. split; [exact E|]. split; [now apply keys_add_NoDup|].
    intros k. rewrite keys_add_In, map_app, in_app_iff, Hin. cbn [map In].
    intuition.
Qed.

Lemma filter_map_swap {A B : Type} (c : B -> bool) (g : A -> B) (l : list A) :
  filter c (map g l) = map g (filter (fun a => c (g a)) l).
Proof.
  induction l as [|a l IH]; [reflexivity|]. cbn [map filter].
  destruct (c (g a)); cbn [map]; now rewrite IH.
Qed.

(** [merge_das_picks] event by event. *)
Lemma merge_das_picks_by_key (dir : list file) (min_picks : Z) :
  fst (merge_das_picks dir min_picks)
  = map (fun k => ((k ++ ".csv")%string, merged_event k dir))
        (filter (fun k => (min_picks <? Z.of_nat (List.length (merged_event k dir)))%Z)
                (event_keys dir)) /\
  snd (merge_das_picks dir min_picks)
  = list_sum (map (fun k => List.length (merged_event k dir)) (event_keys dir)).
Proof.
  destruct (merge_das_picks_spec dir min_picks) as (-> & ->).
  destruct (group_files_spec (das_inputs dir)) as (Hg & _).
  rewrite <- file_group_group_files in Hg. fold (event_keys dir) in Hg.
  rewrite Hg. rewrite filter_map_swap, !map_map. split; reflexivity.
Qed.

Lemma event_keys_spec (dir : list file) :
  NoDup (event_keys dir) /\
  forall k, In k (event_keys dir) <-> In k (map event_id (das_inputs dir)).
Proof.
  destruct (group_files_spec (das_inputs dir)) as (_ & Hnd & Hin).
  split; assumption.
Qed.

(** ** Names of the merged event files *)

Lemma string_length_append (s t : string) :
  String.length (s ++ t) = String.length s + String.length t.
Proof. induction s as [|c r IH]; cbn; [reflexivity | now rewrite IH]. Qed.

Lemma string_append_cancel_r (s1 s2 t : string) :
  (s1 ++ t)%string = (s2 ++ t)%string -> s1 = s2.
Proof.
  revert s2. induction s1 as [|c1 r1 IH]; intros [|c2 r2] H; cbn in H.
  - reflexivity.
  - apply (f_equal String.length) in H. cbn in H.
    rewrite string_length_append in H. lia.
  - apply (f_equal String.length) in H. cbn in H.
    rewrite string_length_append in H. lia.
  - injection H as -> H. f_equal. now apply IH.
Qed.

Lemma substring_prefix (s t : string) :
  substring 0 (String.length s) (s ++ t) = s.
Proof.
  induction s as [|c r IH]; cbn.
  - now destruct t.
  - now rewrite IH.
Qed.

Lemma stem_append_csv (k : string) : stem (k ++ ".csv") = k.
Proof.
  unfold stem. rewrite string_length_append. cbn [String.length].
  replace (String.length k + 4 - 4) with (String.length k) by lia.
  apply substring_prefix.
Qed.

Lemma count_char_split_first (s : string) :
  count_char "_" (split_first s) = 0.
Proof.
  induction s as [|c r IH]; cbn [split_first]; [reflexivity|].
  destruct (Ascii.eqb c "_") eqn:E; [reflexivity|].
  cbn [count_char]. rewrite Ascii.eqb_sym, E, IH. reflexivity.
Qed.

Lemma filter_none {A : Type} (c : A -> bool) (l : list A) :
  (forall x, In x l -> c x = false) -> filter c l = [].
Proof.
  induction l as [|x l IH]; intros H; [reflexivity|]. cbn [filter].
  rewrite (H x) by now left. apply IH. intros y Hy. apply H. now right.
Qed.

Lemma event_key_no_underscore (dir : list file) (k : string) :
  In k (event_keys dir) -> count_char "_" k = 0.
Proof.
  intros H. apply (proj2 (event_keys_spec dir)) in H.
  apply in_map_iff in H as (f & <- & _). apply count_char_split_first.
Qed.

(** [merge_das_picks] writes at most one file per event id: the names of
    the files it writes are pairwise distinct. *)
Theorem merge_das_picks_distinct_names (dir : list file) (min_picks : Z) :
  NoDup (map fst (fst (merge_das_picks dir min_picks))).
Proof.
  destruct (merge_das_picks_by_key dir min_picks) as (-> & _).
  rewrite map_map. cbn [fst].
  apply Finite.Injective_map_NoDup.
  - intros k1 k2 H. now apply string_append_cancel_r in H.
  - apply NoDup_filter, event_keys_spec.
Qed.

(** The files [merge_das_picks] writes do not match its own input pattern
    [*_*_*.csv]: run on a folder that holds only its own output, it reads
    no file, writes nothing and counts nothing. *)
Theorem merge_das_picks_skips_its_output (dir : list file) (min_picks min_picks' : Z) :
  Forall (fun f => glob_das (fst f) = false) (fst (merge_das_picks dir min_picks)) /\
  merge_das_picks (fst (merge_das_picks dir min_picks)) min_picks' = ([], 0).
Proof.
  assert (H : forall f, In f (fst (merge_das_picks dir min_picks)) ->
                        glob_das (fst f) = false).
  { intros f Hf. destruct (merge_das_picks_by_key dir min_picks) as (E & _).
    rewrite E in Hf. apply in_map_iff in Hf as (k & <- & Hk).
    apply filter_In in Hk as (Hk & _). cbn [fst].
    unfold glob_das. rewrite stem_append_csv, (event_key_no_underscore dir k Hk).
    apply andb_false_r. }
  split; [now apply Forall_forall|].
  unfold merge_das_picks at 1, file_group. now rewrite filter_none.
Qed.

(** ** Where the lines of a merged event file come from *)

(** Every line of a file written by [merge_das_picks] is a line of an input
    file that matches the pattern and whose event id (the part of its name
    before the first underscore) names the written file: events are never
    mixed. *)
Theorem merge_das_picks_lines_of_event (dir : list file) (min_picks : Z)
        (name line : string) (lines : list string) :
  In (name, lines) (fst (merge_das_picks dir min_picks)) ->
  In line lines ->
  exists f, In f dir /\ glob_das (fst f) = true /\
            name = (event_id f ++ ".csv")%string /\ In line (snd f).
Proof.
  intros Hw Hline.
  destruct (merge_das_picks_by_key dir min_picks) as (E & _).
  rewrite E in Hw. apply in_map_iff in Hw as (k & Hk & _).
  injection Hk as <- <-.
  unfold merged_event in Hline. rewrite merge_group_spec in Hline.
  assert (Hf : exists f, In f (sorted_files (event_files k (das_inputs dir))) /\
                         In line (snd f)).
  { apply in_app_iff in Hline as [H|H];
      [now apply in_header_of | now apply in_data_rows]. }
  destruct Hf as (f & Hf & Hl).
  apply (Permutation_in f (sorted_files_perm _)) in Hf.
  apply filter_In in Hf as (Hf & Hk). apply String.eqb_eq in Hk.
  apply filter_In in Hf as (Hf & Hg).
  exists f. subst k. auto.
Qed.

Lemma merge_das_picks_lines_of_event_witness :
  exists f, In f listing_a /\ glob_das (fst f) = true /\
            "ev1.csv"%string = (event_id f ++ ".csv")%string /\
            In "c"%string (snd f).
Proof.
  apply (merge_das_picks_lines_of_event listing_a 0 "ev1.csv" "c" ["h"; "a"; "c"]%string).
  - vm_compute. left. reflexivity.
  - simpl. auto.
Defined.

(** ** The counter of [merge_das_picks] *)

Lemma merge_group_length (files : list file) :
  List.length (merge_group files)
  = (if existsb non_empty files then 1 else 0) + List.length (data_rows files).
Proof.
  rewrite merge_group_spec, length_app, header_of_length.
  rewrite (existsb_perm non_empty _ _ (sorted_files_perm files)).
  rewrite (Permutation_length (data_rows_perm _ _ (sorted_files_perm files))).
  reflexivity.
Qed.

Lemma list_sum_map_add {A : Type} (a b : A -> nat) (l : list A) :
  list_sum (map (fun x => a x + b x) l) = list_sum (map a l) + list_sum (map b l).
Proof.
  unfold list_sum. induction l as [|x l IH]; [reflexivity|].
  cbn [map fold_right]. rewrite IH. lia.
Qed.

Lemma list_sum_indicator (key : string) (n : nat) (ks : list string) :
  NoDup ks ->
  list_sum (map (fun k => if String.eqb key k then n else 0) ks)
  = if existsb (String.eqb key) ks then n else 0.
Proof.
  unfold list_sum. induction ks as [|k ks IH]; intros Hnd; [reflexivity|].
  apply NoDup_cons_iff in Hnd as (Hk & Hnd). cbn [map fold_right existsb].
  rewrite (IH Hnd). destruct (String.eqb key k) eqn:E; cbn [orb]; [|reflexivity].
  apply String.eqb_eq in E. subst k.
  destruct (existsb (String.eqb key) ks) eqn:E'; [|lia].
  apply existsb_eqb_In in E'. contradiction.
Qed.

Lemma list_sum_count {A : Type} (c : A -> bool) (l : list A) :
  list_sum (map (fun x => if c x then 1 else 0) l) = List.length (filter c l).
Proof.
  unfold list_sum. induction l as [|x l IH]; [reflexivity|].
  cbn [map fold_right filter]. rewrite IH. destruct (c x); reflexivity.
Qed.

Lemma event_rows_partition (ks : list string) (l : list file) :
  NoDup ks -> (forall f, In f l -> In (event_id f) ks) ->
  list_sum (map (fun k => List.length (data_rows (event_files k l))) ks)
  = List.length (data_rows l).
Proof.
  intros Hnd. induction l as [|f l IH]; intros Hin.
  - cbn. induction ks as [|k ks IHk]; [reflexivity|].
    apply NoDup_cons_iff in Hnd as (_ & Hnd). cbn. now apply IHk.
  - transitivity
      (list_sum (map (fun k => (if String.eqb (event_id f) k
                                then List.length (tl (snd f)) else 0)
                               + List.length (data_rows (event_files k l))) ks)).
    + f_equal. apply map_ext. intros k. unfold event_files. cbn [filter].
      destruct (String.eqb (event_id f) k); [|reflexivity].
      unfold data_rows. cbn [map concat]. now rewrite length_app.
    + rewrite (list_sum_map_add
                 (fun k => if String.eqb (event_id f) k
                           then List.length (tl (snd f)) else 0)
                 (fun k => List.length (data_rows (event_files k l)))).
      rewrite list_sum_indicator by exact Hnd.
      rewrite IH by (intros g Hg; apply Hin; now right).
      assert (E : existsb (String.eqb (event_id f)) ks = true)
        by (apply existsb_eqb_In, Hin; now left).
      rewrite E. unfold data_rows. cbn [map concat]. now rewrite length_app.
Qed.

(** The number [merge_das_picks] reports is the number of data rows of all
    input files matching the pattern plus one for every event that has a
    non-empty file: header lines are counted, and so are the events that
    are too small to be written (the number does not depend on
    [min_picks]). *)
Theorem merge_das_picks_counter (dir : list file) (min_picks : Z) :
  snd (merge_das_picks dir min_picks)
  = List.length (data_rows (das_inputs dir))
    + List.length (filter (fun k => existsb non_empty (event_files k (das_inputs dir)))
                          (event_keys dir)).
Proof.
  destruct (merge_das_picks_by_key dir min_picks) as (_ & ->).
  destruct (event_keys_spec dir) as (Hnd & Hin).
  transitivity
    (list_sum
       (map (fun k =>
               (if existsb non_empty (event_files k (das_inputs dir)) then 1 else 0)
               + List.length (data_rows (event_files k (das_inputs dir))))
            (event_keys dir))).
  - f_equal. apply map_ext. intros k. apply merge_group_length.
  - rewrite (list_sum_map_add
               (fun k => if existsb non_empty (event_files k (das_inputs dir))
                         then 1 else 0)
               (fun k => List.length (data_rows (event_files k (das_inputs dir))))).
    rewrite list_sum_count, event_rows_partition.
    + lia.
    + exact Hnd.
    + intros f Hf. apply Hin. now apply in_map.
Qed.

(** ** [merge_das_picks] and the listing order *)

Lemma merged_event_listing_order (dir1 dir2 : list file) (k : string) :
  Permutation dir1 dir2 -> NoDup (map fst dir1) ->
  merged_event k dir1 = merged_event k dir2.
Proof.
  intros HP Hnd. unfold merged_event, merge_group.
  rewrite (sorted_files_unique (event_files k (das_inputs dir1))
                               (event_files k (das_inputs dir2))).
  - reflexivity.
  - now apply filter_perm, filter_perm.
  - now apply NoDup_map_filter, NoDup_map_filter.
Qed.

Lemma event_keys_listing_order (dir1 dir2 : list file) :
  Permutation dir1 dir2 -> Permutation (event_keys dir1) (event_keys dir2).
Proof.
  intros HP.
  destruct (event_keys_spec dir1) as (Hnd1 & Hin1).
  destruct (event_keys_spec dir2) as (Hnd2 & Hin2).
  apply NoDup_Permutation; try assumption.
  intros k. rewrite Hin1, Hin2.
  assert (H : Permutation (map event_id (das_inputs dir1))
                          (map event_id (das_inputs dir2)))
    by now apply Permutation_map, filter_perm.
  split; intros Hk.
  - exact (Permutation_in k H Hk).
  - exact (Permutation_in k (Permutation_sym H) Hk).
Qed.

(** The files [merge_das_picks] writes (each with its content) and the
    number it reports do not depend on the order in which the directory
    lists its files; only the order in which the events are visited
    does. *)
Theorem merge_das_picks_listing_order (dir1 dir2 : list file) (min_picks : Z) :
  Permutation dir1 dir2 -> NoDup (map fst dir1) ->
  Permutation (fst (merge_das_picks dir1 min_picks))
              (fst (merge_das_picks dir2 min_picks)) /\
  snd (merge_das_picks dir1 min_picks) = snd (merge_das_picks dir2 min_picks).
Proof.
  intros HP Hnd.
  destruct (merge_das_picks_by_key dir1 min_picks) as (-> & ->).
  destruct (merge_das_picks_by_key dir2 min_picks) as (-> & ->).
  pose proof (event_keys_listing_order dir1 dir2 HP) as Hk.
  pose proof (fun k => merged_event_listing_order dir1 dir2 k HP Hnd) as Hm.
  split.
  - rewrite (map_ext (fun k => ((k ++ ".csv")%string, merged_event k dir1))
                     (fun k => ((k ++ ".csv")%string, merged_event k dir2)))
      by (intros k; now rewrite Hm).
    rewrite (filter_ext
               (fun k => (min_picks <? Z.of_nat (List.length (merged_event k dir1)))%Z)
               (fun k => (min_picks <? Z.of_nat (List.length (merged_event k dir2)))%Z))
      by (intros k; now rewrite Hm).
    now apply Permutation_map, filter_perm.
  - rewrite (map_ext (fun k => List.length (merged_event k dir1))
                     (fun k => List.length (merged_event k dir2)))
      by (intros k; now rewrite Hm).
    now apply Permutation_list_sum, Permutation_map.
Qed.

Lemma merge_das_picks_listing_order_witness :
  Permutation (fst (merge_das_picks listing_a 0)) (fst (merge_das_picks listing_b 0)) /\
  snd (merge_das_picks listing_a 0) = snd (merge_das_picks listing_b 0).
Proof.
  apply (merge_das_picks_listing_order listing_a listing_b 0).
  - exact listing_a_b_perm.
  - exact listing_a_names.
Defined.

(** ** Calls that cannot fail *)

Lemma epoch_parsed : Datetime.fromisoformat (rstrip_Z epoch) = Some epoch_datetime.
Proof. vm_compute. reflexivity. Qed.

Lemma add_epoch_succeeds (us : Z) :
  (0 <= us <= 200000000000000000)%Z ->
  exists t, Datetime.add epoch_datetime us = Some t.
Proof.
  intros Hus. unfold Datetime.add, epoch_datetime.
  cbn [Datetime.year Datetime.month Datetime.day Datetime.hour Datetime.minute
       Datetime.second Datetime.microsecond].
  assert (Hy : Datetime.ymd2ord 1970 1 1 = 719163%Z) by (vm_compute; reflexivity).
  rewrite Hy.
  set (total := (((719163 * 86400 + 0 * 3600 + 0 * 60 + 0) * 1000000 + 0) + us)%Z).
  set (day_us := (86400 * 1000000)%Z).
  assert (Hlo : (0 < total / day_us)%Z).
  { apply Z.div_str_pos. unfold total, day_us. lia. }
  assert (Hhi : (total / day_us <= Datetime.max_ordinal)%Z).
  { apply Z.div_le_upper_bound; unfold total, day_us, Datetime.max_ordinal; lia. }
  apply Z.ltb_lt in Hlo. apply Z.leb_le in Hhi. rewrite Hlo, Hhi. cbn [andb guard bind].
  destruct (Datetime.ord2ymd (total / day_us)) as ((y & m) & d).
  eexists. reflexivity.
Qed.

Lemma timedelta_seconds_bounds (q : Q) :
  (0 <= q)%Q -> (q <= 100000000000)%Q ->
  (0 <= Datetime.timedelta_seconds q <= 200000000000000000)%Z.
Proof.
  intros Hlo Hhi. unfold Datetime.timedelta_seconds.
  pose proof (round_half_even_bounds (q * 1000000)) as (Ha & Hb).
  assert (H0 : (0 <= Qfloor (q * 1000000))%Z).
  { change 0%Z with (Qfloor 0). apply Qfloor_resp_le.
    apply Qmult_le_0_compat; [exact Hlo | discriminate]. }
  assert (H1 : (Qfloor (q * 1000000) <= 100000000000000000)%Z).
  { change 100000000000000000%Z with (Qfloor (100000000000 * 1000000)).
    apply Qfloor_resp_le. apply Qmult_le_compat_r; [exact Hhi | discriminate]. }
  lia.
Qed.

Section PlainCall.

Variable topk_index : tensor4 nat.
Variable topk_score : tensor4 Q.
Variable phases : list string.
Variable vmin dt : Q.
Variable window_amp : list Q.

Hypothesis same_dim0 : dim0 topk_index = dim0 topk_score.
Hypothesis same_dim1 : dim1 topk_index = dim1 topk_score.
Hypothesis same_dim2 : dim2 topk_index = dim2 topk_score.
Hypothesis same_dim3 : dim3 topk_index = dim3 topk_score.
Hypothesis labelled : dim1 topk_score <= List.length phases.
Hypothesis dt_nonneg : (0 <= dt)%Q.
Hypothesis in_range :
  forall i j k n,
    i < dim0 topk_index -> j < dim1 topk_index -> k < dim2 topk_index ->
    n < dim3 topk_index ->
    (inject_Z (Z.of_nat (at4 topk_index i j k n)) * dt <= 100000000000)%Q.

Lemma plain_make_pick (i j k : nat) (samples : Z) (srt : list nat)
      (e : nat * (nat * Q)) :
  i < dim0 topk_score -> j < dim1 topk_score -> k < dim2 topk_score ->
  In e (sorted_group topk_index topk_score i j k) ->
  make_pick (plain_kwargs phases vmin dt window_amp)
            (replicate (dim0 topk_score) dt) (replicate (dim0 topk_score) 0%Z)
            None i j k epoch_datetime (format_0d 4 (Z.of_nat k + 0)) samples
            srt (fst e) (fst (snd e)) (snd (snd e))
  = Some (plain_pick phases dt j k e).
Proof.
  intros Hi Hj Hk He. unfold make_pick, plain_pick.
  rewrite !nth_error_replicate.
  apply Nat.ltb_lt in Hi as Hi'. rewrite Hi'. cbn [bind].
  destruct (sorted_group_entry _ _ _ _ _ _ He) as (n & Hn & Hidx & _).
  destruct (add_epoch_succeeds
              (Datetime.timedelta_seconds (inject_Z (Z.of_nat (fst (snd e))) * dt)))
    as (t & Ht).
  { apply timedelta_seconds_bounds.
    - apply Qmult_le_0_compat; [|exact dt_nonneg].
      change 0%Q with (inject_Z 0). rewrite <- Zle_Qle. lia.
    - rewrite Hidx. apply in_range; lia. }
  rewrite Ht. cbn [bind plain_kwargs kw_phases kw_polarity_score].
  rewrite (nth_error_nth' phases EmptyString) by lia.
  reflexivity.
Qed.

Lemma plain_extract_picks :
  exists picks,
    extract_picks topk_index topk_score (plain_kwargs phases vmin dt window_amp)
    = Some picks.
Proof.
  unfold extract_picks.
  cbn [plain_kwargs kw_dt kw_begin_channel_index kw_begin_time_index kw_waveform
       kw_window_amp bind].
  apply mapM_total. intros i Hi. unfold range in Hi. apply in_seq in Hi.
  unfold file_picks. cbn [plain_kwargs kw_file_name kw_begin_time bind].
  rewrite epoch_parsed. cbn [bind].
  match goal with
  | |- exists b, (x <- mapM ?f ?l ;; _) = Some b =>
      destruct (mapM_total f l) as (chs & Hchs);
        [|rewrite Hchs; eexists; reflexivity]
  end.
  intros j Hj. unfold range in Hj. apply in_seq in Hj.
  unfold channel_picks. cbn [bind].
  match goal with
  | |- exists b, (x <- mapM ?f ?l ;; _) = Some b =>
      destruct (mapM_total f l) as (gs & Hgs);
        [|rewrite Hgs; eexists; reflexivity]
  end.
  intros k Hk. unfold range in Hk. apply in_seq in Hk.
  eexists.
  apply group_picks_total
    with (station_i := format_0d 4 (Z.of_nat k + 0))
         (P := plain_pick phases dt j k).
  - cbn [plain_kwargs kw_station_id]. rewrite nth_error_replicate.
    assert (Hi' : (i <? dim0 topk_score) = true) by (apply Nat.ltb_lt; lia).
    rewrite Hi'. reflexivity.
  - lia.
  - lia.
  - lia.
  - lia.
  - intros e He _. apply plain_make_pick; try lia. exact He.
Qed.

End PlainCall.

(** A call of [extract_picks] that passes only phase labels, threshold and
    a non-negative float sample interval cannot fail, provided index and
    score tensor have the same shape, every class channel has a label and
    the pick times stay below 10^11 seconds after the epoch. *)
Theorem extract_picks_plain_call_succeeds (topk_index : tensor4 nat)
        (topk_score : tensor4 Q) (phases : list string) (vmin dt : Q)
        (window_amp : list Q) :
  dim0 topk_index = dim0 topk_score -> dim1 topk_index = dim1 topk_score ->
  dim2 topk_index = dim2 topk_score -> dim3 topk_index = dim3 topk_score ->
  dim1 topk_score <= List.length phases ->
  (0 <= dt)%Q ->
  (forall i j k n,
      i < dim0 topk_index -> j < dim1 topk_index -> k < dim2 topk_index ->
      n < dim3 topk_index ->
      (inject_Z (Z.of_nat (at4 topk_index i j k n)) * dt <= 100000000000)%Q) ->
  exists picks,
    extract_picks topk_index topk_score (plain_kwargs phases vmin dt window_amp)
    = Some picks /\
    List.length picks = dim0 topk_score.
Proof.
  intros H0 H1 H2 H3 Hl Hdt Hr.
  destruct (plain_extract_picks topk_index topk_score phases vmin dt window_amp
              H0 H1 H2 H3 Hl Hdt Hr) as (picks & E).
  exists picks. split; [exact E|].
  now destruct (extract_picks_spec _ _ _ _ E).
Qed.

Lemma extract_picks_plain_call_succeeds_witness :
  exists picks,
    extract_picks two_stations_index two_stations_score
                  (plain_kwargs ["P"; "S"]%string (3 # 10) (1 # 100) [10; 5]%Q)
    = Some picks /\
    List.length picks = 1.
Proof.
  apply (extract_picks_plain_call_succeeds two_stations_index two_stations_score).
  - reflexivity.
  - reflexivity.
  - reflexivity.
  - reflexivity.
  - simpl. lia.
  - vm_compute. discriminate.
  - intros i j k n _ _ _ _. simpl. destruct (k =? 0); vm_compute; discriminate.
Defined.

(** The callers' pipeline cannot fail on a score tensor with a background
    channel and one class channel per phase label, a batch that is not
    empty (or a single channel), at least three time samples and at least
    one station, when only phase labels, threshold and a non-negative
    sample interval are passed and the record is shorter than 10^11
    seconds. *)
Theorem predict_picks_succeeds (tk : topk_fn) (scores : tensor4 Q)
        (phases : list string) (vmin dt : Q) (window_amp : list Q) :
  topk_contract tk ->
  0 < dim0 scores \/ dim1 scores = 1 ->
  0 < dim1 scores -> 3 <= dim2 scores -> 0 < dim3 scores ->
  peak_channels (dim1 scores) <= List.length phases ->
  (0 <= dt)%Q ->
  (inject_Z (Z.of_nat (dim2 scores)) * dt <= 100000000000)%Q ->
  exists picks,
    predict_picks tk scores (plain_kwargs phases vmin dt window_amp) = Some picks /\
    List.length picks = dim0 scores.
Proof.
  intros tk_ok Hb Hc Ht Hs Hl Hdt Hlen.
  pose proof (nms_keep_odd scores 10 Hc ltac:(lia) Hs) as Hkeep.
  assert (Hout : exists out, nms scores (2 * 10 + 1) 1 = Some out)
    by (unfold nms; rewrite Hkeep; eexists; reflexivity).
  destruct Hout as (out & Hout).
  destruct (detect_peaks_succeeds tk scores vmin (2 * 10 + 1) 1 0 out Hout)
    as (ts & ti & E).
  { change (effective_K (dim2 scores) 0) with (default_K (dim2 scores)).
    now apply default_K_bounds. }
  { exact Hb. }
  destruct (detect_peaks_rows tk tk_ok _ _ _ _ _ _ _ E)
    as (out' & _ & _ & A0 & B0 & A1 & B1 & A2 & B2 & A3 & B3 & _).
  destruct (detect_peaks_entry tk tk_ok _ _ _ _ _ _ _ E) as (keep & _ & Hentry).
  destruct (plain_extract_picks ti ts phases vmin dt window_amp) as (picks & Ex);
    try congruence.
  - rewrite A1. exact Hl.
  - intros i j k n _ _ _ Hn. eapply Qle_trans; [|exact Hlen].
    apply Qmult_le_compat_r; [|exact Hdt].
    rewrite <- Zle_Qle. rewrite B3, <- A3 in Hn.
    destruct (Hentry i j k n Hn) as (Hlt & _). lia.
  - exists picks. unfold predict_picks.
    change 21 with (2 * 10 + 1).
    cbn [plain_kwargs kw_vmin]. rewrite E. cbn [bind]. split; [exact Ex|].
    destruct (extract_picks_spec _ _ _ _ Ex) as (Hn & _). now rewrite Hn.
Qed.

Lemma predict_picks_succeeds_witness :
  exists picks,
    predict_picks topk_lowest impulse300
                  (plain_kwargs ["P"; "S"]%string (1 # 2) (1 # 100) [10; 5]%Q)
    = Some picks /\
    List.length picks = 1.
Proof.
  apply (predict_picks_succeeds topk_lowest impulse300).
  - exact topk_lowest_ok.
  - left. simpl. lia.
  - simpl. lia.
  - simpl. lia.
  - simpl. lia.
  - unfold peak_channels. simpl. lia.
  - vm_compute. discriminate.
  - vm_compute. discriminate.
Defined.

(** ** The picks do not depend on how [torch.topk] breaks ties *)

Lemma pick_of_deterministic (kw : kwargs) (g g' : list (nat * (nat * Q)))
      (i j k : nat) (e e' : nat * (nat * Q)) (p p' : pick) :
  kw_waveform kw = None -> snd e = snd e' ->
  pick_of kw g i j k e p -> pick_of kw g' i j k e' p' -> p = p'.
Proof.
  intros Hw He [Hi Ht Hs Hty Hst Hpol Hamp] [Hi' Ht' Hs' Hty' Hst' Hpol' Hamp'].
  rewrite Hw in Hamp, Hamp'. rewrite <- He in *.
  destruct Hi as (bti & Eb & Hi). destruct Hi' as (bti' & Eb' & Hi').
  destruct Ht as (a & d & t & Ea & Ed & Et & Ht).
  destruct Ht' as (a' & d' & t' & Ea' & Ed' & Et' & Ht').
  assert (bti = bti') by congruence. subst bti'.
  assert (a = a') by congruence. subst a'.
  assert (d = d') by congruence. subst d'.
  assert (t = t') by congruence. subst t'.
  assert (Hpol2 : phase_polarity p = phase_polarity p')
    by (destruct (kw_polarity_score kw); congruence).
  destruct p, p'. cbn in *. f_equal; congruence.
Qed.

Lemma Forall2_pick_of_deterministic (kw : kwargs) (g g' : list (nat * (nat * Q)))
      (i j k : nat) (l l' : list (nat * (nat * Q))) (ps ps' : list pick) :
  kw_waveform kw = None -> map snd l = map snd l' ->
  Forall2 (pick_of kw g i j k) l ps -> Forall2 (pick_of kw g' i j k) l' ps' ->
  ps = ps'.
Proof.
  intros Hw Hl H. revert l' ps' Hl.
  induction H as [|e p l ps Hp HF IH]; intros l' ps' Hl H'.
  - destruct l'; [|discriminate]. now inversion H'.
  - destruct l' as [|e' l']; [discriminate|].
    injection Hl as He Hl. inversion H' as [|? p' ? ps'' Hp' HF']; subst.
    f_equal.
    + exact (pick_of_deterministic _ _ _ _ _ _ _ _ _ _ Hw He Hp Hp').
    + now apply IH with (l' := l').
Qed.

Lemma list_eq_nth_error {A : Type} (l1 l2 : list A) :
  List.length l1 = List.length l2 ->
  (forall n a b, nth_error l1 n = Some a -> nth_error l2 n = Some b -> a = b) ->
  l1 = l2.
Proof.
  revert l2. induction l1 as [|x l1 IH]; intros [|y l2] Hlen H; try discriminate.
  - reflexivity.
  - f_equal.
    + exact (H 0 x y eq_refl eq_refl).
    + apply IH; [now injection Hlen|].
      intros n a b Ha Hb. exact (H (S n) a b Ha Hb).
Qed.

Lemma strictly_sorted_unique (l1 l2 : list nat) :
  StronglySorted lt l1 -> StronglySorted lt l2 ->
  (forall x, In x l1 <-> In x l2) -> l1 = l2.
Proof.
  revert l2. induction l1 as [|a r1 IH]; intros l2 S1 S2 H.
  - destruct l2 as [|b r2]; [reflexivity|].
    exfalso. apply (proj2 (H b)). now left.
  - destruct l2 as [|b r2]; [exfalso; apply (proj1 (H a)); now left|].
    apply StronglySorted_inv in S1 as (S1 & F1).
    apply StronglySorted_inv in S2 as (S2 & F2).
    rewrite Forall_forall in F1, F2.
    assert (Hab : a = b).
    { destruct (proj1 (H a) (or_introl eq_refl)) as [Ha|Ha]; [now symmetry|].
      destruct (proj2 (H b) (or_introl eq_refl)) as [Hb|Hb]; [exact Hb|].
      specialize (F1 b Hb). specialize (F2 a Ha). lia. }
    subst b. f_equal. apply IH; try assumption.
    intros x. split; intros Hx.
    + destruct (proj1 (H x) (or_intror Hx)) as [E|Hx']; [|exact Hx'].
      subst x. specialize (F1 a Hx). lia.
    + destruct (proj2 (H x) (or_intror Hx)) as [E|Hx']; [|exact Hx'].
      subst x. specialize (F2 a Hx). lia.
Qed.

Lemma sorted_nodup_strict (l : list nat) :
  StronglySorted le l -> NoDup l -> StronglySorted lt l.
Proof.
  induction 1 as [|a l S IH F]; intros Hnd; [constructor|].
  apply NoDup_cons_iff in Hnd as (Ha & Hnd).
  constructor; [now apply IH|].
  rewrite Forall_forall in *. intros x Hx.
  specialize (F x Hx). assert (a <> x) by (intros ->; contradiction). lia.
Qed.

Lemma strict_sorted_filter (c : nat -> bool) (l : list nat) :
  StronglySorted lt l -> StronglySorted lt (filter c l).
Proof.
  induction 1 as [|a l S IH F]; cbn [filter]; [constructor|].
  destruct (c a); [|exact IH].
  constructor; [exact IH|].
  rewrite Forall_forall in *. intros x Hx. apply F.
  now apply filter_In in Hx.
Qed.

Lemma filter_enumerate_snd {A : Type} (c : A -> bool) (l : list A) :
  map snd (filter (fun e => c (snd e)) (enumerate l)) = filter c l.
Proof.
  unfold enumerate, range. generalize 0.
  induction l as [|a l IH]; intros n; [reflexivity|].
  cbn [List.length seq combine filter snd].
  destruct (c a); cbn [map snd]; now rewrite IH.
Qed.

Lemma seq_strictly_sorted (start len : nat) : StronglySorted lt (seq start len).
Proof.
  revert start. induction len as [|len IH]; intros start; cbn [seq]; constructor.
  - apply IH.
  - apply Forall_forall. intros x Hx. apply in_seq in Hx. lia.
Qed.

(** When no more than [K] positions exceed the threshold, the selection
    holds all of them. *)
Lemma topk_contains_above (tk : topk_fn) (xs : list Q) (K : nat) (c : Q -> bool)
      (t : nat) :
  topk_contract tk -> K <= List.length xs ->
  (forall a b, c a = true -> (a <= b)%Q -> c b = true) ->
  List.length (filter (fun t => c (nth t xs 0%Q)) (range (List.length xs))) <= K ->
  t < List.length xs -> c (nth t xs 0%Q) = true ->
  In t (snd (tk xs K)).
Proof.
  intros tk_ok HK Hmono Hcount Ht Habove.
  pose proof (topk_count_above tk xs K c tk_ok HK Hmono) as Hc.
  rewrite Nat.min_r in Hc by exact Hcount.
  assert (HP : Permutation
                 (filter (fun i => c (nth i xs 0%Q)) (snd (tk xs K)))
                 (filter (fun t => c (nth t xs 0%Q)) (range (List.length xs)))).
  { apply NoDup_Permutation_bis.
    - apply NoDup_filter, (topk_nodup tk tk_ok), HK.
    - rewrite Hc. apply Nat.le_refl.
    - intros x Hx. apply filter_In in Hx as (Hx & Hax).
      apply filter_In. split; [|exact Hax].
      pose proof (topk_range tk tk_ok xs K HK) as Hr.
      rewrite Forall_forall in Hr. unfold range. apply in_seq.
      specialize (Hr x Hx). lia. }
  assert (Hin : In t (filter (fun i => c (nth i xs 0%Q)) (snd (tk xs K)))).
  { apply (Permutation_in t (Permutation_sym HP)).
    apply filter_In. split; [|exact Habove]. unfold range. apply in_seq. lia. }
  now apply filter_In in Hin.
Qed.

(** The entries above the threshold of a group returned by [detect_peaks],
    in the order [extract_picks] visits them: all samples of the slice
    whose suppressed score exceeds the threshold, in time order. *)
Lemma above_entries_canonical (tk : topk_fn) (scores : tensor4 Q) (v0 : Q) (kw : kwargs)
      (kernel stride K : nat) (ts : tensor4 Q) (ti : tensor4 nat)
      (out : tensor4 Q) (i j k : nat) :
  topk_contract tk ->
  detect_peaks tk scores v0 kernel stride K = Some (ts, ti) ->
  nms scores kernel stride = Some out ->
  slice_above kw out i (source_channel (dim1 scores) j) k
  <= effective_K (dim2 scores) K ->
  map snd (filter (above kw) (sorted_group ti ts i j k))
  = map (fun t => (t, at4 out i (source_channel (dim1 scores) j) t k))
        (filter (fun t => above_vmin kw (at4 out i (source_channel (dim1 scores) j) t k))
                (range (dim2 scores))).
Proof.
  intros tk_ok E Hout Hcount.
  destruct (detect_peaks_rows tk tk_ok _ _ _ _ _ _ _ E)
    as (out' & Hout' & HK & _ & _ & _ & _ & _ & _ & A3 & B3 & Hrow).
  assert (out' = out) by congruence. subst out'.
  specialize (Hrow i j k).
  set (c := source_channel (dim1 scores) j) in *.
  set (xs := series out i c k) in *.
  set (K' := effective_K (dim2 scores) K) in *.
  assert (Dout : dim2 out = dim2 scores)
    by (destruct (nms_dims _ _ _ _ Hout) as (? & _ & ->); reflexivity).
  assert (Hlen : List.length xs = dim2 scores)
    by (unfold xs; rewrite series_length; exact Dout).
  assert (HL : K' <= List.length xs) by lia.
  assert (Hsel : row ti i j k = snd (tk xs K')) by now rewrite <- Hrow.
  assert (Hvals : row ts i j k = map (fun t => nth t xs 0%Q) (row ti i j k)).
  { rewrite Hsel, <- (topk_values tk tk_ok _ _ HL). now rewrite <- Hrow. }
  assert (Hsl : List.length (row ti i j k) = K')
    by (rewrite Hsel; apply (topk_length tk tk_ok), HL).
  destruct (torch_sort_spec (row ti i j k)) as (Hsorted & Hperm & Hfst).
  set (g := fun t => (t, nth t xs 0%Q)).
  assert (Hpairs : map (fun n => (at4 ti i j k n, at4 ts i j k n))
                       (snd (torch_sort (row ti i j k)))
                   = map g (fst (torch_sort (row ti i j k)))).
  { rewrite Hfst, map_map. apply map_ext_in. intros n Hn.
    apply (Permutation_in n Hperm) in Hn. unfold range in Hn. apply in_seq in Hn.
    rewrite Hsl in Hn. unfold g.
    rewrite (row_nth ti i j k n 0) by lia.
    rewrite <- (row_nth ts i j k n 0%Q) by lia.
    rewrite Hvals.
    rewrite (nth_indep _ 0%Q (nth 0 xs 0%Q)) by (rewrite length_map; lia).
    rewrite (map_nth (fun t => nth t xs 0%Q)).
    rewrite (row_nth ti i j k n 0) by lia. reflexivity. }
  unfold sorted_group. rewrite Hpairs.
  change (filter (above kw)) with
    (filter (fun e : nat * (nat * Q) => (fun p : nat * Q => above_vmin kw (snd p)) (snd e))).
  rewrite (filter_enumerate_snd (fun p : nat * Q => above_vmin kw (snd p))).
  rewrite filter_map_swap.
  change (fun a : nat => above_vmin kw (snd (g a)))
    with (fun t : nat => above_vmin kw (nth t xs 0%Q)).
  assert (Hset : filter (fun t => above_vmin kw (nth t xs 0%Q))
                        (fst (torch_sort (row ti i j k)))
                 = filter (fun t => above_vmin kw (nth t xs 0%Q)) (range (dim2 scores))).
  { apply strictly_sorted_unique.
    - apply strict_sorted_filter, sorted_nodup_strict; [exact Hsorted|].
      apply (Permutation_NoDup (Permutation_sym (torch_sort_perm _))).
      rewrite Hsel. apply (topk_nodup tk tk_ok), HL.
    - apply strict_sorted_filter, seq_strictly_sorted.
    - intros t. rewrite !filter_In. unfold range. rewrite in_seq.
      split; intros (Hin & Hab); (split; [|exact Hab]).
      + apply (Permutation_in t (torch_sort_perm _)) in Hin.
        rewrite Hsel in Hin.
        pose proof (topk_range tk tk_ok xs K' HL) as Hr.
        rewrite Forall_forall in Hr. specialize (Hr t Hin). lia.
      + apply (Permutation_in t (Permutation_sym (torch_sort_perm _))).
        rewrite Hsel.
        apply (topk_contains_above tk xs K' (above_vmin kw) t tk_ok HL (above_vmin_mono kw)); [|lia|exact Hab].
        unfold slice_above in Hcount. rewrite Hlen. rewrite Dout in Hcount.
        erewrite filter_ext_in; [exact Hcount|].
        intros u Hu. unfold range in Hu. apply in_seq in Hu.
        unfold xs. rewrite series_nth by lia. reflexivity. }
  rewrite Hset.
  rewrite (filter_ext_in (fun t => above_vmin kw (nth t xs 0%Q))
                         (fun t => above_vmin kw (at4 out i c t k))).
  - apply map_ext_in. intros t Ht. apply filter_In in Ht as (Ht & _).
    unfold range in Ht. apply in_seq in Ht.
    unfold g, xs. rewrite series_nth by lia. reflexivity.
  - intros t Ht. unfold range in Ht. apply in_seq in Ht.
    unfold xs. rewrite series_nth by lia. reflexivity.
Qed.

(** [torch.topk] leaves open which of several equal scores it returns and
    in which order.  As long as no slice has more than [K] samples whose
    suppressed score passes the test [score > vmin] of [extract_picks], and
    no waveform is passed, the picks of the callers are the same for any
    two selections that meet the contract of [torch.topk], such as
    [topk_lowest] and [topk_highest], which fill the groups of the impulse
    scenario with different zero-score samples. *)
Theorem predict_picks_selection_independent (tk1 tk2 : topk_fn)
        (scores : tensor4 Q) (kw : kwargs) (picks1 picks2 : list (list pick)) :
  topk_contract tk1 -> topk_contract tk2 ->
  kw_waveform kw = None ->
  (forall i c k, i < dim0 scores -> c < dim1 scores -> k < dim3 scores ->
     slice_above kw (suppressed scores) i c k <= default_K (dim2 scores)) ->
  predict_picks tk1 scores kw = Some picks1 ->
  predict_picks tk2 scores kw = Some picks2 ->
  picks1 = picks2.
Proof.
  intros ok1 ok2 Hw Hcount H1 H2.
  destruct (predict_picks_Some _ _ _ _ H1) as (ts1 & ti1 & E1 & X1).
  destruct (predict_picks_Some _ _ _ _ H2) as (ts2 & ti2 & E2 & X2).
  destruct (detect_peaks_rows tk1 ok1 _ _ _ _ _ _ _ E1)
    as (out & Hout & _ & A0 & _ & A1 & _ & A2 & _ & _ & _ & _).
  destruct (detect_peaks_rows tk2 ok2 _ _ _ _ _ _ _ E2)
    as (out2 & Hout2 & _ & C0 & _ & C1 & _ & C2 & _ & _ & _ & _).
  assert (Hsup : suppressed scores = out)
    by (unfold suppressed; change 21 with (2 * 10 + 1); now rewrite Hout).
  rewrite Hsup in Hcount. clear out2 Hout2.
  destruct (extract_picks_spec _ _ _ _ X1) as (L1 & F1).
  destruct (extract_picks_spec _ _ _ _ X2) as (L2 & F2).
  apply list_eq_nth_error; [congruence|].
  intros i f1 f2 Hf1 Hf2.
  destruct (F1 i f1 Hf1) as (Hi & groups1 & -> & G1 & P1).
  destruct (F2 i f2 Hf2) as (_ & groups2 & -> & G2 & P2).
  f_equal. f_equal.
  apply list_eq_nth_error; [congruence|].
  intros j gs1 gs2 Hg1 Hg2.
  destruct (P1 j gs1 Hg1) as (Hj & Q1 & R1).
  destruct (P2 j gs2 Hg2) as (_ & Q2 & R2).
  apply list_eq_nth_error; [congruence|].
  intros k g1 g2 Hk1 Hk2.
  destruct (R1 k g1 Hk1) as (Hk & S1).
  destruct (R2 k g2 Hk2) as (_ & S2).
  apply (Forall2_pick_of_deterministic _ _ _ _ _ _ _ _ _ _ Hw) with (3 := S2) (2 := S1).
  assert (Hc : slice_above kw out i (source_channel (dim1 scores) j) k
               <= effective_K (dim2 scores) 0).
  { apply Hcount; [lia| |lia].
    rewrite A1 in Hj. unfold source_channel.
    destruct (dim1 scores =? 1) eqn:Ec; [apply Nat.eqb_eq in Ec|]; lia. }
  rewrite (above_entries_canonical tk1 scores (kw_vmin kw) kw _ _ _
             ts1 ti1 out i j k ok1 E1 Hout Hc).
  rewrite (above_entries_canonical tk2 scores (kw_vmin kw) kw _ _ _
             ts2 ti2 out i j k ok2 E2 Hout Hc).
  reflexivity.
Qed.

Lemma predict_picks_selection_independent_witness :
  row (peaks_inds (detect_peaks topk_lowest impulse300 (1 # 2) 21 1 0)) 0 0 0
  = [150; 0; 1] /\
  row (peaks_inds (detect_peaks topk_highest impulse300 (1 # 2) 21 1 0)) 0 0 0
  = [150; 299; 298] /\
  predict_picks topk_lowest impulse300 impulse_kwargs
  = predict_picks topk_highest impulse300 impulse_kwargs.
Proof.
  split; [vm_compute; reflexivity|]. split; [vm_compute; reflexivity|].
  destruct (predict_picks topk_lowest impulse300 impulse_kwargs) as [p1|] eqn:E1;
    [|vm_compute in E1; discriminate].
  destruct (predict_picks topk_highest impulse300 impulse_kwargs) as [p2|] eqn:E2;
    [|vm_compute in E2; discriminate].
  f_equal.
  apply (predict_picks_selection_independent topk_lowest topk_highest
           impulse300 impulse_kwargs p1 p2).
  - exact topk_lowest_ok.
  - exact topk_highest_ok.
  - reflexivity.
  - intros i c k Hi Hc Hk. cbn [dim0 dim1 dim3 impulse300] in Hi, Hc, Hk.
    assert (i = 0) by lia. assert (k = 0) by lia. subst i k.
    assert (Hcases : c = 0 \/ c = 1) by lia.
    destruct Hcases as [->| ->]; vm_compute; lia.
  - exact E1.
  - exact E2.
Defined.

(** No peak is missed: a sample whose suppressed score passes the test
    [score > vmin] as [extract_picks] makes it (in the element type of the
    score tensor, to which [vmin] is converted) yields a pick at its time
    index, with its score and the label of its class, as long as its slice
    has no more than [K] such samples. *)
Theorem predict_picks_complete (tk : topk_fn) (scores : tensor4 Q) (kw : kwargs)
        (picks : list (list pick)) (i j k t : nat) :
  topk_contract tk ->
  predict_picks tk scores kw = Some picks ->
  i < dim0 scores -> j < peak_channels (dim1 scores) -> k < dim3 scores ->
  t < dim2 scores ->
  slice_above kw (suppressed scores) i (source_channel (dim1 scores) j) k
  <= default_K (dim2 scores) ->
  above_vmin kw
       (at4 (suppressed scores) i (source_channel (dim1 scores) j) t k) = true ->
  exists file_i p bti,
    nth_error picks i = Some file_i /\ In p file_i /\
    begin_time_index_of kw i = Some bti /\
    phase_index p = (Z.of_nat t + bti)%Z /\
    phase_score p
    = format_3f (at4 (suppressed scores) i (source_channel (dim1 scores) j) t k) /\
    nth_error (kw_phases kw) j = Some (phase_type p).
Proof.
  intros tk_ok H Hi Hj Hk Ht Hcount Habove.
  destruct (predict_picks_Some _ _ _ _ H) as (ts & ti & E & Hx).
  destruct (detect_peaks_rows tk tk_ok _ _ _ _ _ _ _ E)
    as (out & Hout & HK & A0 & B0 & A1 & B1 & A2 & B2 & A3 & B3 & Hrow).
  assert (Hsup : suppressed scores = out)
    by (unfold suppressed; change 21 with (2 * 10 + 1); now rewrite Hout).
  rewrite Hsup in *.
  specialize (Hrow i j k).
  set (c := source_channel (dim1 scores) j) in *.
  set (xs := series out i c k) in *.
  set (K' := effective_K (dim2 scores) 0) in *.
  assert (Dout : dim2 out = dim2 scores)
    by (destruct (nms_dims _ _ _ _ Hout) as (? & _ & ->); reflexivity).
  assert (Hlen : List.length xs = dim2 scores)
    by (unfold xs; rewrite series_length; exact Dout).
  assert (HL : K' <= List.length xs) by lia.
  assert (Hsel : row ti i j k = snd (tk xs K')) by now rewrite <- Hrow.
  assert (Hvals : row ts i j k = map (fun t => nth t xs 0%Q) (row ti i j k)).
  { rewrite Hsel, <- (topk_values tk tk_ok _ _ HL). now rewrite <- Hrow. }
  assert (Hin : In t (row ti i j k)).
  { rewrite Hsel.
    apply (topk_contains_above tk xs K' (above_vmin kw) t tk_ok HL (above_vmin_mono kw)).
    - unfold slice_above in Hcount. rewrite Hlen. rewrite Dout in Hcount.
      erewrite filter_ext_in; [exact Hcount|].
      intros u Hu. unfold range in Hu. apply in_seq in Hu.
      unfold xs. rewrite series_nth by lia. reflexivity.
    - lia.
    - unfold xs. rewrite series_nth by lia. exact Habove. }
  apply (In_nth _ _ 0) in Hin as (n & Hn & Hnt).
  rewrite row_length in Hn. rewrite row_nth in Hnt by exact Hn.
  assert (Hscore : at4 ts i j k n = at4 out i c t k).
  { rewrite <- (row_nth ts i j k n 0%Q) by lia.
    rewrite Hvals.
    rewrite (nth_indep _ 0%Q (nth 0 xs 0%Q)) by (rewrite length_map, row_length; lia).
    rewrite (map_nth (fun t => nth t xs 0%Q)).
    rewrite (row_nth ti i j k n 0) by lia. rewrite Hnt.
    unfold xs. rewrite series_nth by lia. reflexivity. }
  destruct (entry_has_pick ti ts kw picks i j k n Hx) as (file_i & p & m & Hf & Hp & Hpick);
    try lia.
  - rewrite A1. exact Hj.
  - rewrite Hscore. exact Habove.
  - destruct (po_index _ _ _ _ _ _ _ Hpick) as (bti & Hbti & Hidx).
    pose proof (po_score _ _ _ _ _ _ _ Hpick) as Hs.
    pose proof (po_type _ _ _ _ _ _ _ Hpick) as Hty.
    cbn [fst snd] in Hidx, Hs. rewrite Hnt in Hidx. rewrite Hscore in Hs.
    exists file_i, p, bti. auto 10.
Qed.

Lemma predict_picks_complete_witness :
  exists file_i p bti,
    nth_error [[impulse_pick]] 0 = Some file_i /\ In p file_i /\
    begin_time_index_of impulse_kwargs 0 = Some bti /\
    phase_index p = (Z.of_nat 150 + bti)%Z /\
    phase_score p = format_3f (at4 (suppressed impulse300) 0 1 150 0) /\
    nth_error (kw_phases impulse_kwargs) 0 = Some (phase_type p).
Proof.
  apply (predict_picks_complete topk_lowest impulse300 impulse_kwargs _ 0 0 0 150).
  - exact topk_lowest_ok.
  - vm_compute. reflexivity.
  - simpl. lia.
  - unfold peak_channels. simpl. lia.
  - simpl. lia.
  - simpl. lia.
  - vm_compute. lia.
  - vm_compute. reflexivity.
Defined.

(** ** A zero sample interval *)

Lemma mapM_None {A B : Type} (f : A -> option B) (l : list A) (a : A) :
  In a l -> f a = None -> mapM f l = None.
Proof.
  induction l as [|x l IH]; intros Hin Ha; [destruct Hin|].
  cbn [mapM]. destruct Hin as [->|Hin].
  - now rewrite Ha.
  - destruct (f x); [|reflexivity]. cbn [bind]. now rewrite (IH Hin Ha).
Qed.

(** With a waveform, a batch element whose sample interval is 0 makes
    [extract_picks] fail, whether or not it has picks: the length of the
    amplitude window is computed for every class channel, and the division
    by the sample interval raises. *)
Theorem extract_picks_zero_dt (topk_index : tensor4 nat) (topk_score : tensor4 Q)
        (kw : kwargs) (w : tensor4 Q) (i : nat) (dti : Q) :
  kw_waveform kw = Some w ->
  i < dim0 topk_score -> 0 < dim1 topk_score ->
  dt_of kw i = Some dti -> (dti == 0)%Q ->
  extract_picks topk_index topk_score kw = None.
Proof.
  intros Hw Hi Hc Hdt Hz. unfold extract_picks.
  match goal with
  | |- bind ?m _ = None => destruct m as [dts|] eqn:Edt; [cbn [bind]|reflexivity]
  end.
  assert (Hd : nth_error dts i = Some dti).
  { unfold dt_of in Hdt. destruct (kw_dt kw) as [x|l].
    - injection Edt as <-. rewrite nth_error_replicate.
      apply Nat.ltb_lt in Hi. now rewrite Hi.
    - destruct (mapM_range_nth _ _ _ Edt) as (Hl & Hn).
      destruct (nth_error dts i) as [r|] eqn:Er.
      + destruct (Hn i r Er) as (_ & Hr). congruence.
      + apply nth_error_None in Er. lia. }
  rewrite Hw. destruct (max_abs_dim1 w) as [a|]; [cbn [bind]|reflexivity].
  apply mapM_None with (a := i); [unfold range; apply in_seq; lia|].
  unfold file_picks.
  match goal with
  | |- bind ?m _ = None => destruct m; [cbn [bind]|reflexivity]
  end.
  match goal with
  | |- bind ?m _ = None => destruct m; [cbn [bind]|reflexivity]
  end.
  match goal with
  | |- bind ?m _ = None => destruct m as [begin_i|]; [cbn [bind]|reflexivity]
  end.
  rewrite (mapM_None _ _ 0); [reflexivity|unfold range; apply in_seq; lia|].
  unfold channel_picks.
  destruct (nth_error _ 0) as [wa|]; [cbn [bind]|reflexivity].
  rewrite Hd. cbn [bind]. unfold float_div.
  assert (Hz' : Qeq_bool (float64 dti) 0 = true)
    by (apply Qeq_bool_iff, round_to_zero, Hz).
  rewrite Hz'. reflexivity.
Qed.

Lemma extract_picks_zero_dt_witness :
  extract_picks close_pair_index close_pair_score
    (Kwargs None None None ["P"; "S"]%string (3 # 10) (DtFloat 0)
            None (Some step_waveform) [1 # 10; 1 # 20]%Q None None Float32)
  = None.
Proof.
  apply (extract_picks_zero_dt close_pair_index close_pair_score _ step_waveform 0 0).
  - reflexivity.
  - simpl. lia.
  - simpl. lia.
  - reflexivity.
  - reflexivity.
Defined.
